(** * serdew: a shallow embedding of the (de)serialization context

    The Go package [serdew] (src/serdew.go) drives one stateful context
    [Ctx] through a sequence of codec calls.  The same call either appends
    bytes to an output buffer (serializer) or consumes bytes from an input
    buffer (deserializer), and the context remembers the first error.

    The embedding is value passing: a Go function that mutates [*Ctx] and
    a destination [*T] becomes a function from the context and the
    destination to the new context, the new destination and the returned
    error.  A Go run-time panic is an explicit [Panic] outcome.  Slices
    keep their capacity: a slice is the visible elements together with
    the rest of its backing array. *)

From Stdlib Require Import ZArith Lia.
From Stdlib Require Import Strings.Byte.
From stdpp Require Import base list gmap.

Local Open Scope Z_scope.

(** ** Outcomes: a normal return or a run-time panic *)

Inductive panic : Type :=
| PanicAbortNil        (* "serdew.Ctx[S].Abort() called with nil error" *)
| PanicIncompatible    (* "your system is incompatible with the serdew library" *)
| PanicSliceBounds     (* Go run time: slice bounds out of range *)
| PanicIndex           (* Go run time: index out of range *)
| PanicMakeSlice.      (* Go run time: makeslice: len or cap out of range *)

Inductive outcome (A : Type) : Type :=
| Ret (a : A)
| Panic (p : panic).

Arguments Ret {A} a.
Arguments Panic {A} p.

Definition bind {A B : Type} (m : outcome A) (k : A -> outcome B) : outcome B :=
  match m with
  | Ret a => k a
  | Panic p => Panic p
  end.

Notation "'let*' x ':=' m 'in' k" := (bind m (fun x => k))
  (at level 10, x pattern, m at level 100, k at level 200).

(** ** Bytes *)

Definition byte_of_Z (z : Z) : byte :=
  default x00 (Byte.of_N (Z.to_N (z mod 256))).

Definition Z_of_byte (b : byte) : Z := Z.of_N (Byte.to_N b).

(** Bytes can be compared and counted, so that strings can be map keys. *)
#[global] Instance byte_eq_dec : EqDecision byte := Byte.byte_eq_dec.

#[global] Program Instance byte_countable : Countable byte :=
  inj_countable Byte.to_N Byte.of_N _.
Next Obligation. intros b. apply Byte.of_to_N. Qed.

(** ** Go slices

    [vis] holds the elements below [len]; [spare] holds the elements of
    the backing array between [len] and [cap]. *)

Record slice (A : Type) : Type := Slice_ { vis : list A; spare : list A }.

Arguments Slice_ {A} vis spare.
Arguments vis {A} s.
Arguments spare {A} s.

Definition backing {A} (s : slice A) : list A := vis s ++ spare s.
Definition len {A} (s : slice A) : Z := Z.of_nat (length (vis s)).
Definition cap {A} (s : slice A) : Z := Z.of_nat (length (backing s)).

(** The nil slice: no backing array at all. *)
Definition nil_slice {A} : slice A := Slice_ [] [].

(** [s[lo:hi]]: the bounds are checked against the capacity. *)
Definition reslice {A} (s : slice A) (lo hi : Z) : outcome (slice A) :=
  if (0 <=? lo) && (lo <=? hi) && (hi <=? cap s)
  then Ret (Slice_ (take (Z.to_nat (hi - lo)) (drop (Z.to_nat lo) (backing s)))
                   (drop (Z.to_nat hi) (backing s)))
  else Panic PanicSliceBounds.

(** [s[lo:]]: the upper bound is the length. *)
Definition reslice_from {A} (s : slice A) (lo : Z) : outcome (slice A) :=
  if (0 <=? lo) && (lo <=? len s)
  then Ret (Slice_ (drop (Z.to_nat lo) (vis s)) (spare s))
  else Panic PanicSliceBounds.

(** [make([]T, l, c)] with the zero value [z] of [T].  The panics for a
    negative length and for a length above the capacity are modelled.
    The run time panics too when the size in bytes passes its allocation
    limit; that limit is not a part of this model, so what is stated about
    an allocation whose size is a call argument or comes from the wire is
    stated of the calls that return. *)
Definition make {A} (z : A) (l c : Z) : outcome (slice A) :=
  if (0 <=? l) && (l <=? c)
  then Ret (Slice_ (replicate (Z.to_nat l) z) (replicate (Z.to_nat (c - l)) z))
  else Panic PanicMakeSlice.

(** [copy(dst, src)]: the first [min(len(dst), len(src))] elements. *)
Definition copy {A} (dst : slice A) (src : list A) : slice A :=
  let k := Nat.min (length (vis dst)) (length src) in
  Slice_ (take k src ++ drop k (vis dst)) (spare dst).

(** A slice header [s] whose backing array was written through another
    header [t] over the same array and the same start: [s] keeps its
    length and sees the new contents. *)
Definition through {A} (s t : slice A) : slice A :=
  Slice_ (take (length (vis s)) (backing t)) (drop (length (vis s)) (backing t)).

(** ** Numeric types *)

Inductive intty : Type :=
| TInt | TInt8 | TInt16 | TInt32 | TInt64
| TUint | TUint8 | TUint16 | TUint32 | TUint64 | TUintptr.

Inductive numty : Type :=
| NInt (t : intty)
| TFloat32
| TFloat64.

(** Modelled from the spec: [unsafe.Sizeof] and [unsafe.Alignof] are
    compiler intrinsics, absent from the sources.  The spec fixes the
    platform-native integer at 8 bytes (a 64-bit target), where every
    numeric type is aligned to its size. *)
Definition int_sizeof (t : intty) : Z :=
  match t with
  | TInt8 | TUint8 => 1
  | TInt16 | TUint16 => 2
  | TInt32 | TUint32 => 4
  | TInt64 | TUint64 => 8
  | TInt | TUint | TUintptr => 8
  end.

Definition sizeof (t : numty) : Z :=
  match t with
  | NInt t => int_sizeof t
  | TFloat32 => 4
  | TFloat64 => 8
  end.

Definition alignof (t : numty) : Z := sizeof t.

Definition int_signed (t : intty) : bool :=
  match t with
  | TInt | TInt8 | TInt16 | TInt32 | TInt64 => true
  | _ => false
  end.

(** A value of an integer type is its mathematical value; a value of a
    floating-point type is its IEEE-754 bit pattern, read as an unsigned
    number of the same width. *)
Definition int_wrap (t : intty) (z : Z) : Z :=
  let w := 8 * int_sizeof t in
  if int_signed t
  then (z + 2 ^ (w - 1)) mod 2 ^ w - 2 ^ (w - 1)
  else z mod 2 ^ w.

Definition int_in_range (t : intty) (z : Z) : Prop :=
  let w := 8 * int_sizeof t in
  if int_signed t then - 2 ^ (w - 1) <= z < 2 ^ (w - 1) else 0 <= z < 2 ^ w.

Definition num_wrap (t : numty) (z : Z) : Z :=
  match t with
  | NInt t => int_wrap t z
  | TFloat32 => z mod 2 ^ 32
  | TFloat64 => z mod 2 ^ 64
  end.

Definition in_range (t : numty) (z : Z) : Prop :=
  match t with
  | NInt t => int_in_range t z
  | TFloat32 => 0 <= z < 2 ^ 32
  | TFloat64 => 0 <= z < 2 ^ 64
  end.

(** Go's [int] arithmetic wraps. *)
Definition int_add (a b : Z) : Z := int_wrap TInt (a + b).
Definition int_shl (a s : Z) : Z := int_wrap TInt (Z.shiftl a s).

(** ** The context *)

Inductive SerDe : Type := Ser | De.

(** [type Ser struct{ _ int8 }] and [type De struct{ _ int16 }]. *)
Definition marker_sizeof (s : SerDe) : Z :=
  match s with
  | Ser => sizeof (NInt TInt8)
  | De => sizeof (NInt TInt16)
  end.

Inductive Err : Type :=
| errUnexpectedEnd
| errOther (code : nat).

(** A Go [error] value; [None] is [nil]. *)
Definition error : Type := option Err.

Record Ctx : Type := Ctx_ { mode : SerDe; bytes : slice byte; err : error }.

Definition with_bytes (ctx : Ctx) (b : slice byte) : Ctx :=
  Ctx_ (mode ctx) b (err ctx).

Definition with_err (ctx : Ctx) (e : error) : Ctx :=
  Ctx_ (mode ctx) (bytes ctx) e.

Definition NewSerializer : Ctx := Ctx_ Ser nil_slice None.

Definition NewSerializerWithCapacity (c : Z) : outcome Ctx :=
  let* b := make x00 0 c in Ret (Ctx_ Ser b None).

Definition NewSerializerWithBacking (b : slice byte) : outcome Ctx :=
  let* b2 := reslice b 0 0 in Ret (Ctx_ Ser b2 None).

Definition NewDeserializer (b : slice byte) : Ctx := Ctx_ De b None.

(** The method [Bytes()]; the name [Bytes] is kept for the codec. *)
Definition CtxBytes (ctx : Ctx) : slice byte := bytes ctx.

Definition sizeEq_marker (s u : SerDe) : bool :=
  marker_sizeof s =? marker_sizeof u.

Definition IsSerializer (ctx : Ctx) : bool := sizeEq_marker (mode ctx) Ser.
Definition IsDeserializer (ctx : Ctx) : bool := sizeEq_marker (mode ctx) De.

Definition Error (ctx : Ctx) : error := err ctx.

Definition Abort (c : Ctx) (e : error) : outcome (Ctx * error) :=
  match e with
  | None => Panic PanicAbortNil
  | Some _ =>
      let c' := match err c with
                | None => with_err c e
                | Some _ => c
                end in
      Ret (c', err c')
  end.

(** The window handed out by [Raw]: its contents when it was acquired and
    the index of its first byte in the context's buffer.  A nil window is
    [None].  In a serializer the window aliases the tail of the buffer:
    [poke] and [copy_window] write the buffer through it.  In a
    deserializer the window is only read. *)
Record window : Type := Window { w_off : nat; w_data : list byte }.

Definition wdata (bs : option window) : list byte :=
  match bs with
  | Some w => w_data w
  | None => []
  end.

(** [bytes[i] = x] *)
Definition poke (ctx : Ctx) (bs : option window) (i : nat) (x : byte) : outcome Ctx :=
  match bs with
  | Some w =>
      if (i <? length (w_data w))%nat
      then Ret (with_bytes ctx
                  (Slice_ (<[(w_off w + i)%nat := x]> (vis (bytes ctx)))
                          (spare (bytes ctx))))
      else Panic PanicIndex
  | None => Panic PanicIndex
  end.

(** [copy(bytes, src)] *)
Definition copy_window (ctx : Ctx) (bs : option window) (src : list byte) : Ctx :=
  match bs with
  | Some w =>
      let k := Nat.min (length (w_data w)) (length src) in
      let v := vis (bytes ctx) in
      with_bytes ctx
        (Slice_ (take (w_off w) v ++ take k src ++ drop (w_off w + k) v)
                (spare (bytes ctx)))
  | None => ctx
  end.

Definition Raw (ctx : Ctx) (n : Z) : outcome (Ctx * option window * error) :=
  match err ctx with
  | Some e => Ret (ctx, None, Some e)
  | None =>
      if IsSerializer ctx then
        let l := len (bytes ctx) in
        let* buf := (if cap (bytes ctx) <? int_add n l
                     then let* newCtxBytes := make x00 l (int_add n l) in
                          Ret (copy newCtxBytes (vis (bytes ctx)))
                     else Ret (bytes ctx)) in
        let* w := reslice buf l (int_add n l) in
        let* b := reslice buf 0 (int_add n l) in
        Ret (with_bytes ctx b, Some (Window (Z.to_nat l) (vis w)), None)
      else
        if len (bytes ctx) <? n then
          let* (c, e) := Abort ctx (Some errUnexpectedEnd) in
          Ret (c, None, e)
        else
          let* w := reslice (bytes ctx) 0 n in
          let* b := reslice_from (bytes ctx) n in
          Ret (with_bytes ctx b, Some (Window 0 (vis w)), None)
  end.

(** ** Integers *)

(** [for i := range len(bytes) { bytes[i] = byte(writeValue >> (i << 3)) }] *)
Fixpoint integer_write (ctx : Ctx) (bs : option window) (writeValue : Z)
    (i : nat) (todo : nat) : outcome Ctx :=
  match todo with
  | O => Ret ctx
  | S todo' =>
      let* ctx' :=
        poke ctx bs i (byte_of_Z (Z.shiftr writeValue (int_shl (Z.of_nat i) 3))) in
      integer_write ctx' bs writeValue (S i) todo'
  end.

(** [for i, b := range bytes { readValue |= T(b) << (i << 3) }] *)
Fixpoint integer_read (T : intty) (bs : list byte) (i : nat) (readValue : Z) : Z :=
  match bs with
  | [] => readValue
  | b :: bs' =>
      let shifted :=
        int_wrap T (Z.shiftl (int_wrap T (Z_of_byte b)) (int_shl (Z.of_nat i) 3)) in
      integer_read T bs' (S i) (Z.lor readValue shifted)
  end.

Definition integer (T : intty) (ctx : Ctx) (value : Z) : outcome (Ctx * Z * error) :=
  let* (ctx1, bs, e) := Raw ctx (int_sizeof T) in
  match e with
  | Some _ => Ret (ctx1, value, e)
  | None =>
      if IsSerializer ctx1 then
        let* ctx2 := integer_write ctx1 bs value 0 (length (wdata bs)) in
        Ret (ctx2, value, None)
      else
        Ret (ctx1, integer_read T (wdata bs) 0 0, None)
  end.

(** ** Numbers *)

Definition sizeEq (T U : numty) : bool := sizeof T =? sizeof U.

Definition alignCompat (T U : numty) : bool :=
  (alignof U <=? alignof T) && (alignof T mod alignof U =? 0).

Definition canTransmute (T U : numty) : bool := sizeEq T U && alignCompat T U.

(** [unsafeTransmutePtr[T, U]]: the same memory read at another type.
    [to_bits] is the bit pattern that a value of [T] has in memory and
    [of_bits] is the value of [T] that a bit pattern stands for. *)
Definition to_bits (T : numty) (v : Z) : Z := v mod 2 ^ (8 * sizeof T).
Definition of_bits (T : numty) (z : Z) : Z := num_wrap T z.

Definition unsafeTransmutePtr (T U : numty) (v : Z) : outcome Z :=
  if canTransmute T U then Ret (of_bits U (to_bits T v))
  else Panic PanicIncompatible.

(** [integer(ctx, unsafeTransmutePtr[T, U](value))]: the callee works on
    the memory of [value] through a pointer of type [*U]. *)
Definition integer_as (T : numty) (U : intty) (ctx : Ctx) (value : Z)
    : outcome (Ctx * Z * error) :=
  let* u := unsafeTransmutePtr T (NInt U) value in
  let* (ctx', u', e) := integer U ctx u in
  Ret (ctx', of_bits T (to_bits (NInt U) u'), e).

Definition Number (T : numty) (ctx : Ctx) (value : Z) : outcome (Ctx * Z * error) :=
  if canTransmute T (NInt TUint8) then integer_as T TUint8 ctx value
  else if canTransmute T (NInt TUint16) then integer_as T TUint16 ctx value
  else if canTransmute T (NInt TUint32) then integer_as T TUint32 ctx value
  else if canTransmute T (NInt TUint64) then integer_as T TUint64 ctx value
  else if canTransmute T (NInt TUint) then integer_as T TUint ctx value
  else if canTransmute T (NInt TUintptr) then integer_as T TUintptr ctx value
  else Panic PanicIncompatible.

(** ** Codec functions

    [func(ctx *Ctx[S], value *T) error] *)
Definition codec (T : Type) : Type := Ctx -> T -> outcome (Ctx * T * error).

(** ** Strings: a Go string is its bytes *)

Definition String (ctx : Ctx) (str : list byte) : outcome (Ctx * list byte * error) :=
  let length0 := Z.of_nat (length str) in
  let* (ctx1, length1, e) := integer TInt ctx length0 in
  match e with
  | Some _ => Ret (ctx1, str, e)
  | None =>
      let* (ctx2, bs, e) := Raw ctx1 length1 in
      match e with
      | Some _ => Ret (ctx2, str, e)
      | None =>
          if IsSerializer ctx2
          then Ret (copy_window ctx2 bs str, str, None)
          else Ret (ctx2, wdata bs, None)
      end
  end.

(** ** Byte slices *)

(** [cap( *bytes) < len(ctxBytes)] *)
Definition Bytes_allocates (dst : slice byte) (n : Z) : bool := cap dst <? n.

Definition Bytes (ctx : Ctx) (dst : slice byte) : outcome (Ctx * slice byte * error) :=
  let length0 := len dst in
  let* (ctx1, length1, e) := integer TInt ctx length0 in
  match e with
  | Some _ => Ret (ctx1, dst, e)
  | None =>
      let* (ctx2, ctxBytes, e) := Raw ctx1 length1 in
      match e with
      | Some _ => Ret (ctx2, dst, e)
      | None =>
          if IsSerializer ctx2
          then Ret (copy_window ctx2 ctxBytes (vis dst), dst, None)
          else
            let n := Z.of_nat (length (wdata ctxBytes)) in
            let* dst1 := (if Bytes_allocates dst n then make x00 n n else Ret dst) in
            let* head := reslice dst1 0 n in
            Ret (ctx2, through dst1 (copy head (wdata ctxBytes)), None)
      end
  end.

(** ** Slices *)

Section SliceCodec.
Context {T : Type}.
Variable zero : T.
Variable f : codec T.

(** [len( *slice) < length] *)
Definition Slice_allocates (s : slice T) (n : Z) : bool := len s <? n.

(** [for i := range length { err := f(ctx, &( *slice)[i]); ... }],
    with [todo] iterations left. *)
Fixpoint Slice_loop (todo : nat) (i : nat) (ctx : Ctx) (s : slice T)
    : outcome (Ctx * slice T * error) :=
  match todo with
  | O => Ret (ctx, s, None)
  | S todo' =>
      match vis s !! i with
      | None => Panic PanicIndex
      | Some x =>
          let* (ctx', x', e) := f ctx x in
          let s' := Slice_ (<[i := x']> (vis s)) (spare s) in
          match e with
          | Some _ => Ret (ctx', s', e)
          | None => Slice_loop todo' (S i) ctx' s'
          end
      end
  end.

Definition Slice (ctx : Ctx) (s : slice T) : outcome (Ctx * slice T * error) :=
  let length0 := len s in
  let* (ctx1, length1, e) := integer TInt ctx length0 in
  match e with
  | Some _ => Ret (ctx1, s, e)
  | None =>
      let* s1 := (if Slice_allocates s length1
                  then let* newSlice := make zero length1 length1 in
                       Ret (copy newSlice (vis s))
                  else Ret s) in
      Slice_loop (Z.to_nat length1) 0 ctx1 s1
  end.

End SliceCodec.

(** ** Maps

    A Go map is nil ([None]) or a finite map.  The order in which
    [range] visits the entries is not fixed by the language: it is the
    parameter [order]. *)

Section MapCodec.
Context {K : Type} `{Countable K} {V : Type}.
Variable order : gmap K V -> list (K * V).
Variable zeroK : K.
Variable zeroV : V.
Variable fK : codec K.
Variable fV : codec V.

Definition map_len (m : option (gmap K V)) : Z :=
  match m with
  | Some g => Z.of_nat (size g)
  | None => 0
  end.

Definition map_range (m : option (gmap K V)) : list (K * V) :=
  match m with
  | Some g => order g
  | None => []
  end.

(** [for k, v := range *m { fK(ctx, &k); fV(ctx, &v) }] *)
Fixpoint Map_write (entries : list (K * V)) (ctx : Ctx) : outcome (Ctx * error) :=
  match entries with
  | [] => Ret (ctx, None)
  | (k, v) :: rest =>
      let* (ctx1, _, e) := fK ctx k in
      match e with
      | Some _ => Ret (ctx1, e)
      | None =>
          let* (ctx2, _, e) := fV ctx1 v in
          match e with
          | Some _ => Ret (ctx2, e)
          | None => Map_write rest ctx2
          end
      end
  end.

(** [for range length { var k K; var v V; ...; ( *m)[k] = v }] *)
Fixpoint Map_read (todo : nat) (ctx : Ctx) (g : gmap K V)
    : outcome (Ctx * gmap K V * error) :=
  match todo with
  | O => Ret (ctx, g, None)
  | S todo' =>
      let* (ctx1, k, e) := fK ctx zeroK in
      match e with
      | Some _ => Ret (ctx1, g, e)
      | None =>
          let* (ctx2, v, e) := fV ctx1 zeroV in
          match e with
          | Some _ => Ret (ctx2, g, e)
          | None => Map_read todo' ctx2 (<[k := v]> g)
          end
      end
  end.

Definition Map (ctx : Ctx) (m : option (gmap K V))
    : outcome (Ctx * option (gmap K V) * error) :=
  let length0 := map_len m in
  let* (ctx1, length1, e) := integer TInt ctx length0 in
  match e with
  | Some _ => Ret (ctx1, m, e)
  | None =>
      if IsSerializer ctx1 then
        let* (ctx2, e) := Map_write (map_range m) ctx1 in
        Ret (ctx2, m, e)
      else
        let g := match m with
                 | Some g => g
                 | None => ∅
                 end in
        let* (ctx2, g', e) := Map_read (Z.to_nat length1) ctx1 g in
        Ret (ctx2, Some g', e)
  end.

End MapCodec.

(** ** External binary values *)

Class BinaryMarshalerUnmarshaler (T : Type) : Type := {
  MarshalBinary : T -> list byte * error;
  UnmarshalBinary : T -> list byte -> T * error
}.

Definition Binary {T : Type} `{BinaryMarshalerUnmarshaler T}
    (ctx : Ctx) (value : T) : outcome (Ctx * T * error) :=
  if IsSerializer ctx then
    let (data, e) := MarshalBinary value in
    match e with
    | Some _ =>
        let* (c, e') := Abort ctx e in
        Ret (c, value, e')
    | None =>
        let* (ctx1, length1, _) := integer TInt ctx (Z.of_nat (length data)) in
        let* (ctx2, bs, e) := Raw ctx1 length1 in
        match e with
        | Some _ => Ret (ctx2, value, e)
        | None => Ret (copy_window ctx2 bs data, value, None)
        end
    end
  else
    let* (ctx1, length1, _) := integer TInt ctx 0 in
    let* (ctx2, bs, e) := Raw ctx1 length1 in
    match e with
    | Some _ => Ret (ctx2, value, e)
    | None =>
        let (value', e) := UnmarshalBinary value (wdata bs) in
        Ret (ctx2, value', e)
    end.

(** ** A two-field record codec, written as src/example/main.go writes
    [SerdewPerson]: the fields in order, the errors of the single calls
    dropped, and [ctx.Error()] returned at the end. *)
Definition Fields2 {A B : Type} (fa : codec A) (fb : codec B) : codec (A * B) :=
  fun ctx p =>
    let* (ctx1, a, _) := fa ctx (fst p) in
    let* (ctx2, b, _) := fb ctx1 (snd p) in
    Ret (ctx2, (a, b), Error ctx2).

(** ** The wire format in the spec's words

    "All multi-byte integers: little-endian": byte [i] of the encoding
    of [v] on [n] bytes is [(v >> (8*i)) & 0xFF]. *)
Definition le_bytes (n : nat) (v : Z) : list byte :=
  map (fun i => byte_of_Z (Z.shiftr v (8 * Z.of_nat i))) (seq 0 n).

(** The unsigned number that a little-endian byte string stands for. *)
Fixpoint le_value (bs : list byte) : Z :=
  match bs with
  | [] => 0
  | b :: bs' => Z_of_byte b + 256 * le_value bs'
  end.

(** The serializer after [data] was appended, and the deserializer after
    its buffer was replaced by the unread rest. *)
Definition appended (ctx : Ctx) (data : list byte) : Ctx :=
  with_bytes ctx
    (Slice_ (vis (bytes ctx) ++ data) (drop (length data) (spare (bytes ctx)))).

Definition unread (ctx : Ctx) (rest : list byte) : Ctx :=
  with_bytes ctx (Slice_ rest (spare (bytes ctx))).

(** [Raw(n)] grants the first [n] unread bytes and advances past them. *)
Definition Raw_grants (ctx : Ctx) (n : Z) : Prop :=
  Raw ctx n =
    Ret (unread ctx (drop (Z.to_nat n) (vis (bytes ctx))),
         Some (Window 0 (take (Z.to_nat n) (vis (bytes ctx)))), None).

(** ** Calls against a context

    One call of the package on a context, with its arguments; [run] keeps
    the context that the call leaves behind. *)
Inductive call : Type :=
| CallRaw (n : Z)
| CallAbort (e : error)
| CallNumber (T : numty) (v : Z)
| CallString (s : list byte)
| CallBytes (b : slice byte)
| CallSlice {T : Type} (zero : T) (f : codec T) (s : slice T)
| CallMap {K : Type} `{Countable K} {V : Type} (order : gmap K V -> list (K * V))
    (zeroK : K) (zeroV : V) (fK : codec K) (fV : codec V) (m : option (gmap K V))
| CallBinary {T : Type} `{BinaryMarshalerUnmarshaler T} (v : T).

Definition run (c : call) (ctx : Ctx) : outcome Ctx :=
  match c with
  | CallRaw n => let* (ctx', _, _) := Raw ctx n in Ret ctx'
  | CallAbort e => let* (ctx', _) := Abort ctx e in Ret ctx'
  | CallNumber T v => let* (ctx', _, _) := Number T ctx v in Ret ctx'
  | CallString s => let* (ctx', _, _) := String ctx s in Ret ctx'
  | CallBytes b => let* (ctx', _, _) := Bytes ctx b in Ret ctx'
  | CallSlice zero f s => let* (ctx', _, _) := Slice zero f ctx s in Ret ctx'
  | CallMap order zeroK zeroV fK fV m =>
      let* (ctx', _, _) := Map order zeroK zeroV fK fV ctx m in Ret ctx'
  | CallBinary v => let* (ctx', _, _) := Binary ctx v in Ret ctx'
  end.

Fixpoint run_all (cs : list call) (ctx : Ctx) : outcome Ctx :=
  match cs with
  | [] => Ret ctx
  | c :: cs' => let* ctx' := run c ctx in run_all cs' ctx'
  end.

(** An external value whose [UnmarshalBinary] always fails and whose
    [MarshalBinary] always succeeds with an empty payload. *)
Definition rejecting : BinaryMarshalerUnmarshaler unit :=
  {| MarshalBinary := fun _ => ([], None);
     UnmarshalBinary := fun v _ => (v, Some (errOther 1)) |}.

(** An external value whose [MarshalBinary] always fails. *)
Definition unmarshalable : BinaryMarshalerUnmarshaler unit :=
  {| MarshalBinary := fun _ => ([], Some (errOther 2));
     UnmarshalBinary := fun v _ => (v, None) |}.

(** A counter that marshals to one byte and unmarshals by adding up the
    bytes it is handed to what it holds. *)
Definition tally : BinaryMarshalerUnmarshaler Z :=
  {| MarshalBinary := fun v => ([byte_of_Z v], None);
     UnmarshalBinary := fun v bs => (v + le_value bs, None) |}.

(** ** The element loop in the spec's words

    "Invokes the element codec for each of the positions in order.  If the
    element codec poisons partway through, remaining positions are left at
    their prior value and iteration stops." *)
Fixpoint each_in_order {T : Type} (f : codec T) (xs : list T) (ctx : Ctx)
    : outcome (Ctx * list T * error) :=
  match xs with
  | [] => Ret (ctx, [], None)
  | x :: xs' =>
      let* (ctx1, x', e) := f ctx x in
      match e with
      | Some _ => Ret (ctx1, x' :: xs', e)
      | None =>
          let* (ctx2, ys, e') := each_in_order f xs' ctx1 in
          Ret (ctx2, x' :: ys, e')
      end
  end.

(** ** Round trips

    [Wire f zero E v wire]: on a serializer with room, [f] appends [wire]
    and leaves [v] as it is; on a deserializer whose unread bytes start
    with [wire], [f] called on the zero value [zero] (a destination
    declared with [var]) consumes exactly [wire] and leaves a value that
    [E] relates to [v]. *)
Definition Wire {T : Type} (f : codec T) (zero : T) (E : T -> T -> Prop)
    (v : T) (wire : list byte) : Prop :=
  (forall ser, mode ser = Ser -> Error ser = None ->
     len (bytes ser) + Z.of_nat (length wire) < 2 ^ 63 ->
     f ser v = Ret (appended ser wire, v, None)) /\
  (forall de rest, mode de = De -> Error de = None ->
     vis (bytes de) = wire ++ rest ->
     exists v', f de zero = Ret (unread de rest, v', None) /\ E v' v).

Definition RoundTrips {T : Type} (f : codec T) (zero : T) (P : T -> Prop)
    (E : T -> T -> Prop) : Prop :=
  forall v, P v -> exists wire, Wire f zero E v wire.

(** Slices are compared position by position on their visible elements. *)
Definition same_elements {T : Type} (E : T -> T -> Prop) (a b : slice T) : Prop :=
  Forall2 E (vis a) (vis b).

(** Maps are compared as sets of entries; a nil map has none. *)
Definition entries {K : Type} `{Countable K} {V : Type} (m : option (gmap K V))
    : gmap K V :=
  match m with
  | Some g => g
  | None => ∅
  end.

Definition same_entries {K : Type} `{Countable K} {V : Type} (E : V -> V -> Prop)
    (a b : option (gmap K V)) : Prop :=
  forall k, option_Forall2 E (entries a !! k) (entries b !! k).

(** Values that Go can hold: lengths fit an [int]. *)
Definition string_ok (s : list byte) : Prop := Z.of_nat (length s) < 2 ^ 63.

Definition slice_ok {T : Type} (P : T -> Prop) (s : slice T) : Prop :=
  len s < 2 ^ 63 /\ Forall P (vis s).

Definition map_ok {K : Type} `{Countable K} {V : Type} (PK : K -> Prop)
    (PV : V -> Prop) (m : option (gmap K V)) : Prop :=
  Z.of_nat (size (entries m)) < 2 ^ 63 /\
  map_Forall (fun k v => PK k /\ PV v) (entries m).

(** Map keys: the integer types and strings.  (Floating-point keys are
    left out: Go compares them as numbers, not as bit patterns.) *)
Inductive SupportedKey : forall K : Type, codec K -> K -> (K -> Prop) -> Prop :=
| KeyNumber (t : intty) :
    SupportedKey Z (Number (NInt t)) 0 (in_range (NInt t))
| KeyString :
    SupportedKey (list byte) String [] string_ok.

(** Values built from numbers, strings, byte slices, slices, maps, and
    records of such fields; each comes with its codec, the zero value of
    its type, the values Go can hold and the comparison of two values. *)
Inductive Supported :
  forall T : Type, codec T -> T -> (T -> Prop) -> (T -> T -> Prop) -> Prop :=
| SupNumber (t : numty) :
    Supported Z (Number t) 0 (in_range t) eq
| SupString :
    Supported (list byte) String [] string_ok eq
| SupBytes :
    Supported (slice byte) Bytes nil_slice (slice_ok (fun _ => True))
      (same_elements eq)
| SupSlice (T : Type) (f : codec T) (zero : T) (P : T -> Prop) (E : T -> T -> Prop) :
    Supported T f zero P E ->
    Supported (slice T) (Slice zero f) nil_slice (slice_ok P) (same_elements E)
| SupMap (K : Type) (EqK : EqDecision K) (CK : Countable K) (V : Type)
    (order : gmap K V -> list (K * V))
    (fK : codec K) (zeroK : K) (PK : K -> Prop)
    (fV : codec V) (zeroV : V) (PV : V -> Prop) (EV : V -> V -> Prop) :
    (forall g, order g ≡ₚ map_to_list g) ->
    SupportedKey K fK zeroK PK ->
    Supported V fV zeroV PV EV ->
    Supported (option (gmap K V)) (Map order zeroK zeroV fK fV) None
      (map_ok PK PV) (same_entries EV)
| SupFields2 (A B : Type) (fa : codec A) (za : A) (Pa : A -> Prop)
    (Ea : A -> A -> Prop) (fb : codec B) (zb : B) (Pb : B -> Prop)
    (Eb : B -> B -> Prop) :
    Supported A fa za Pa Ea ->
    Supported B fb zb Pb Eb ->
    Supported (A * B) (Fields2 fa fb) (za, zb)
      (fun p => Pa (fst p) /\ Pb (snd p))
      (fun p q => Ea (fst p) (fst q) /\ Eb (snd p) (snd q)).

(** The map that [Map] builds: the decoded entries inserted in order. *)
Fixpoint insert_all {K : Type} `{Countable K} {V : Type} (l : list (K * V))
    (g : gmap K V) : gmap K V :=
  match l with
  | [] => g
  | (k, v) :: l' => insert_all l' (<[k := v]> g)
  end.

(** The wire of one map entry: the key's encoding, then the value's. *)
Definition entry_wire {K V : Type} (fK : codec K) (zeroK : K) (fV : codec V)
    (zeroV : V) (EV : V -> V -> Prop) (kv : K * V) (w : list byte) : Prop :=
  exists wk wv, w = wk ++ wv /\
    Wire fK zeroK eq (fst kv) wk /\ Wire fV zeroV EV (snd kv) wv.

Definition entry_related {K V : Type} (EV : V -> V -> Prop) (a b : K * V) : Prop :=
  fst a = fst b /\ EV (snd a) (snd b).

(** A record codec of five fields, its calls composed as [SerdewPerson]
    of src/example/main.go composes them: a string, an [int], a
    [float64], a slice of strings and a map from strings to [int]s.  It
    is not [SerdewPerson] itself, which has two more fields: the recursive
    [Friends] and the [Binary] field [LastOnline]. *)
Definition Fields5 (order : gmap (list byte) Z -> list (list byte * Z))
    : codec (list byte * (Z * (Z * (slice (list byte) * option (gmap (list byte) Z))))) :=
  Fields2 String
    (Fields2 (Number (NInt TInt))
       (Fields2 (Number TFloat64)
          (Fields2 (Slice [] String)
             (Map order [] 0 String (Number (NInt TInt)))))).

(** ** What a call may do to a context

    [advances c c']: the mode is the same; a poisoned context is left as it
    is; a serializer still starts with the bytes it held; a deserializer
    holds a suffix of the bytes it held. *)
Definition advances (c c' : Ctx) : Prop :=
  mode c' = mode c /\
  (forall e, err c = Some e -> c' = c) /\
  match mode c with
  | Ser => exists w, vis (bytes c') = vis (bytes c) ++ w
  | De => exists w, vis (bytes c) = w ++ vis (bytes c')
  end.

Definition codec_advances {T : Type} (f : codec T) : Prop :=
  forall c v c' v' e, f c v = Ret (c', v', e) -> advances c c'.

(** [codec_reports m f]: on a context of mode [m], the error that [f]
    returns is the error that the context stores afterwards. *)
Definition codec_reports (m : SerDe) {T : Type} (f : codec T) : Prop :=
  forall c v c' v' e, mode c = m -> f c v = Ret (c', v', e) -> Error c' = e.

(** ** Codecs built from the package

    [Library b f]: [f] is [Number], [String] or [Bytes], or it is [Slice],
    [Map] or a record codec over such codecs.  [Binary] is among them when
    [b] is [true]. *)
Inductive Library (b : bool) : forall T : Type, codec T -> Prop :=
| LibNumber (t : numty) : Library b Z (Number t)
| LibString : Library b (list byte) String
| LibBytes : Library b (slice byte) Bytes
| LibSlice (T : Type) (zero : T) (f : codec T) :
    Library b T f -> Library b (slice T) (Slice zero f)
| LibMap (K : Type) (EqK : EqDecision K) (CK : Countable K) (V : Type)
    (order : gmap K V -> list (K * V)) (zeroK : K) (zeroV : V)
    (fK : codec K) (fV : codec V) :
    Library b K fK -> Library b V fV ->
    Library b (option (gmap K V)) (Map order zeroK zeroV fK fV)
| LibFields2 (A B : Type) (fa : codec A) (fb : codec B) :
    Library b A fa -> Library b B fb -> Library b (A * B) (Fields2 fa fb)
| LibBinary (T : Type) (I : BinaryMarshalerUnmarshaler T) :
    b = true -> Library b T (@Binary T I).

(** Lengths of lists built with [++], [take], [drop] and the like. *)
Ltac list_len :=
  repeat first
    [ rewrite length_app | rewrite length_replicate | rewrite length_take
    | rewrite length_drop | rewrite length_insert | rewrite length_map
    | rewrite length_seq ];
  lia.

(** * Properties *)

(** ** Bytes and wrap-around *)

Lemma Z_of_byte_range (b : byte) : 0 <= Z_of_byte b < 256.
Proof.
  unfold Z_of_byte. pose proof (Byte.to_N_bounded b). lia.
Qed.

Lemma Z_of_byte_of_Z (z : Z) : Z_of_byte (byte_of_Z z) = z mod 256.
Proof.
  unfold Z_of_byte, byte_of_Z.
  assert (Hr : 0 <= z mod 256 < 256) by (apply Z.mod_pos_bound; lia).
  destruct (Byte.of_N (Z.to_N (z mod 256))) as [b|] eqn:E; simpl.
  - apply Byte.to_of_N in E. rewrite E. lia.
  - apply Byte.of_N_None_iff in E. lia.
Qed.

Lemma byte_of_Z_of_byte (b : byte) : byte_of_Z (Z_of_byte b) = b.
Proof.
  unfold byte_of_Z, Z_of_byte.
  pose proof (Byte.to_N_bounded b).
  rewrite Z.mod_small by lia.
  rewrite N2Z.id, Byte.of_to_N. reflexivity.
Qed.

Lemma byte_of_Z_congr (z z' : Z) :
  z mod 256 = z' mod 256 -> byte_of_Z z = byte_of_Z z'.
Proof. unfold byte_of_Z. intros ->. reflexivity. Qed.

Lemma int_wrap_small (T : intty) (z : Z) : int_in_range T z -> int_wrap T z = z.
Proof.
  unfold int_in_range, int_wrap.
  destruct T; cbn -[Z.pow]; intros Hz.
  all: try (rewrite Z.mod_small by lia; lia).
Qed.

Lemma int_add_small (a b : Z) : 0 <= a + b < 2 ^ 63 -> int_add a b = a + b.
Proof.
  intros Hab. unfold int_add. apply int_wrap_small.
  unfold int_in_range; cbn -[Z.pow]. lia.
Qed.

Lemma int_shl_3 (i : Z) : 0 <= i < 2 ^ 60 -> int_shl i 3 = 8 * i.
Proof.
  intros Hi. unfold int_shl.
  rewrite Z.shiftl_mul_pow2 by lia.
  rewrite int_wrap_small; [lia|].
  unfold int_in_range; cbn -[Z.pow]. lia.
Qed.

(** ** Little-endian byte strings *)

Lemma length_le_bytes (n : nat) (v : Z) : length (le_bytes n v) = n.
Proof. unfold le_bytes. rewrite length_map, length_seq. reflexivity. Qed.

Lemma le_bytes_S (n : nat) (v : Z) :
  le_bytes (S n) v = byte_of_Z v :: le_bytes n (Z.shiftr v 8).
Proof.
  unfold le_bytes. cbn [seq map]. f_equal.
  rewrite <- seq_shift, map_map. apply map_ext. intros i.
  f_equal. rewrite Z.shiftr_shiftr by lia. f_equal. lia.
Qed.

Lemma le_value_range (bs : list byte) : 0 <= le_value bs < 2 ^ (8 * Z.of_nat (length bs)).
Proof.
  induction bs as [|b bs IH]; cbn [le_value length].
  - cbn. lia.
  - pose proof (Z_of_byte_range b).
    replace (8 * Z.of_nat (S (length bs))) with (8 + 8 * Z.of_nat (length bs)) by lia.
    rewrite Z.pow_add_r by lia. change (2 ^ 8) with 256. nia.
Qed.

Lemma le_value_le_bytes (n : nat) (v : Z) :
  le_value (le_bytes n v) = v mod 2 ^ (8 * Z.of_nat n).
Proof.
  revert v. induction n as [|n IH]; intros v.
  - cbn. rewrite Z.mod_1_r. reflexivity.
  - rewrite le_bytes_S. cbn [le_value].
    rewrite Z_of_byte_of_Z, IH, Z.shiftr_div_pow2 by lia.
    replace (8 * Z.of_nat (S n)) with (8 + 8 * Z.of_nat n) by lia.
    rewrite Z.pow_add_r by lia. change (2 ^ 8) with 256.
    rewrite Z.rem_mul_r by lia. reflexivity.
Qed.

Lemma le_bytes_le_value (bs : list byte) : le_bytes (length bs) (le_value bs) = bs.
Proof.
  induction bs as [|b bs IH]; [reflexivity|].
  cbn [length]. rewrite le_bytes_S. cbn [le_value].
  pose proof (Z_of_byte_range b).
  f_equal.
  - rewrite <- (byte_of_Z_of_byte b) at 2. apply byte_of_Z_congr.
    rewrite (Z.mul_comm 256), Z.mod_add by lia. reflexivity.
  - rewrite Z.shiftr_div_pow2 by lia. change (2 ^ 8) with 256.
    rewrite Z.add_comm, Z.mul_comm, Z.div_add_l by lia.
    rewrite (Z.div_small (Z_of_byte b)) by lia. rewrite Z.add_0_r. exact IH.
Qed.

Lemma byte_lor_shift (b r : Z) :
  0 <= b < 256 -> Z.lor b (Z.shiftl r 8) = b + 256 * r.
Proof.
  intros Hb. rewrite <- Z.add_nocarry_lor.
  - rewrite Z.shiftl_mul_pow2 by lia. change (2 ^ 8) with 256. lia.
  - apply Z.bits_inj'. intros k Hk. rewrite Z.land_spec, Z.bits_0.
    destruct (Z.ltb_spec k 8).
    + rewrite Z.shiftl_spec_low by lia. apply andb_false_r.
    + replace b with (b mod 2 ^ 8) by (apply Z.mod_small; change (2 ^ 8) with 256; lia).
      rewrite Z.mod_pow2_bits_high by lia. reflexivity.
Qed.

(** [int_wrap] keeps the low bits; at a signed type it then extends the
    sign bit. *)
Lemma signed_wrap_testbit (w z k : Z) :
  0 < w -> 0 <= k ->
  Z.testbit ((z + 2 ^ (w - 1)) mod 2 ^ w - 2 ^ (w - 1)) k =
    Z.testbit z (Z.min k (w - 1)).
Proof.
  intros Hw Hk.
  assert (H2 : 2 ^ w = 2 * 2 ^ (w - 1)).
  { rewrite <- Z.pow_succ_r by lia. f_equal. lia. }
  assert (Hh : 0 < 2 ^ (w - 1)) by (apply Z.pow_pos_nonneg; lia).
  assert (Hlow : forall j, 0 <= j < w -> Z.testbit (z mod 2 ^ w) j = Z.testbit z j).
  { intros j Hj. apply Z.mod_pow2_bits_low. lia. }
  assert (Hhigh : forall j, w <= j -> Z.testbit (z mod 2 ^ w) j = false).
  { intros j Hj. apply Z.mod_pow2_bits_high. lia. }
  assert (Hu : 0 <= z mod 2 ^ w < 2 ^ w) by (apply Z.mod_pos_bound; lia).
  rewrite <- (Zplus_mod_idemp_l z).
  remember (z mod 2 ^ w) as u eqn:Eu.
  remember (2 ^ (w - 1)) as h eqn:Eh.
  assert (Htop : Z.testbit u (w - 1) = (h <=? u)).
  { rewrite Z.testbit_eqb by lia. rewrite <- Eh.
    destruct (Z.leb_spec h u).
    - replace (u / h) with 1; [reflexivity|].
      apply Z.div_unique with (r := u - h); lia.
    - rewrite Z.div_small by lia. reflexivity. }
  destruct (Z.leb_spec h u) as [Hge|Hlt].
  - replace ((u + h) mod 2 ^ w - h) with (u + Z.shiftl (-1) w).
    2:{ rewrite Z.shiftl_mul_pow2 by lia. rewrite H2.
        symmetry. replace (u + h) with ((u - h) + 1 * (2 * h)) by lia.
        rewrite Z.mod_add by lia. rewrite Z.mod_small by lia. lia. }
    rewrite Z.add_nocarry_lor.
    2:{ apply Z.bits_inj'. intros j Hj. rewrite Z.land_spec, Z.bits_0.
        destruct (Z.ltb_spec j w).
        - rewrite Z.shiftl_spec_low by lia. apply andb_false_r.
        - rewrite Hhigh by lia. reflexivity. }
    rewrite Z.lor_spec.
    destruct (Z.ltb_spec k w).
    + rewrite Z.shiftl_spec_low by lia. rewrite orb_false_r, Hlow by lia.
      f_equal. lia.
    + rewrite Z.shiftl_spec, Z.bits_m1 by lia. rewrite orb_true_r.
      replace (Z.min k (w - 1)) with (w - 1) by lia.
      rewrite <- Hlow by lia. rewrite Htop. reflexivity.
  - rewrite (Z.mod_small (u + h)) by lia.
    replace (u + h - h) with u by lia.
    destruct (Z.ltb_spec k w).
    + rewrite Hlow by lia. f_equal. lia.
    + rewrite Hhigh by lia.
      replace (Z.min k (w - 1)) with (w - 1) by lia.
      rewrite <- Hlow by lia. rewrite Htop. reflexivity.
Qed.

Lemma int_sizeof_range (T : intty) : 1 <= int_sizeof T <= 8.
Proof. destruct T; cbn; lia. Qed.

Lemma int_wrap_testbit (T : intty) (z k : Z) :
  0 <= k ->
  Z.testbit (int_wrap T z) k =
    if int_signed T
    then Z.testbit z (Z.min k (8 * int_sizeof T - 1))
    else (k <? 8 * int_sizeof T) && Z.testbit z k.
Proof.
  intros Hk. pose proof (int_sizeof_range T). unfold int_wrap.
  destruct (int_signed T).
  - apply signed_wrap_testbit; lia.
  - apply Z.testbit_mod_pow2. lia.
Qed.

Lemma int_wrap_lor (T : intty) (a b : Z) :
  int_wrap T (Z.lor a b) = Z.lor (int_wrap T a) (int_wrap T b).
Proof.
  apply Z.bits_inj'. intros k Hk.
  rewrite Z.lor_spec, !int_wrap_testbit by exact Hk.
  destruct (int_signed T); rewrite Z.lor_spec; [reflexivity|].
  apply andb_orb_distrib_r.
Qed.

Lemma int_wrap_shiftl (T : intty) (x s : Z) :
  0 <= s -> int_wrap T (Z.shiftl (int_wrap T x) s) = int_wrap T (Z.shiftl x s).
Proof.
  intros Hs. pose proof (int_sizeof_range T).
  apply Z.bits_inj'. intros k Hk.
  rewrite !int_wrap_testbit by exact Hk.
  destruct (int_signed T) eqn:Hsig.
  - rewrite !Z.shiftl_spec by lia.
    destruct (Z.ltb_spec (Z.min k (8 * int_sizeof T - 1) - s) 0).
    + rewrite !Z.testbit_neg_r by lia. reflexivity.
    + rewrite int_wrap_testbit, Hsig by lia. f_equal. lia.
  - destruct (Z.ltb_spec k (8 * int_sizeof T)); [|reflexivity].
    cbn [andb]. rewrite !Z.shiftl_spec by lia.
    destruct (Z.ltb_spec (k - s) 0).
    + rewrite !Z.testbit_neg_r by lia. reflexivity.
    + rewrite int_wrap_testbit, Hsig by lia.
      destruct (Z.ltb_spec (k - s) (8 * int_sizeof T)); [reflexivity|lia].
Qed.

Lemma int_wrap_0 (T : intty) : int_wrap T 0 = 0.
Proof. destruct T; reflexivity. Qed.

(** The read loop computes the value of the byte string, wrapped to [T]. *)
Lemma integer_read_spec (T : intty) (bs : list byte) (i : nat) (acc : Z) :
  Z.of_nat i + Z.of_nat (length bs) < 2 ^ 60 ->
  integer_read T bs i acc =
    Z.lor acc (int_wrap T (Z.shiftl (le_value bs) (8 * Z.of_nat i))).
Proof.
  revert i acc. induction bs as [|b bs IH]; intros i acc Hi.
  - cbn. rewrite Z.shiftl_0_l, int_wrap_0, Z.lor_0_r. reflexivity.
  - cbn [integer_read le_value length] in *.
    pose proof (Z_of_byte_range b) as Hb.
    rewrite int_shl_3 by lia.
    rewrite int_wrap_shiftl by lia.
    rewrite IH by lia.
    rewrite <- Z.lor_assoc, <- int_wrap_lor. do 2 f_equal.
    rewrite <- byte_lor_shift by lia.
    rewrite Z.shiftl_lor, Z.shiftl_shiftl by lia.
    do 2 f_equal. lia.
Qed.

Lemma integer_read_value (T : intty) (bs : list byte) :
  Z.of_nat (length bs) < 2 ^ 60 ->
  integer_read T bs 0 0 = int_wrap T (le_value bs).
Proof.
  intros Hl. rewrite integer_read_spec by lia.
  cbn. rewrite Z.shiftl_0_r. reflexivity.
Qed.

Lemma integer_read_le_value (T : intty) (bs : list byte) :
  Z.of_nat (length bs) < 2 ^ 60 ->
  int_in_range T (le_value bs) ->
  integer_read T bs 0 0 = le_value bs.
Proof.
  intros Hl Hr. rewrite integer_read_value by lia. apply int_wrap_small, Hr.
Qed.

(** ** Acquiring a window *)

Lemma mode_ser (ctx : Ctx) : mode ctx = Ser -> IsSerializer ctx = true.
Proof. unfold IsSerializer. intros ->. reflexivity. Qed.

Lemma mode_de (ctx : Ctx) : mode ctx = De -> IsSerializer ctx = false.
Proof. unfold IsSerializer. intros ->. reflexivity. Qed.

Lemma Raw_poisoned (ctx : Ctx) (n : Z) (e : Err) :
  err ctx = Some e -> Raw ctx n = Ret (ctx, None, Some e).
Proof. unfold Raw. intros ->. reflexivity. Qed.

Lemma reslice_ok {A} (s : slice A) (lo hi : Z) :
  0 <= lo <= hi -> hi <= cap s ->
  reslice s lo hi =
    Ret (Slice_ (take (Z.to_nat (hi - lo)) (drop (Z.to_nat lo) (backing s)))
                (drop (Z.to_nat hi) (backing s))).
Proof.
  intros Hlo Hhi. unfold reslice.
  replace ((0 <=? lo) && (lo <=? hi) && (hi <=? cap s)) with true; [reflexivity|].
  symmetry. rewrite !andb_true_iff. repeat split; apply Z.leb_le; lia.
Qed.

Lemma reslice_from_ok {A} (s : slice A) (lo : Z) :
  0 <= lo <= len s ->
  reslice_from s lo = Ret (Slice_ (drop (Z.to_nat lo) (vis s)) (spare s)).
Proof.
  intros Hlo. unfold reslice_from.
  replace ((0 <=? lo) && (lo <=? len s)) with true; [reflexivity|].
  symmetry. rewrite !andb_true_iff. repeat split; apply Z.leb_le; lia.
Qed.

Lemma make_ok {A} (z : A) (l c : Z) :
  0 <= l <= c ->
  make z l c = Ret (Slice_ (replicate (Z.to_nat l) z) (replicate (Z.to_nat (c - l)) z)).
Proof.
  intros Hl. unfold make.
  replace ((0 <=? l) && (l <=? c)) with true; [reflexivity|].
  symmetry. rewrite !andb_true_iff. repeat split; apply Z.leb_le; lia.
Qed.

Lemma Raw_ser (ctx : Ctx) (n : Z) :
  mode ctx = Ser -> err ctx = None ->
  0 <= n -> len (bytes ctx) + n < 2 ^ 63 ->
  exists stale,
    length stale = Z.to_nat n /\
    Raw ctx n = Ret (appended ctx stale,
                     Some (Window (length (vis (bytes ctx))) stale), None).
Proof.
  intros Hm He Hn Hl. unfold Raw. rewrite He, (mode_ser _ Hm).
  destruct ctx as [m [v sp] e]. cbn [bytes mode err] in *.
  unfold len, cap, backing in *. cbn [vis spare] in *.
  rewrite int_add_small by lia.
  rewrite length_app, Nat2Z.id.
  set (k := Z.to_nat n).
  assert (Hk1 : Z.to_nat (n + Z.of_nat (length v) - Z.of_nat (length v)) = k) by lia.
  assert (Hk2 : Z.to_nat (n + Z.of_nat (length v) - 0) = (length v + k)%nat) by lia.
  assert (Hk3 : Z.to_nat (n + Z.of_nat (length v)) = (length v + k)%nat) by lia.
  assert (Hk : k = Z.to_nat n) by reflexivity. clearbody k.
  unfold appended, with_bytes. cbn [bytes vis spare mode err].
  destruct (Z.ltb_spec (Z.of_nat (length v + length sp)) (n + Z.of_nat (length v)))
    as [Hgrow|Hfit].
  - exists (replicate k x00). split; [apply length_replicate|].
    rewrite make_ok by lia. cbn [bind]. unfold copy. cbn [vis spare].
    rewrite length_replicate, Nat2Z.id, Nat.min_id, firstn_all.
    rewrite (drop_ge (replicate _ _)) by list_len.
    rewrite app_nil_r, Hk1.
    rewrite !reslice_ok by (unfold cap, backing; cbn [vis spare]; list_len).
    cbn [bind]. unfold backing. cbn [vis spare].
    rewrite Nat2Z.id, drop_app_length, Hk1, Hk2, Hk3.
    change (Z.to_nat 0) with 0%nat. rewrite drop_0.
    rewrite !take_ge by list_len.
    rewrite !drop_ge by list_len.
    reflexivity.
  - exists (take k sp). split; [rewrite length_take; lia|].
    cbn [bind].
    rewrite !reslice_ok by (unfold cap, backing; cbn [vis spare]; list_len).
    cbn [bind]. unfold backing. cbn [vis spare].
    rewrite Nat2Z.id, drop_app_length, Hk1, Hk2, Hk3.
    change (Z.to_nat 0) with 0%nat. rewrite drop_0.
    rewrite take_app_add, drop_app_add.
    rewrite length_take. replace (k `min` length sp)%nat with k by lia.
    reflexivity.
Qed.

Lemma Raw_de (ctx : Ctx) (data rest : list byte) :
  mode ctx = De -> err ctx = None ->
  vis (bytes ctx) = data ++ rest ->
  Raw ctx (Z.of_nat (length data)) =
    Ret (unread ctx rest, Some (Window 0 data), None).
Proof.
  intros Hm He Hv. unfold Raw. rewrite He, (mode_de _ Hm).
  destruct ctx as [m [v sp] e]. cbn [bytes mode err vis] in *. subst v.
  unfold len. cbn [vis].
  destruct (Z.ltb_spec (Z.of_nat (length (data ++ rest))) (Z.of_nat (length data)))
    as [Hshort|_]; [rewrite length_app in Hshort; lia|].
  rewrite reslice_ok, reslice_from_ok
    by (unfold cap, len, backing; cbn [vis spare]; list_len).
  cbn [bind]. unfold backing, unread, with_bytes. cbn [bytes vis spare mode err].
  rewrite Z.sub_0_r, Nat2Z.id. change (Z.to_nat 0) with 0%nat. rewrite drop_0.
  rewrite <- app_assoc, take_app_length, drop_app_length. reflexivity.
Qed.

Lemma Raw_de_short (ctx : Ctx) (n : Z) :
  mode ctx = De -> err ctx = None ->
  len (bytes ctx) < n ->
  Raw ctx n = Ret (with_err ctx (Some errUnexpectedEnd), None, Some errUnexpectedEnd).
Proof.
  intros Hm He Hn. unfold Raw. rewrite He, (mode_de _ Hm).
  destruct (Z.ltb_spec (len (bytes ctx)) n); [|lia].
  unfold Abort. rewrite He. reflexivity.
Qed.

Lemma copy_window_appended (ctx : Ctx) (stale data : list byte) :
  length stale = length data ->
  copy_window (appended ctx stale)
    (Some (Window (length (vis (bytes ctx))) stale)) data = appended ctx data.
Proof.
  intros Hl. unfold copy_window, appended, with_bytes.
  cbn [w_off w_data bytes vis spare mode err].
  rewrite Hl, Nat.min_id, firstn_all, take_app_length.
  rewrite drop_ge by list_len. rewrite app_nil_r. reflexivity.
Qed.

Lemma appended_app (ctx : Ctx) (a b : list byte) :
  appended (appended ctx a) b = appended ctx (a ++ b).
Proof.
  unfold appended, with_bytes. cbn [bytes vis spare mode err].
  rewrite <- app_assoc, drop_drop, length_app. reflexivity.
Qed.

(** ** Integers *)

Lemma integer_write_spec (ctx : Ctx) (off : nat) (d pre done rest : list byte)
    (v : Z) (i todo : nat) :
  vis (bytes ctx) = pre ++ done ++ rest ->
  length pre = off -> length done = i -> length rest = todo ->
  length d = (i + todo)%nat -> Z.of_nat (i + todo) < 2 ^ 60 ->
  integer_write ctx (Some (Window off d)) v i todo =
    Ret (with_bytes ctx
           (Slice_ (pre ++ done ++
                    map (fun j => byte_of_Z (Z.shiftr v (8 * Z.of_nat j))) (seq i todo))
                   (spare (bytes ctx)))).
Proof.
  revert ctx done rest i. induction todo as [|todo IH];
    intros ctx done rest i Hv Hpre Hdone Hrest Hd Hsmall.
  - destruct rest; [|discriminate]. cbn [integer_write seq map].
    rewrite <- Hv. destruct ctx as [m [vv sp] e]. reflexivity.
  - destruct rest as [|r rest]; [discriminate|].
    cbn [integer_write]. unfold poke at 1. cbn [w_data w_off].
    destruct (Nat.ltb_spec i (length d)) as [_|Hbad]; [|lia].
    cbn [bind]. rewrite int_shl_3 by lia.
    rewrite (IH _ (done ++ [byte_of_Z (Z.shiftr v (8 * Z.of_nat i))]) rest).
    + unfold with_bytes. cbn [bytes vis spare mode err seq map].
      rewrite <- !app_assoc. reflexivity.
    + unfold with_bytes. cbn [bytes vis spare]. rewrite Hv.
      rewrite insert_app_r_alt by lia.
      rewrite insert_app_r_alt by lia.
      replace (off + i - length pre - length done)%nat with 0%nat by lia.
      cbn [list_insert]. rewrite <- !app_assoc. reflexivity.
    + exact Hpre.
    + rewrite length_app. cbn [length]. lia.
    + cbn [length] in Hrest. lia.
    + lia.
    + lia.
Qed.

Lemma integer_poisoned (T : intty) (ctx : Ctx) (v : Z) (e : Err) :
  err ctx = Some e -> integer T ctx v = Ret (ctx, v, Some e).
Proof.
  intros He. unfold integer. rewrite (Raw_poisoned _ _ _ He). reflexivity.
Qed.

Lemma integer_ser (T : intty) (ctx : Ctx) (v : Z) :
  mode ctx = Ser -> err ctx = None ->
  len (bytes ctx) + int_sizeof T < 2 ^ 63 ->
  integer T ctx v =
    Ret (appended ctx (le_bytes (Z.to_nat (int_sizeof T)) v), v, None).
Proof.
  intros Hm He Hl. pose proof (int_sizeof_range T) as Hs.
  destruct (Raw_ser ctx (int_sizeof T) Hm He) as (stale & Hst & HR); [lia|lia|].
  unfold integer. rewrite HR. cbn [bind wdata w_data].
  rewrite mode_ser by exact Hm.
  rewrite (integer_write_spec _ _ _ (vis (bytes ctx)) [] stale).
  - cbn [bind app]. unfold appended, with_bytes, le_bytes.
    cbn [bytes vis spare mode err]. rewrite length_map, length_seq, Hst.
    reflexivity.
  - reflexivity.
  - reflexivity.
  - reflexivity.
  - reflexivity.
  - reflexivity.
  - lia.
Qed.

Lemma integer_de (T : intty) (ctx : Ctx) (v0 : Z) (bs rest : list byte) :
  mode ctx = De -> err ctx = None ->
  vis (bytes ctx) = bs ++ rest ->
  Z.of_nat (length bs) = int_sizeof T ->
  int_in_range T (le_value bs) ->
  integer T ctx v0 = Ret (unread ctx rest, le_value bs, None).
Proof.
  intros Hm He Hv Hl Hr. pose proof (int_sizeof_range T) as Hs.
  unfold integer. rewrite <- Hl, (Raw_de ctx bs rest Hm He Hv).
  cbn [bind wdata w_data].
  rewrite mode_de by exact Hm.
  rewrite integer_read_le_value by (try exact Hr; lia).
  reflexivity.
Qed.

Lemma integer_de_wrap (T : intty) (ctx : Ctx) (v0 : Z) (bs rest : list byte) :
  mode ctx = De -> err ctx = None ->
  vis (bytes ctx) = bs ++ rest ->
  Z.of_nat (length bs) = int_sizeof T ->
  integer T ctx v0 = Ret (unread ctx rest, int_wrap T (le_value bs), None).
Proof.
  intros Hm He Hv Hl. pose proof (int_sizeof_range T) as Hs.
  unfold integer. rewrite <- Hl, (Raw_de ctx bs rest Hm He Hv).
  cbn [bind wdata w_data].
  rewrite mode_de by exact Hm.
  rewrite integer_read_value by lia.
  reflexivity.
Qed.

Lemma integer_de_short (T : intty) (ctx : Ctx) (v0 : Z) :
  mode ctx = De -> err ctx = None ->
  len (bytes ctx) < int_sizeof T ->
  integer T ctx v0 =
    Ret (with_err ctx (Some errUnexpectedEnd), v0, Some errUnexpectedEnd).
Proof.
  intros Hm He Hl. unfold integer. rewrite Raw_de_short by assumption.
  reflexivity.
Qed.

(** A length that fits Go's [int] survives its 8-byte encoding. *)
Lemma le_value_len (n : Z) :
  0 <= n < 2 ^ 63 -> le_value (le_bytes 8 n) = n /\ int_in_range TInt (le_value (le_bytes 8 n)).
Proof.
  intros Hn. rewrite le_value_le_bytes.
  change (2 ^ (8 * Z.of_nat 8)) with (2 ^ 64).
  rewrite Z.mod_small by lia. split; [reflexivity|].
  unfold int_in_range; cbn -[Z.pow]. lia.
Qed.

Lemma integer_len_ser (ctx : Ctx) (n : Z) :
  mode ctx = Ser -> err ctx = None ->
  len (bytes ctx) + 8 < 2 ^ 63 ->
  integer TInt ctx n = Ret (appended ctx (le_bytes 8 n), n, None).
Proof. intros Hm He Hl. rewrite integer_ser by assumption. reflexivity. Qed.

Lemma integer_len_de (ctx : Ctx) (v0 n : Z) (rest : list byte) :
  mode ctx = De -> err ctx = None ->
  vis (bytes ctx) = le_bytes 8 n ++ rest ->
  0 <= n < 2 ^ 63 ->
  integer TInt ctx v0 = Ret (unread ctx rest, n, None).
Proof.
  intros Hm He Hv Hn. destruct (le_value_len n Hn) as [Hval Hr].
  rewrite (integer_de TInt ctx v0 (le_bytes 8 n) rest) by
    (try assumption; rewrite length_le_bytes; reflexivity).
  rewrite Hval. reflexivity.
Qed.

(** ** Reading a value's memory at the unsigned type of the same width *)

Lemma pow8_pos (T : numty) : 0 < 2 ^ (8 * sizeof T).
Proof. apply Z.pow_pos_nonneg; [lia|]. destruct T as [[]| |]; cbn; lia. Qed.

Lemma of_bits_to_bits (T : numty) (v : Z) :
  in_range T v -> of_bits T (to_bits T v) = v.
Proof.
  unfold of_bits, to_bits. intros Hr.
  destruct T as [t| |]; cbn [num_wrap sizeof in_range] in *.
  - unfold int_wrap, int_in_range in *. destruct (int_signed t).
    + rewrite Zplus_mod_idemp_l.
      destruct t; cbn -[Z.pow] in *; rewrite Z.mod_small by lia; lia.
    + rewrite Z.mod_mod by (destruct t; cbn; lia).
      apply Z.mod_small. exact Hr.
  - change (8 * 4) with 32. rewrite Z.mod_mod by lia. apply Z.mod_small. exact Hr.
  - change (8 * 8) with 64. rewrite Z.mod_mod by lia. apply Z.mod_small. exact Hr.
Qed.

Lemma to_bits_range (T : numty) (v : Z) : 0 <= to_bits T v < 2 ^ (8 * sizeof T).
Proof. unfold to_bits. apply Z.mod_pos_bound, pow8_pos. Qed.

Lemma unsigned_of_bits (T : numty) (U : intty) (z : Z) :
  sizeof T = int_sizeof U -> int_signed U = false ->
  0 <= z < 2 ^ (8 * sizeof T) ->
  of_bits (NInt U) z = z /\ to_bits (NInt U) z = z /\ int_in_range U z.
Proof.
  intros Hs HU Hz. unfold of_bits, to_bits, int_in_range. cbn [num_wrap sizeof].
  unfold int_wrap. rewrite HU, <- Hs.
  rewrite Z.mod_small by lia. repeat split; lia.
Qed.

Lemma transmute_there_and_back (T : numty) (U : intty) (v : Z) :
  sizeof T = int_sizeof U -> int_signed U = false -> in_range T v ->
  of_bits T (to_bits (NInt U) (of_bits (NInt U) (to_bits T v))) = v.
Proof.
  intros Hs HU Hr.
  destruct (unsigned_of_bits T U (to_bits T v) Hs HU (to_bits_range T v))
    as (-> & -> & _).
  apply of_bits_to_bits. exact Hr.
Qed.

(** [Number] always finds the unsigned type of the value's width. *)
Lemma Number_dispatch (T : numty) :
  exists U, canTransmute T (NInt U) = true /\ int_signed U = false /\
            sizeof T = int_sizeof U /\
            forall ctx v, Number T ctx v = integer_as T U ctx v.
Proof.
  destruct T as [[]| |];
    first [ exists TUint8; repeat split; reflexivity
          | exists TUint16; repeat split; reflexivity
          | exists TUint32; repeat split; reflexivity
          | exists TUint64; repeat split; reflexivity ].
Qed.

(** ** A poisoned context *)

Section Poisoned.
Variable ctx : Ctx.
Variable e : Err.
Hypothesis Hpoisoned : err ctx = Some e.

Lemma Abort_poisoned (e' : Err) : Abort ctx (Some e') = Ret (ctx, Some e).
Proof. unfold Abort. rewrite Hpoisoned. cbn. rewrite Hpoisoned. reflexivity. Qed.

Lemma Number_poisoned (T : numty) (v : Z) :
  exists v', Number T ctx v = Ret (ctx, v', Some e) /\ (in_range T v -> v' = v).
Proof.
  destruct (Number_dispatch T) as (U & HT & HU & Hs & ->).
  unfold integer_as, unsafeTransmutePtr. rewrite HT. cbn [bind].
  rewrite (integer_poisoned _ _ _ _ Hpoisoned). cbn [bind].
  eexists. split; [reflexivity|].
  intros Hr. apply transmute_there_and_back; assumption.
Qed.

Lemma String_poisoned (s : list byte) : String ctx s = Ret (ctx, s, Some e).
Proof.
  unfold String. rewrite (integer_poisoned _ _ _ _ Hpoisoned). reflexivity.
Qed.

Lemma Bytes_poisoned (b : slice byte) : Bytes ctx b = Ret (ctx, b, Some e).
Proof.
  unfold Bytes. rewrite (integer_poisoned _ _ _ _ Hpoisoned). reflexivity.
Qed.

Lemma Slice_poisoned {T} (zero : T) (f : codec T) (s : slice T) :
  Slice zero f ctx s = Ret (ctx, s, Some e).
Proof.
  unfold Slice. rewrite (integer_poisoned _ _ _ _ Hpoisoned). reflexivity.
Qed.

Lemma Map_poisoned {K} `{Countable K} {V} (order : gmap K V -> list (K * V))
    (zeroK : K) (zeroV : V) (fK : codec K) (fV : codec V) (m : option (gmap K V)) :
  Map order zeroK zeroV fK fV ctx m = Ret (ctx, m, Some e).
Proof.
  unfold Map. rewrite (integer_poisoned _ _ _ _ Hpoisoned). reflexivity.
Qed.

Lemma Binary_poisoned {T} `{BinaryMarshalerUnmarshaler T} (v : T) :
  Binary ctx v = Ret (ctx, v, Some e).
Proof.
  unfold Binary. destruct (IsSerializer ctx).
  - destruct (MarshalBinary v) as [data [e'|]].
    + rewrite Abort_poisoned. reflexivity.
    + rewrite (integer_poisoned _ _ _ _ Hpoisoned). cbn [bind].
      rewrite (Raw_poisoned _ _ _ Hpoisoned). reflexivity.
  - rewrite (integer_poisoned _ _ _ _ Hpoisoned). cbn [bind].
    rewrite (Raw_poisoned _ _ _ Hpoisoned). reflexivity.
Qed.

End Poisoned.

(** ** Numbers on the wire *)

Lemma Number_ser (T : numty) (ctx : Ctx) (v : Z) :
  mode ctx = Ser -> err ctx = None ->
  len (bytes ctx) + sizeof T < 2 ^ 63 ->
  in_range T v ->
  Number T ctx v =
    Ret (appended ctx (le_bytes (Z.to_nat (sizeof T)) (to_bits T v)), v, None).
Proof.
  intros Hm He Hl Hr.
  destruct (Number_dispatch T) as (U & HT & HU & Hs & ->).
  unfold integer_as, unsafeTransmutePtr. rewrite HT. cbn [bind].
  destruct (unsigned_of_bits T U (to_bits T v) Hs HU (to_bits_range T v))
    as (Hof & Hto & _).
  rewrite Hof, integer_ser by (try assumption; lia).
  cbn [bind]. rewrite Hto, Hs, of_bits_to_bits by exact Hr. reflexivity.
Qed.

Lemma Number_de (T : numty) (ctx : Ctx) (v0 : Z) (bs rest : list byte) :
  mode ctx = De -> err ctx = None ->
  vis (bytes ctx) = bs ++ rest ->
  Z.of_nat (length bs) = sizeof T ->
  Number T ctx v0 = Ret (unread ctx rest, of_bits T (le_value bs), None).
Proof.
  intros Hm He Hv Hl.
  destruct (Number_dispatch T) as (U & HT & HU & Hs & ->).
  unfold integer_as, unsafeTransmutePtr. rewrite HT. cbn [bind].
  assert (Hb : 0 <= le_value bs < 2 ^ (8 * sizeof T)).
  { rewrite <- Hl. apply le_value_range. }
  destruct (unsigned_of_bits T U (le_value bs) Hs HU Hb) as (_ & Hto & Hin).
  rewrite (integer_de U ctx _ bs rest) by (try assumption; lia).
  cbn [bind]. rewrite Hto. reflexivity.
Qed.

Lemma Number_round_trip (T : numty) (v : Z) :
  in_range T v ->
  of_bits T (le_value (le_bytes (Z.to_nat (sizeof T)) (to_bits T v))) = v.
Proof.
  intros Hr. rewrite le_value_le_bytes.
  rewrite Z2Nat.id by (destruct T as [[]| |]; cbn; lia).
  unfold to_bits at 1. rewrite Z.mod_mod by (pose proof (pow8_pos T); lia).
  apply of_bits_to_bits. exact Hr.
Qed.

(** ** Length-prefixed payloads *)

Lemma appended_mode (ctx : Ctx) (w : list byte) : mode (appended ctx w) = mode ctx.
Proof. reflexivity. Qed.

Lemma appended_err (ctx : Ctx) (w : list byte) : err (appended ctx w) = err ctx.
Proof. reflexivity. Qed.

Lemma appended_len (ctx : Ctx) (w : list byte) :
  len (bytes (appended ctx w)) = len (bytes ctx) + Z.of_nat (length w).
Proof. unfold appended, with_bytes, len. cbn [bytes vis]. list_len. Qed.

Lemma unread_mode (ctx : Ctx) (r : list byte) : mode (unread ctx r) = mode ctx.
Proof. reflexivity. Qed.

Lemma unread_err (ctx : Ctx) (r : list byte) : err (unread ctx r) = err ctx.
Proof. reflexivity. Qed.

Lemma unread_vis (ctx : Ctx) (r : list byte) : vis (bytes (unread ctx r)) = r.
Proof. reflexivity. Qed.

Lemma unread_unread (ctx : Ctx) (r r' : list byte) :
  unread (unread ctx r) r' = unread ctx r'.
Proof. reflexivity. Qed.

(** A serializer writes an 8-byte length and then [n] payload bytes. *)
Lemma payload_ser (ctx : Ctx) (data : list byte) :
  mode ctx = Ser -> err ctx = None ->
  len (bytes ctx) + 8 + Z.of_nat (length data) < 2 ^ 63 ->
  exists ctx1 bs,
    integer TInt ctx (Z.of_nat (length data)) =
      Ret (ctx1, Z.of_nat (length data), None) /\
    Raw ctx1 (Z.of_nat (length data)) = Ret (appended ctx1 (wdata bs), bs, None) /\
    mode (appended ctx1 (wdata bs)) = Ser /\
    copy_window (appended ctx1 (wdata bs)) bs data =
      appended ctx (le_bytes 8 (Z.of_nat (length data)) ++ data).
Proof.
  intros Hm He Hl.
  exists (appended ctx (le_bytes 8 (Z.of_nat (length data)))).
  destruct (Raw_ser (appended ctx (le_bytes 8 (Z.of_nat (length data))))
              (Z.of_nat (length data))) as (stale & Hst & HR);
    [exact Hm | exact He | lia | rewrite appended_len, length_le_bytes; lia |].
  exists (Some (Window (length (vis (bytes (appended ctx
                  (le_bytes 8 (Z.of_nat (length data))))))) stale)).
  cbn [wdata w_data]. split; [|split; [|split]].
  - apply integer_len_ser; [exact Hm | exact He | lia].
  - exact HR.
  - exact Hm.
  - rewrite copy_window_appended by lia. apply appended_app.
Qed.

Lemma String_ser (ctx : Ctx) (s : list byte) :
  mode ctx = Ser -> err ctx = None ->
  len (bytes ctx) + 8 + Z.of_nat (length s) < 2 ^ 63 ->
  String ctx s = Ret (appended ctx (le_bytes 8 (Z.of_nat (length s)) ++ s), s, None).
Proof.
  intros Hm He Hl.
  destruct (payload_ser ctx s Hm He Hl) as (ctx1 & bs & Hint & HR & Hm2 & Hcp).
  unfold String. rewrite Hint. cbn [bind]. rewrite HR. cbn [bind].
  rewrite mode_ser by exact Hm2. rewrite Hcp. reflexivity.
Qed.

Lemma Bytes_ser (ctx : Ctx) (b : slice byte) :
  mode ctx = Ser -> err ctx = None ->
  len (bytes ctx) + 8 + len b < 2 ^ 63 ->
  Bytes ctx b = Ret (appended ctx (le_bytes 8 (len b) ++ vis b), b, None).
Proof.
  intros Hm He Hl.
  destruct (payload_ser ctx (vis b) Hm He Hl) as (ctx1 & bs & Hint & HR & Hm2 & Hcp).
  unfold Bytes. fold (len b) in *. rewrite Hint. cbn [bind]. rewrite HR. cbn [bind].
  rewrite mode_ser by exact Hm2. rewrite Hcp. reflexivity.
Qed.

Lemma Binary_ser {T} `{BinaryMarshalerUnmarshaler T} (ctx : Ctx) (v : T)
    (data : list byte) :
  mode ctx = Ser -> err ctx = None ->
  MarshalBinary v = (data, None) ->
  len (bytes ctx) + 8 + Z.of_nat (length data) < 2 ^ 63 ->
  Binary ctx v =
    Ret (appended ctx (le_bytes 8 (Z.of_nat (length data)) ++ data), v, None).
Proof.
  intros Hm He HM Hl.
  destruct (payload_ser ctx data Hm He Hl) as (ctx1 & bs & Hint & HR & Hm2 & Hcp).
  unfold Binary. rewrite mode_ser by exact Hm. rewrite HM, Hint. cbn [bind].
  rewrite HR. cbn [bind]. rewrite Hcp. reflexivity.
Qed.

(** A deserializer reads an 8-byte length and then that many bytes. *)
Lemma payload_de (ctx : Ctx) (v0 : Z) (data rest : list byte) :
  mode ctx = De -> err ctx = None ->
  Z.of_nat (length data) < 2 ^ 63 ->
  vis (bytes ctx) = le_bytes 8 (Z.of_nat (length data)) ++ data ++ rest ->
  integer TInt ctx v0 =
    Ret (unread ctx (data ++ rest), Z.of_nat (length data), None) /\
  Raw (unread ctx (data ++ rest)) (Z.of_nat (length data)) =
    Ret (unread ctx rest, Some (Window 0 data), None).
Proof.
  intros Hm He Hl Hv. split.
  - apply integer_len_de; [exact Hm | exact He | exact Hv | lia].
  - rewrite (Raw_de (unread ctx (data ++ rest)) data rest); [reflexivity| | |];
      assumption || reflexivity.
Qed.

Lemma String_de (ctx : Ctx) (s0 s rest : list byte) :
  mode ctx = De -> err ctx = None ->
  Z.of_nat (length s) < 2 ^ 63 ->
  vis (bytes ctx) = le_bytes 8 (Z.of_nat (length s)) ++ s ++ rest ->
  String ctx s0 = Ret (unread ctx rest, s, None).
Proof.
  intros Hm He Hl Hv.
  destruct (payload_de ctx (Z.of_nat (length s0)) s rest Hm He Hl Hv) as [Hint HR].
  unfold String. rewrite Hint. cbn [bind]. rewrite HR. cbn [bind wdata w_data].
  rewrite mode_de by exact Hm. reflexivity.
Qed.

Lemma make_exact {A} (z : A) (n : Z) :
  0 <= n -> make z n n = Ret (Slice_ (replicate (Z.to_nat n) z) []).
Proof. intros Hn. rewrite make_ok by lia. rewrite Z.sub_diag. reflexivity. Qed.

Lemma reslice_prefix {A} (s : slice A) (n : Z) :
  0 <= n <= cap s ->
  reslice s 0 n =
    Ret (Slice_ (take (Z.to_nat n) (backing s)) (drop (Z.to_nat n) (backing s))).
Proof.
  intros Hn. rewrite reslice_ok by lia.
  rewrite Z.sub_0_r. change (Z.to_nat 0) with 0%nat. rewrite drop_0. reflexivity.
Qed.

Lemma copy_exact {A} (dst : slice A) (src : list A) :
  length (vis dst) = length src -> copy dst src = Slice_ src (spare dst).
Proof.
  intros Hl. unfold copy. rewrite Hl, Nat.min_id, firstn_all.
  rewrite drop_ge by lia. rewrite app_nil_r. reflexivity.
Qed.

(** The destination of a [Bytes] decode: fresh storage of exactly the
    payload when the capacity is too small, otherwise the old header over
    the old backing array, whose first bytes are now the payload. *)
Lemma Bytes_de (ctx : Ctx) (dst : slice byte) (data rest : list byte) :
  mode ctx = De -> err ctx = None ->
  Z.of_nat (length data) < 2 ^ 63 ->
  vis (bytes ctx) = le_bytes 8 (Z.of_nat (length data)) ++ data ++ rest ->
  Bytes ctx dst =
    Ret (unread ctx rest,
         (if Bytes_allocates dst (Z.of_nat (length data))
          then Slice_ data []
          else let arr := data ++ drop (length data) (backing dst) in
               Slice_ (take (length (vis dst)) arr) (drop (length (vis dst)) arr)),
         None).
Proof.
  intros Hm He Hl Hv.
  destruct (payload_de ctx (len dst) data rest Hm He Hl Hv) as [Hint HR].
  unfold Bytes. rewrite Hint. cbn [bind]. rewrite HR. cbn [bind wdata w_data].
  rewrite mode_de by exact Hm.
  unfold Bytes_allocates.
  destruct (Z.ltb_spec (cap dst) (Z.of_nat (length data))) as [Hsmall|Hfits].
  - rewrite make_exact by lia. cbn [bind].
    rewrite reslice_prefix by (unfold cap, backing; cbn [vis spare]; list_len).
    cbn [bind]. unfold backing at 1 2. cbn [vis spare].
    rewrite Nat2Z.id, app_nil_r.
    rewrite take_ge, drop_ge by list_len.
    rewrite copy_exact by (cbn [vis]; list_len).
    unfold through, backing. cbn [vis spare].
    rewrite length_replicate, app_nil_r, firstn_all, drop_all. reflexivity.
  - cbn [bind]. rewrite reslice_prefix by lia. cbn [bind].
    unfold cap in Hfits.
    rewrite copy_exact by (cbn [vis]; list_len).
    unfold through. unfold backing at 1 3. cbn [vis spare].
    rewrite Nat2Z.id. reflexivity.
Qed.

Lemma Raw_de_negative (ctx : Ctx) (n : Z) :
  mode ctx = De -> err ctx = None -> n < 0 -> Raw ctx n = Panic PanicSliceBounds.
Proof.
  intros Hm He Hn. unfold Raw. rewrite He, (mode_de _ Hm).
  destruct (Z.ltb_spec (len (bytes ctx)) n) as [Hl|_]; [unfold len in Hl; lia|].
  unfold reslice. destruct (Z.leb_spec 0 n); [lia|]. reflexivity.
Qed.

(** A nonnegative [int] read from 8 bytes is the value of those bytes. *)
Lemma int_wrap_nonneg (bs : list byte) :
  length bs = 8%nat -> 0 <= int_wrap TInt (le_value bs) ->
  int_wrap TInt (le_value bs) = le_value bs /\ le_value bs < 2 ^ 63.
Proof.
  intros Hl. pose proof (le_value_range bs) as Hr. rewrite Hl in Hr.
  change (2 ^ (8 * Z.of_nat 8)) with (2 ^ 64) in Hr.
  unfold int_wrap. cbn -[Z.pow Z.mul Z.sub].
  change (2 ^ (8 * 8 - 1)) with (2 ^ 63).
  change (2 ^ (8 * 8)) with (2 * 2 ^ 63). change (2 ^ 64) with (2 * 2 ^ 63) in Hr.
  destruct (Z.ltb_spec (le_value bs) (2 ^ 63)) as [Hlt|Hge].
  - rewrite Z.mod_small by lia. lia.
  - replace (le_value bs + 2 ^ 63) with (le_value bs - 2 ^ 63 + 1 * (2 * 2 ^ 63)) by lia.
    rewrite Z.mod_add by lia. rewrite Z.mod_small by lia. lia.
Qed.

(** Every successful decode of a length-prefixed payload read a wire of
    the expected shape. *)
Lemma payload_de_shape (ctx ctx1 ctx2 : Ctx) (v0 n : Z) (w : option window) :
  mode ctx = De -> err ctx = None ->
  integer TInt ctx v0 = Ret (ctx1, n, None) ->
  Raw ctx1 n = Ret (ctx2, w, None) ->
  exists data rest,
    n = Z.of_nat (length data) /\ n < 2 ^ 63 /\
    vis (bytes ctx) = le_bytes 8 n ++ data ++ rest.
Proof.
  intros Hm He Hint HR.
  destruct (Z.ltb_spec (len (bytes ctx)) 8) as [Hshort|Hlong].
  - rewrite integer_de_short in Hint by assumption. discriminate.
  - pose proof (take_drop 8 (vis (bytes ctx))) as Hsplit. symmetry in Hsplit.
    assert (Hl8 : length (take 8 (vis (bytes ctx))) = 8%nat)
      by (unfold len in Hlong; list_len).
    rewrite (integer_de_wrap TInt ctx v0 _ _ Hm He Hsplit) in Hint
      by (rewrite Hl8; reflexivity).
    injection Hint as <- <-.
    set (r := drop 8 (vis (bytes ctx))) in *.
    set (bs := take 8 (vis (bytes ctx))) in *.
    destruct (Z.ltb_spec (int_wrap TInt (le_value bs)) 0) as [Hneg|Hpos].
    + rewrite Raw_de_negative in HR by (assumption || reflexivity). discriminate.
    + destruct (Z.ltb_spec (Z.of_nat (length r)) (int_wrap TInt (le_value bs)))
        as [Hend|Hfit].
      * rewrite Raw_de_short in HR by (assumption || reflexivity). discriminate.
      * destruct (int_wrap_nonneg bs Hl8 Hpos) as [Hn Hb]. rewrite Hn in *.
        exists (take (Z.to_nat (le_value bs)) r), (drop (Z.to_nat (le_value bs)) r).
        split; [list_len|]. split; [exact Hb|].
        rewrite take_drop, <- Hl8, le_bytes_le_value. exact Hsplit.
Qed.

(** ** The element loop of [Slice] *)

Lemma Slice_loop_spec {T} (f : codec T) (mid pre post : list T) (i : nat)
    (ctx : Ctx) (s : slice T) :
  vis s = pre ++ mid ++ post -> length pre = i ->
  Slice_loop f (length mid) i ctx s =
    (let* (ctx', mid', e) := each_in_order f mid ctx in
     Ret (ctx', Slice_ (pre ++ mid' ++ post) (spare s), e)).
Proof.
  revert pre i ctx s. induction mid as [|x mid IH]; intros pre i ctx s Hv Hi.
  - cbn in *. rewrite <- Hv. destruct s. reflexivity.
  - cbn [length Slice_loop each_in_order].
    rewrite Hv, lookup_app_r by lia.
    replace (i - length pre)%nat with 0%nat by lia. cbn [lookup list_lookup app].
    destruct (f ctx x) as [[[ctx1 x'] e]|p]; cbn [bind]; [|reflexivity].
    assert (Hins : <[i := x']> (pre ++ x :: mid ++ post) = (pre ++ [x']) ++ mid ++ post).
    { rewrite insert_app_r_alt by lia.
      replace (i - length pre)%nat with 0%nat by lia.
      cbn [list_insert]. rewrite <- app_assoc. reflexivity. }
    rewrite Hins. destruct e as [e|].
    + rewrite <- app_assoc. reflexivity.
    + rewrite (IH (pre ++ [x']) (S i) ctx1
                 (Slice_ ((pre ++ [x']) ++ mid ++ post) (spare s)) eq_refl)
        by (rewrite length_app; cbn [length]; lia).
      cbn [spare].
      destruct (each_in_order f mid ctx1) as [[[ctx2 ys] e']|p]; cbn [bind];
        [|reflexivity].
      rewrite <- app_assoc. reflexivity.
Qed.

Lemma each_in_order_length {T} (f : codec T) (xs ys : list T) (ctx ctx' : Ctx)
    (e : error) :
  each_in_order f xs ctx = Ret (ctx', ys, e) -> length ys = length xs.
Proof.
  revert ys ctx ctx' e. induction xs as [|x xs IH]; intros ys ctx ctx' e.
  - cbn. intros [= <- <- <-]. reflexivity.
  - cbn [each_in_order].
    destruct (f ctx x) as [[[ctx1 x'] e1]|p]; cbn [bind]; [|discriminate].
    destruct e1 as [e1|].
    + intros [= <- <- <-]. reflexivity.
    + destruct (each_in_order f xs ctx1) as [[[ctx2 zs] e2]|p] eqn:E; cbn [bind];
        [|discriminate].
      intros [= <- <- <-]. cbn [length]. f_equal. eapply IH. exact E.
Qed.

(** What [Slice] does once the count is known. *)
Lemma Slice_after_count {T} (zero : T) (f : codec T) (ctx ctx1 : Ctx)
    (s : slice T) (count : Z) :
  integer TInt ctx (len s) = Ret (ctx1, count, None) ->
  Slice zero f ctx s =
    if Slice_allocates s count
    then (let* (ctx', elems, e) :=
            each_in_order f
              (vis s ++ replicate (Z.to_nat count - length (vis s)) zero) ctx1 in
          Ret (ctx', Slice_ elems [], e))
    else (let* (ctx', head, e) :=
            each_in_order f (take (Z.to_nat count) (vis s)) ctx1 in
          Ret (ctx', Slice_ (head ++ drop (Z.to_nat count) (vis s)) (spare s), e)).
Proof.
  intros Hint. unfold Slice. rewrite Hint. cbn [bind].
  unfold Slice_allocates, len.
  destruct (Z.ltb_spec (Z.of_nat (length (vis s))) count) as [Hgrow|Hkeep].
  - rewrite make_exact by lia. cbn [bind]. unfold copy. cbn [vis spare].
    rewrite length_replicate.
    replace (Z.to_nat count `min` length (vis s))%nat with (length (vis s)) by lia.
    rewrite firstn_all, drop_replicate.
    pose proof (Slice_loop_spec f
                  (vis s ++ replicate (Z.to_nat count - length (vis s)) zero) [] [] 0
                  ctx1 (Slice_ (vis s ++ replicate (Z.to_nat count - length (vis s)) zero) []))
      as HL.
    cbn [vis spare app] in HL. rewrite app_nil_r in HL.
    specialize (HL eq_refl eq_refl).
    rewrite length_app, length_replicate in HL.
    replace (length (vis s) + (Z.to_nat count - length (vis s)))%nat
      with (Z.to_nat count) in HL by lia.
    rewrite HL.
    destruct (each_in_order f _ ctx1) as [[[ctx' elems] e]|p]; cbn [bind];
      [|reflexivity].
    rewrite app_nil_r. reflexivity.
  - cbn [bind].
    pose proof (Slice_loop_spec f (take (Z.to_nat count) (vis s)) []
                  (drop (Z.to_nat count) (vis s)) 0 ctx1 s) as HL.
    cbn [app] in HL. rewrite take_drop in HL. specialize (HL eq_refl eq_refl).
    rewrite length_take in HL.
    replace (Z.to_nat count `min` length (vis s))%nat with (Z.to_nat count) in HL by lia.
    exact HL.
Qed.

(** * The claims *)

(** ** C3: a window in a deserializer *)

(** C3, as amended.  On an unpoisoned deserializer, when fewer than [n]
    bytes remain, [Raw n] stores the unexpected-end error, returns it with
    a nil window and consumes nothing; when [0 <= n] and at least [n]
    bytes remain, [Raw n] returns exactly the first [n] unread bytes and
    advances the buffer past them. *)
Theorem Raw_decode_window (ctx : Ctx) (n : Z) :
  mode ctx = De -> Error ctx = None ->
  (len (bytes ctx) < n ->
   exists ctx',
     Raw ctx n = Ret (ctx', None, Some errUnexpectedEnd) /\
     Error ctx' = Some errUnexpectedEnd /\
     bytes ctx' = bytes ctx /\ mode ctx' = De) /\
  (0 <= n <= len (bytes ctx) -> Raw_grants ctx n).
Proof.
  intros Hm He. split.
  - intros Hshort. exists (with_err ctx (Some errUnexpectedEnd)).
    rewrite Raw_de_short by assumption. repeat split. exact Hm.
  - intros Hn. unfold Raw_grants.
    pose proof (Raw_de ctx (take (Z.to_nat n) (vis (bytes ctx)))
                  (drop (Z.to_nat n) (vis (bytes ctx))) Hm He) as HR.
    rewrite take_drop in HR. specialize (HR eq_refl).
    rewrite length_take in HR. unfold len in Hn.
    replace (Z.of_nat (Z.to_nat n `min` length (vis (bytes ctx)))) with n in HR by lia.
    exact HR.
Qed.

Lemma Raw_decode_window_witness :
  let ctx := NewDeserializer (Slice_ (le_bytes 3 0x030201) []) in
  (exists ctx',
     Raw ctx 4 = Ret (ctx', None, Some errUnexpectedEnd) /\
     Error ctx' = Some errUnexpectedEnd /\
     bytes ctx' = bytes ctx /\ mode ctx' = De) /\
  Raw_grants ctx 2.
Proof.
  intros ctx.
  destruct (Raw_decode_window ctx 4 eq_refl eq_refl) as [Hshort _].
  destruct (Raw_decode_window ctx 2 eq_refl eq_refl) as [_ Hgrant].
  split.
  - apply Hshort. vm_compute. reflexivity.
  - apply Hgrant. vm_compute. split; discriminate.
Defined.

(** C3, as stated, fails for a negative count: every context has at least
    [-1] bytes left, and [Raw(-1)] panics on the slice bounds instead of
    returning a window. *)
Lemma Raw_negative_count_panics :
  let ctx := NewDeserializer nil_slice in
  mode ctx = De /\ Error ctx = None /\ -1 <= len (bytes ctx) /\
  Raw ctx (-1) = Panic PanicSliceBounds /\
  ~ Raw_grants ctx (-1).
Proof.
  intros ctx. repeat split.
  - vm_compute. discriminate.
  - unfold Raw_grants. vm_compute. discriminate.
Qed.

(** A negative count reaches [Raw] from the wire: a length prefix with the
    top bit set decodes to a negative [int]. *)
Example String_negative_length_panics :
  String (NewDeserializer (Slice_ (le_bytes 8 (-1)) [])) [] = Panic PanicSliceBounds.
Proof. vm_compute. reflexivity. Qed.

(** ** C5: calls on a poisoned context *)

(** C5.  On a poisoned context every codec call returns the stored error,
    does not panic and leaves the context, hence its buffer, as it was;
    the destination is left as it was too. *)
Theorem poisoned_calls_are_noops (ctx : Ctx) (e : Err) :
  Error ctx = Some e ->
  (forall n, Raw ctx n = Ret (ctx, None, Some e)) /\
  (forall T v, exists v',
      Number T ctx v = Ret (ctx, v', Some e) /\ (in_range T v -> v' = v)) /\
  (forall s, String ctx s = Ret (ctx, s, Some e)) /\
  (forall b, Bytes ctx b = Ret (ctx, b, Some e)) /\
  (forall (T : Type) (zero : T) (f : codec T) (s : slice T),
      Slice zero f ctx s = Ret (ctx, s, Some e)) /\
  (forall (K : Type) (EqK : EqDecision K) (CK : Countable K) (V : Type)
          (order : gmap K V -> list (K * V)) (zeroK : K) (zeroV : V)
          (fK : codec K) (fV : codec V) (m : option (gmap K V)),
      Map order zeroK zeroV fK fV ctx m = Ret (ctx, m, Some e)) /\
  (forall (T : Type) (BT : BinaryMarshalerUnmarshaler T) (v : T),
      Binary ctx v = Ret (ctx, v, Some e)).
Proof.
  intros He. unfold Error in He. repeat split; intros.
  - apply Raw_poisoned, He.
  - apply Number_poisoned, He.
  - apply String_poisoned, He.
  - apply Bytes_poisoned, He.
  - apply Slice_poisoned, He.
  - apply Map_poisoned, He.
  - apply Binary_poisoned, He.
Qed.

Lemma poisoned_calls_are_noops_witness :
  let ctx := Ctx_ De (Slice_ (le_bytes 8 1) []) (Some errUnexpectedEnd) in
  Raw ctx 8 = Ret (ctx, None, Some errUnexpectedEnd) /\
  String ctx [] = Ret (ctx, [], Some errUnexpectedEnd).
Proof.
  intros ctx.
  destruct (poisoned_calls_are_noops ctx errUnexpectedEnd eq_refl)
    as (HRaw & _ & HString & _).
  split; [apply HRaw | apply HString].
Defined.

(** ** C4: the first error stays *)

Lemma run_poisoned (ctx : Ctx) (e : Err) (c : call) :
  err ctx = Some e -> c <> CallAbort None -> run c ctx = Ret ctx.
Proof.
  intros He Hc. destruct c as [n|[e'|]|T v|s|b|T z f s|K EqK CK V o zk zv fK fV m|T BT v];
    cbn [run].
  - rewrite (Raw_poisoned _ _ _ He). reflexivity.
  - rewrite (Abort_poisoned _ _ He). reflexivity.
  - congruence.
  - destruct (Number_poisoned ctx e He T v) as (v' & -> & _). reflexivity.
  - rewrite (String_poisoned _ _ He). reflexivity.
  - rewrite (Bytes_poisoned _ _ He). reflexivity.
  - rewrite (Slice_poisoned _ _ He). reflexivity.
  - rewrite (Map_poisoned _ _ He). reflexivity.
  - rewrite (Binary_poisoned _ _ He). reflexivity.
Qed.

(** C4.  Once an error is stored, no call clears or replaces it: [Abort]
    with another error returns the stored one, and after any sequence of
    calls [Error] still returns it.  [Abort] with a nil error panics and
    changes no state; it is the only way such a sequence can stop. *)
Theorem poisoning_is_monotonic (ctx : Ctx) (e : Err) :
  Error ctx = Some e ->
  (forall c : Ctx, Abort c None = Panic PanicAbortNil) /\
  (forall e' : Err, Abort ctx (Some e') = Ret (ctx, Some e)) /\
  (forall cs : list call,
      match run_all cs ctx with
      | Ret ctx' => Error ctx' = Some e
      | Panic p => p = PanicAbortNil /\ In (CallAbort None) cs
      end).
Proof.
  intros He. unfold Error in *. split; [reflexivity|]. split.
  - intros e'. apply Abort_poisoned, He.
  - intros cs. induction cs as [|c cs IH]; cbn [run_all].
    + exact He.
    + destruct c as [n|[e'|]|T v|s|b|T z f s|K EqK CK V o zk zv fK fV m|T BT v].
      3: { cbn. split; [reflexivity|]. left. reflexivity. }
      all: rewrite (run_poisoned ctx e _ He) by discriminate; cbn [bind].
      all: destruct (run_all cs ctx); [exact IH|].
      all: destruct IH as [-> Hin]; split; [reflexivity|right; exact Hin].
Qed.

Lemma poisoning_is_monotonic_witness :
  let ctx := Ctx_ De (Slice_ (le_bytes 8 1) []) (Some errUnexpectedEnd) in
  Abort ctx (Some (errOther 1)) = Ret (ctx, Some errUnexpectedEnd) /\
  match run_all [CallAbort (Some (errOther 1)); CallNumber (NInt TInt) 0;
                 CallString []; CallRaw 3] ctx with
  | Ret ctx' => Error ctx' = Some errUnexpectedEnd
  | Panic p => False
  end.
Proof.
  intros ctx.
  destruct (poisoning_is_monotonic ctx errUnexpectedEnd eq_refl) as (_ & HA & Hrun).
  split; [apply HA|].
  specialize (Hrun [CallAbort (Some (errOther 1)); CallNumber (NInt TInt) 0;
                    CallString []; CallRaw 3]).
  destruct (run_all _ ctx); [exact Hrun|].
  destruct Hrun as [_ Hin]. cbn in Hin.
  repeat (destruct Hin as [Hin|Hin]; [discriminate Hin|]). exact Hin.
Defined.

(** ** C7: floating-point bit patterns *)

(** C7.  A [float32] or [float64] value, given by its bit pattern, is
    written by [Number] as the little-endian bytes of that pattern, and
    [Number] reads those bytes back to the same bit pattern, whatever the
    pattern stands for (an infinity, a NaN with a payload). *)
Theorem float_bits_round_trip (T : numty) (pattern : Z) (ser de : Ctx)
    (rest : list byte) (v0 : Z) :
  T = TFloat32 \/ T = TFloat64 ->
  in_range T pattern ->
  mode ser = Ser -> Error ser = None -> len (bytes ser) + sizeof T < 2 ^ 63 ->
  mode de = De -> Error de = None ->
  let wire := le_bytes (Z.to_nat (sizeof T)) pattern in
  Number T ser pattern = Ret (appended ser wire, pattern, None) /\
  (vis (bytes de) = wire ++ rest ->
   Number T de v0 = Ret (unread de rest, pattern, None)).
Proof.
  intros HT Hr Hms Hes Hl Hmd Hed wire.
  assert (Hbits : to_bits T pattern = pattern).
  { unfold to_bits. destruct HT; subst T; cbn [in_range sizeof] in *;
      apply Z.mod_small; exact Hr. }
  split.
  - rewrite Number_ser by assumption. rewrite Hbits. reflexivity.
  - intros Hv. rewrite (Number_de T de v0 wire rest) by
      (try assumption; unfold wire; rewrite length_le_bytes;
       destruct HT; subst T; reflexivity).
    unfold wire. rewrite <- Hbits at 1. rewrite Number_round_trip by exact Hr.
    reflexivity.
Qed.

(** A quiet NaN with payload 1, written and read back. *)
Lemma float_bits_round_trip_witness :
  let nan := 0x7FF8000000000001 in
  let wire := le_bytes 8 nan in
  Number TFloat64 NewSerializer nan = Ret (appended NewSerializer wire, nan, None) /\
  Number TFloat64 (NewDeserializer (Slice_ wire [])) 0 =
    Ret (unread (NewDeserializer (Slice_ wire [])) [], nan, None).
Proof.
  intros nan wire.
  destruct (float_bits_round_trip TFloat64 nan NewSerializer
              (NewDeserializer (Slice_ wire [])) [] 0) as [Hs Hd].
  - right. reflexivity.
  - vm_compute. split; [discriminate | reflexivity].
  - reflexivity.
  - reflexivity.
  - vm_compute. reflexivity.
  - reflexivity.
  - reflexivity.
  - split; [exact Hs|]. apply Hd. vm_compute. reflexivity.
Defined.

Example float64_positive_infinity :
  let inf := 0x7FF0000000000000 in
  let wire := map byte_of_Z [0; 0; 0; 0; 0; 0; 0xF0; 0x7F] in
  Number TFloat64 NewSerializer inf = Ret (appended NewSerializer wire, inf, None) /\
  Number TFloat64 (NewDeserializer (Slice_ wire [])) 0 =
    Ret (NewDeserializer nil_slice, inf, None).
Proof. vm_compute. split; reflexivity. Qed.

Example float32_nan_payload :
  let nan := 0x7FC00BAD in
  let wire := map byte_of_Z [0xAD; 0x0B; 0xC0; 0x7F] in
  Number TFloat32 NewSerializer nan = Ret (appended NewSerializer wire, nan, None) /\
  Number TFloat32 (NewDeserializer (Slice_ wire [])) 0 =
    Ret (NewDeserializer nil_slice, nan, None).
Proof. vm_compute. split; reflexivity. Qed.

(** ** C2: a failing [UnmarshalBinary] *)

(** The encode path records a failing [MarshalBinary] with [Abort]. *)
Lemma Binary_marshal_failure_recorded {T} `{BinaryMarshalerUnmarshaler T}
    (ctx : Ctx) (v : T) (data : list byte) (e : Err) :
  mode ctx = Ser -> err ctx = None ->
  MarshalBinary v = (data, Some e) ->
  Binary ctx v = Ret (with_err ctx (Some e), v, Some e).
Proof.
  intros Hm He HM. unfold Binary. rewrite mode_ser by exact Hm.
  rewrite HM. unfold Abort. rewrite He. reflexivity.
Qed.

(** The decode path returns a failing [UnmarshalBinary]'s error without
    storing it: the context stays unpoisoned. *)
Lemma Binary_unmarshal_failure_dropped {T} `{BinaryMarshalerUnmarshaler T}
    (ctx : Ctx) (v v' : T) (payload rest : list byte) (e : Err) :
  mode ctx = De -> err ctx = None ->
  Z.of_nat (length payload) < 2 ^ 63 ->
  vis (bytes ctx) = le_bytes 8 (Z.of_nat (length payload)) ++ payload ++ rest ->
  UnmarshalBinary v payload = (v', Some e) ->
  Binary ctx v = Ret (unread ctx rest, v', Some e) /\
  Error (unread ctx rest) = None.
Proof.
  intros Hm He Hl Hv HU. unfold Binary. rewrite mode_de by exact Hm.
  rewrite (integer_len_de ctx 0 (Z.of_nat (length payload)) (payload ++ rest))
    by (try assumption; lia).
  cbn [bind].
  rewrite (Raw_de (unread ctx (payload ++ rest)) payload rest) by (assumption || reflexivity).
  cbn [bind wdata w_data]. rewrite HU.
  split; [reflexivity|]. exact He.
Qed.

(** C2 at the failing input: an unpoisoned deserializer over an 8-byte
    zero length prefix and a value that rejects its payload.  [Binary]
    returns the failure, yet [Error] is still nil afterwards and the next
    call runs as if nothing had happened. *)
Theorem Binary_decode_leaves_context_unpoisoned :
  let ctx := NewDeserializer (Slice_ (le_bytes 8 0 ++ le_bytes 1 7) []) in
  let ctx' := unread ctx (le_bytes 1 7) in
  Binary (H := rejecting) ctx tt = Ret (ctx', tt, Some (errOther 1)) /\
  Error ctx' = None /\
  Number (NInt TUint8) ctx' 0 = Ret (unread ctx' [], 7, None).
Proof. vm_compute. repeat split. Qed.

Example Binary_encode_poisons :
  Binary (H := unmarshalable) NewSerializer tt =
    Ret (with_err NewSerializer (Some (errOther 2)), tt, Some (errOther 2)).
Proof. vm_compute. reflexivity. Qed.

(** ** C10: a [Slice] decode never shrinks the destination *)

(** C10.  When the decoded count is at most the destination's length,
    [Slice] does not allocate: the element codec runs on the first [count]
    positions only, in order, and the destination keeps its length, its
    capacity and every element at a position at or beyond [count]. *)
Theorem Slice_decode_never_shrinks {T} (zero : T) (f : codec T) (ctx : Ctx)
    (s : slice T) (prefix rest : list byte) :
  mode ctx = De -> Error ctx = None ->
  vis (bytes ctx) = prefix ++ rest -> length prefix = 8%nat ->
  let count := int_wrap TInt (le_value prefix) in
  count <= len s ->
  Slice_allocates s count = false /\
  Slice zero f ctx s =
    (let* (ctx', head, e) :=
       each_in_order f (take (Z.to_nat count) (vis s)) (unread ctx rest) in
     Ret (ctx', Slice_ (head ++ drop (Z.to_nat count) (vis s)) (spare s), e)) /\
  (forall ctx' s' e,
      Slice zero f ctx s = Ret (ctx', s', e) ->
      len s' = len s /\ cap s' = cap s /\
      forall j, (Z.to_nat count <= j)%nat -> vis s' !! j = vis s !! j).
Proof.
  intros Hm He Hv Hp count Hc.
  assert (Hint : integer TInt ctx (len s) = Ret (unread ctx rest, count, None)).
  { apply integer_de_wrap; [exact Hm | exact He | exact Hv | rewrite Hp; reflexivity]. }
  assert (Hno : Slice_allocates s count = false).
  { unfold Slice_allocates. apply Z.ltb_ge. exact Hc. }
  pose proof (Slice_after_count zero f ctx _ s count Hint) as HS.
  rewrite Hno in HS. split; [exact Hno|]. split; [exact HS|].
  intros ctx' s' e Hret. rewrite HS in Hret.
  destruct (each_in_order f (take (Z.to_nat count) (vis s)) (unread ctx rest))
    as [[[c head] e0]|p] eqn:E; cbn [bind] in Hret; [|discriminate].
  injection Hret as <- <- <-.
  apply each_in_order_length in E. rewrite length_take in E.
  unfold len, cap, backing in *. cbn [vis spare].
  assert (Hlen : length head = Z.to_nat count) by lia.
  assert (Htot : length (head ++ drop (Z.to_nat count) (vis s)) = length (vis s))
    by list_len.
  repeat split.
  - rewrite Htot. reflexivity.
  - rewrite (length_app _ (spare s)), Htot, length_app. reflexivity.
  - intros j Hj. rewrite lookup_app_r by lia.
    rewrite lookup_drop. f_equal. lia.
Qed.

Lemma Slice_decode_never_shrinks_witness :
  let ctx := NewDeserializer (Slice_ (le_bytes 8 1 ++ le_bytes 1 9) []) in
  let s := Slice_ [5; 6; 7] [] in
  Slice 0 (Number (NInt TUint8)) ctx s =
    Ret (NewDeserializer nil_slice, Slice_ [9; 6; 7] [], None).
Proof.
  intros ctx s.
  destruct (Slice_decode_never_shrinks 0 (Number (NInt TUint8)) ctx s
              (le_bytes 8 1) (le_bytes 1 9) eq_refl eq_refl eq_refl eq_refl)
    as (_ & HS & _).
  - vm_compute. discriminate.
  - rewrite HS. vm_compute. reflexivity.
Defined.

(** ** C6: when a [Slice] decode allocates *)




(** The test of [Slice] is on the length: a destination of length 0 and
    capacity 2 is given new storage for a count of 1 as well. *)
Example Slice_decode_allocates_on_length :
  let ctx := NewDeserializer (Slice_ (le_bytes 8 1 ++ le_bytes 1 9) []) in
  let s := Slice_ [] [5; 6] in
  cap s = 2 /\ Slice_allocates s 1 = true /\
  Slice 0 (Number (NInt TUint8)) ctx s =
    Ret (NewDeserializer nil_slice, Slice_ [9] [], None).
Proof. intros ctx s. vm_compute. repeat split. Qed.

(** ** C9: the destination of a [Bytes] decode *)

(** C9.  Every successful [Bytes] decode read an 8-byte length [n] and
    [n] payload bytes.  The destination is replaced by fresh storage only
    when its capacity is below [n].  Otherwise it keeps its length and its
    capacity, and the payload lies at the start of its backing array: a
    shorter destination shows only the first bytes of the payload, a
    longer one keeps its old elements behind the payload. *)
Theorem Bytes_decode_keeps_length (ctx ctx' : Ctx) (dst dst' : slice byte) :
  mode ctx = De -> Error ctx = None ->
  Bytes ctx dst = Ret (ctx', dst', None) ->
  exists payload rest,
    let n := Z.of_nat (length payload) in
    vis (bytes ctx) = le_bytes 8 n ++ payload ++ rest /\
    ctx' = unread ctx rest /\
    (Bytes_allocates dst n = true <-> cap dst < n) /\
    (cap dst < n -> dst' = Slice_ payload []) /\
    (n <= cap dst ->
     len dst' = len dst /\ cap dst' = cap dst /\
     backing dst' = payload ++ drop (length payload) (backing dst) /\
     (len dst <= n -> vis dst' = take (length (vis dst)) payload) /\
     (n <= len dst -> vis dst' = payload ++ drop (length payload) (vis dst))).
Proof.
  intros Hm He Hret. unfold Error in He.
  assert (Hshape : exists data rest,
             Z.of_nat (length data) < 2 ^ 63 /\
             vis (bytes ctx) = le_bytes 8 (Z.of_nat (length data)) ++ data ++ rest).
  { unfold Bytes in Hret.
    destruct (integer TInt ctx (len dst)) as [[[ctx1 n] e1]|p] eqn:Hint;
      cbn [bind] in Hret; [|discriminate].
    destruct e1 as [e1|]; [discriminate|].
    destruct (Raw ctx1 n) as [[[ctx2 w] e2]|p] eqn:HR; cbn [bind] in Hret;
      [|discriminate].
    destruct e2 as [e2|]; [discriminate|].
    destruct (payload_de_shape ctx ctx1 ctx2 _ n w Hm He Hint HR)
      as (data & rest & Hn & Hb & Hv).
    exists data, rest. rewrite <- Hn. split; assumption. }
  destruct Hshape as (payload & rest & Hb & Hv).
  exists payload, rest. intros n.
  rewrite (Bytes_de ctx dst payload rest Hm He Hb Hv) in Hret.
  injection Hret as <- <-. fold n.
  assert (Hiff : Bytes_allocates dst n = true <-> cap dst < n).
  { unfold Bytes_allocates. apply Z.ltb_lt. }
  split; [exact Hv|]. split; [reflexivity|]. split; [exact Hiff|]. split.
  - intros Hcap. rewrite (proj2 Hiff Hcap). reflexivity.
  - intros Hcap.
    replace (Bytes_allocates dst n) with false
      by (symmetry; unfold Bytes_allocates; apply Z.ltb_ge; exact Hcap).
    cbn zeta. unfold len, cap, backing in *. cbn [vis spare]. subst n.
    rewrite take_drop. rewrite length_app in Hcap.
    assert (Htot : length (payload ++ drop (length payload) (vis dst ++ spare dst))
                   = length (vis dst ++ spare dst)) by list_len.
    assert (Hle : (length (vis dst) <= length (vis dst ++ spare dst))%nat) by list_len.
    repeat split.
    + rewrite length_take, Htot. lia.
    + rewrite Htot. reflexivity.
    + intros Hshort. rewrite take_app_le by lia. reflexivity.
    + intros Hlong. rewrite drop_app_le by lia.
      rewrite app_assoc, take_app_length'; [reflexivity|].
      rewrite length_app, length_drop. lia.
Qed.

Lemma Bytes_decode_keeps_length_witness :
  let ctx := NewDeserializer (Slice_ (le_bytes 8 2 ++ le_bytes 3 0x090807) []) in
  let dst := Slice_ (le_bytes 1 1) (le_bytes 2 0x0302) in
  let dst' := Slice_ (le_bytes 1 7) (le_bytes 2 0x0308) in
  Bytes ctx dst = Ret (unread ctx (le_bytes 1 9), dst', None) /\
  exists payload rest,
    vis (bytes ctx) = le_bytes 8 (Z.of_nat (length payload)) ++ payload ++ rest /\
    (Z.of_nat (length payload) <= cap dst -> len dst' = len dst /\ cap dst' = cap dst).
Proof.
  intros ctx dst dst'.
  assert (Hrun : Bytes ctx dst = Ret (unread ctx (le_bytes 1 9), dst', None))
    by (vm_compute; reflexivity).
  split; [exact Hrun|].
  destruct (Bytes_decode_keeps_length ctx _ dst dst' eq_refl eq_refl Hrun)
    as (payload & rest & Hv & _ & _ & _ & Hkeep).
  exists payload, rest. split; [exact Hv|].
  intros Hcap. destruct (Hkeep Hcap) as (Hl & Hc & _). split; assumption.
Defined.

(** The length after a successful decode can differ from the prefix: a
    longer destination keeps its extra element, a shorter one with enough
    capacity hides the tail of the payload. *)
Example Bytes_decode_longer_destination :
  Bytes (NewDeserializer (Slice_ (le_bytes 8 2 ++ le_bytes 2 0x0807) []))
        (Slice_ (le_bytes 3 0x030201) []) =
    Ret (NewDeserializer nil_slice, Slice_ (le_bytes 3 0x030807) [], None).
Proof. vm_compute. reflexivity. Qed.

Example Bytes_decode_shorter_destination :
  Bytes (NewDeserializer (Slice_ (le_bytes 8 2 ++ le_bytes 2 0x0807) []))
        (Slice_ (le_bytes 1 1) (le_bytes 2 0x0302)) =
    Ret (NewDeserializer nil_slice, Slice_ (le_bytes 1 7) (le_bytes 2 0x0308), None).
Proof. vm_compute. reflexivity. Qed.

(** ** C8: the length prefix *)

Lemma Slice_ser_prefix {T} (zero : T) (f : codec T) (ctx : Ctx) (s : slice T) :
  mode ctx = Ser -> err ctx = None -> len (bytes ctx) + 8 < 2 ^ 63 ->
  Slice zero f ctx s =
    (let* (ctx', elems, e) :=
       each_in_order f (vis s) (appended ctx (le_bytes 8 (len s))) in
     Ret (ctx', Slice_ elems (spare s), e)).
Proof.
  intros Hm He Hl.
  rewrite (Slice_after_count zero f ctx _ s (len s) (integer_len_ser ctx _ Hm He Hl)).
  unfold Slice_allocates. rewrite Z.ltb_irrefl. unfold len.
  rewrite Nat2Z.id, firstn_all, drop_all.
  destruct (each_in_order f (vis s) _) as [[[ctx' elems] e]|p]; cbn [bind];
    [|reflexivity].
  rewrite app_nil_r. reflexivity.
Qed.

Lemma Map_ser_prefix {K} `{Countable K} {V} (order : gmap K V -> list (K * V))
    (zeroK : K) (zeroV : V) (fK : codec K) (fV : codec V)
    (ctx : Ctx) (m : option (gmap K V)) :
  mode ctx = Ser -> err ctx = None -> len (bytes ctx) + 8 < 2 ^ 63 ->
  Map order zeroK zeroV fK fV ctx m =
    (let* (ctx', e) :=
       Map_write fK fV (map_range order m) (appended ctx (le_bytes 8 (map_len m))) in
     Ret (ctx', m, e)).
Proof.
  intros Hm He Hl. unfold Map.
  rewrite (integer_len_ser ctx _ Hm He Hl). cbn [bind].
  rewrite mode_ser by exact Hm. reflexivity.
Qed.

(** C8.  On an unpoisoned serializer each of [String], [Bytes], [Slice],
    [Map] and [Binary] first appends 8 bytes, the unsigned little-endian
    encoding of the byte or element count; the payload bytes, or the
    encodings that the element codecs produce, follow. *)
Theorem length_prefix_is_8_bytes_little_endian (ctx : Ctx) :
  mode ctx = Ser -> Error ctx = None -> len (bytes ctx) + 8 < 2 ^ 63 ->
  (forall n, length (le_bytes 8 n) = 8%nat /\
             (0 <= n < 2 ^ 63 -> le_value (le_bytes 8 n) = n)) /\
  (forall s : list byte,
      len (bytes ctx) + 8 + Z.of_nat (length s) < 2 ^ 63 ->
      String ctx s =
        Ret (appended ctx (le_bytes 8 (Z.of_nat (length s)) ++ s), s, None)) /\
  (forall b : slice byte,
      len (bytes ctx) + 8 + len b < 2 ^ 63 ->
      Bytes ctx b = Ret (appended ctx (le_bytes 8 (len b) ++ vis b), b, None)) /\
  (forall (T : Type) (zero : T) (f : codec T) (s : slice T),
      Slice zero f ctx s =
        (let* (ctx', elems, e) :=
           each_in_order f (vis s) (appended ctx (le_bytes 8 (len s))) in
         Ret (ctx', Slice_ elems (spare s), e))) /\
  (forall (K : Type) (EqK : EqDecision K) (CK : Countable K) (V : Type)
          (order : gmap K V -> list (K * V)) (zeroK : K) (zeroV : V)
          (fK : codec K) (fV : codec V) (m : option (gmap K V)),
      Map order zeroK zeroV fK fV ctx m =
        (let* (ctx', e) :=
           Map_write fK fV (map_range order m)
             (appended ctx (le_bytes 8 (map_len m))) in
         Ret (ctx', m, e))) /\
  (forall (T : Type) (BT : BinaryMarshalerUnmarshaler T) (v : T) (data : list byte),
      MarshalBinary v = (data, None) ->
      len (bytes ctx) + 8 + Z.of_nat (length data) < 2 ^ 63 ->
      Binary ctx v =
        Ret (appended ctx (le_bytes 8 (Z.of_nat (length data)) ++ data), v, None)).
Proof.
  intros Hm He Hl. unfold Error in He.
  split; [intros n; split; [apply length_le_bytes|]|].
  - intros Hn. exact (proj1 (le_value_len _ Hn)).
  - split; [|split; [|split; [|split]]].
    + intros s Hs. apply String_ser; assumption.
    + intros b Hb. apply Bytes_ser; assumption.
    + intros T zero f s. apply Slice_ser_prefix; assumption.
    + intros K EqK CK V order zeroK zeroV fK fV m.
      apply Map_ser_prefix; assumption.
    + intros T BT v data HM Hd. eapply Binary_ser; eassumption.
Qed.

Lemma length_prefix_is_8_bytes_little_endian_witness :
  String NewSerializer (le_bytes 1 0x41) =
    Ret (appended NewSerializer (le_bytes 8 1 ++ le_bytes 1 0x41), le_bytes 1 0x41, None) /\
  Slice 0 (Number (NInt TUint16)) NewSerializer (Slice_ [258; 772] []) =
    Ret (appended NewSerializer (le_bytes 8 2 ++ le_bytes 2 258 ++ le_bytes 2 772),
         Slice_ [258; 772] [], None).
Proof.
  destruct (length_prefix_is_8_bytes_little_endian NewSerializer eq_refl eq_refl)
    as (_ & HString & _ & HSlice & _).
  - vm_compute. reflexivity.
  - split.
    + apply HString. vm_compute. reflexivity.
    + rewrite HSlice. vm_compute. reflexivity.
Defined.

(** The spec's scenarios: a string "A" followed by the 8-byte integer 1,
    and an empty sequence. *)
Example scenario_string_then_uint64 :
  (let* (ctx1, _, _) := String NewSerializer (le_bytes 1 0x41) in
   let* (ctx2, _, _) := Number (NInt TUint64) ctx1 1 in
   Ret (vis (CtxBytes ctx2))) =
  Ret (map byte_of_Z [1; 0; 0; 0; 0; 0; 0; 0; 0x41; 1; 0; 0; 0; 0; 0; 0; 0]).
Proof. vm_compute. reflexivity. Qed.

Example scenario_empty_sequence :
  Slice [] String NewSerializer nil_slice =
    Ret (appended NewSerializer (map byte_of_Z [0; 0; 0; 0; 0; 0; 0; 0]), nil_slice, None) /\
  Slice [] String (NewDeserializer (Slice_ (le_bytes 8 0) [])) nil_slice =
    Ret (NewDeserializer nil_slice, nil_slice, None).
Proof. vm_compute. split; reflexivity. Qed.

(** ** C1: round trips *)

Lemma appended_nil (ctx : Ctx) : appended ctx [] = ctx.
Proof.
  destruct ctx as [m [v sp] e]. unfold appended, with_bytes.
  cbn [bytes vis spare mode err length]. rewrite app_nil_r, drop_0. reflexivity.
Qed.

Lemma unread_same (ctx : Ctx) (r : list byte) :
  vis (bytes ctx) = r -> unread ctx r = ctx.
Proof. intros <-. destruct ctx as [m [v sp] e]. reflexivity. Qed.

Lemma Number_wire (t : numty) (v : Z) :
  in_range t v ->
  Wire (Number t) 0 eq v (le_bytes (Z.to_nat (sizeof t)) (to_bits t v)).
Proof.
  intros Hr. assert (Hs : 1 <= sizeof t <= 8) by (destruct t as [[]| |]; cbn; lia).
  split.
  - intros ser Hm He Hl. rewrite length_le_bytes in Hl.
    apply Number_ser; try assumption. lia.
  - intros de rest Hm He Hv. exists v. split; [|reflexivity].
    rewrite (Number_de t de 0 _ rest Hm He Hv) by (rewrite length_le_bytes; lia).
    rewrite Number_round_trip by exact Hr. reflexivity.
Qed.

Lemma String_wire (s : list byte) :
  string_ok s -> Wire String [] eq s (le_bytes 8 (Z.of_nat (length s)) ++ s).
Proof.
  intros Hs. split.
  - intros ser Hm He Hl. rewrite length_app, length_le_bytes in Hl.
    apply String_ser; try assumption. lia.
  - intros de rest Hm He Hv. exists s. split; [|reflexivity].
    rewrite <- app_assoc in Hv. apply String_de; assumption.
Qed.

Lemma Bytes_wire (b : slice byte) :
  len b < 2 ^ 63 ->
  Wire Bytes nil_slice (same_elements eq) b (le_bytes 8 (len b) ++ vis b).
Proof.
  intros Hb. split.
  - intros ser Hm He Hl. rewrite length_app, length_le_bytes in Hl.
    apply Bytes_ser; try assumption. unfold len in *. lia.
  - intros de rest Hm He Hv. rewrite <- app_assoc in Hv.
    rewrite (Bytes_de de nil_slice (vis b) rest Hm He Hb Hv).
    eexists. split; [reflexivity|].
    unfold same_elements. apply list_eq_Forall2.
    destruct (Bytes_allocates nil_slice (Z.of_nat (length (vis b)))) eqn:Ha;
      [reflexivity|].
    unfold Bytes_allocates, cap, backing in Ha. cbn in Ha.
    apply Z.ltb_ge in Ha. destruct (vis b); [reflexivity|cbn in Ha; lia].
Qed.

Lemma each_in_order_ser {T} (f : codec T) (zero : T) (E : T -> T -> Prop)
    (xs : list T) (ws : list (list byte)) (ctx : Ctx) :
  Forall2 (Wire f zero E) xs ws ->
  mode ctx = Ser -> err ctx = None ->
  len (bytes ctx) + Z.of_nat (length (concat ws)) < 2 ^ 63 ->
  each_in_order f xs ctx = Ret (appended ctx (concat ws), xs, None).
Proof.
  intros HF. revert ctx. induction HF as [|x w xs ws [Hser _] _ IH];
    intros ctx Hm He Hl.
  - cbn. rewrite appended_nil. reflexivity.
  - cbn [each_in_order concat] in *. rewrite length_app in Hl.
    rewrite (Hser ctx Hm He) by lia. cbn [bind].
    rewrite IH by (rewrite ?appended_len; assumption || lia).
    cbn [bind]. rewrite appended_app. reflexivity.
Qed.

Lemma each_in_order_de {T} (f : codec T) (zero : T) (E : T -> T -> Prop)
    (xs : list T) (ws : list (list byte)) (ctx : Ctx) (rest : list byte) :
  Forall2 (Wire f zero E) xs ws ->
  mode ctx = De -> err ctx = None ->
  vis (bytes ctx) = concat ws ++ rest ->
  exists xs',
    each_in_order f (replicate (length xs) zero) ctx = Ret (unread ctx rest, xs', None) /\
    Forall2 E xs' xs.
Proof.
  intros HF. revert ctx. induction HF as [|x w xs ws [_ Hde] _ IH];
    intros ctx Hm He Hv.
  - exists []. cbn in *. rewrite unread_same by exact Hv. split; constructor.
  - cbn [concat] in Hv. rewrite <- app_assoc in Hv.
    destruct (Hde ctx _ Hm He Hv) as (x' & Hx & HE).
    destruct (IH (unread ctx (concat ws ++ rest)) Hm He eq_refl) as (xs' & Hxs & HEs).
    exists (x' :: xs'). cbn [length replicate each_in_order].
    rewrite Hx. cbn [bind]. rewrite Hxs. cbn [bind].
    split; [reflexivity|]. constructor; assumption.
Qed.

Lemma wires_exist {T} (f : codec T) (zero : T) (P : T -> Prop) (E : T -> T -> Prop)
    (xs : list T) :
  RoundTrips f zero P E -> Forall P xs -> exists ws, Forall2 (Wire f zero E) xs ws.
Proof.
  intros HRT HP. induction HP as [|x xs Hx _ [ws IH]].
  - exists []. constructor.
  - destruct (HRT x Hx) as [w Hw]. exists (w :: ws). constructor; assumption.
Qed.

Lemma Slice_wire {T} (f : codec T) (zero : T) (E : T -> T -> Prop)
    (s : slice T) (ws : list (list byte)) :
  len s < 2 ^ 63 ->
  Forall2 (Wire f zero E) (vis s) ws ->
  Wire (Slice zero f) nil_slice (same_elements E) s (le_bytes 8 (len s) ++ concat ws).
Proof.
  intros Hs HF. split.
  - intros ser Hm He Hl. rewrite length_app, length_le_bytes in Hl.
    rewrite Slice_ser_prefix by (assumption || lia).
    rewrite (each_in_order_ser f zero E _ ws) by
      (rewrite ?appended_len, ?length_le_bytes; assumption || lia).
    cbn [bind]. rewrite appended_app. destruct s. reflexivity.
  - intros de rest Hm He Hv. rewrite <- app_assoc in Hv.
    assert (Hint : integer TInt de (len (@nil_slice T)) =
                   Ret (unread de (concat ws ++ rest), len s, None)).
    { apply integer_len_de; try assumption. unfold len in *. lia. }
    rewrite (Slice_after_count zero f de _ nil_slice (len s) Hint).
    destruct (each_in_order_de f zero E (vis s) ws (unread de (concat ws ++ rest)) rest
                HF Hm He eq_refl) as (xs' & Hxs & HE).
    rewrite unread_unread in Hxs.
    unfold Slice_allocates, same_elements, len in *. cbn [vis spare nil_slice length].
    rewrite Nat2Z.id, Nat.sub_0_r.
    destruct (Z.ltb_spec (Z.of_nat 0) (Z.of_nat (length (vis s)))) as [Hpos|Hzero].
    + cbn [app]. rewrite Hxs. cbn [bind]. eexists. split; [reflexivity|exact HE].
    + destruct (vis s) as [|x xs]; [|cbn in Hzero; lia].
      inversion HF; subst ws. cbn. eexists. split; [reflexivity|]. constructor.
Qed.

Lemma Fields2_wire {A B} (fa : codec A) (za : A) (Ea : A -> A -> Prop)
    (fb : codec B) (zb : B) (Eb : B -> B -> Prop)
    (a : A) (b : B) (wa wb : list byte) :
  Wire fa za Ea a wa -> Wire fb zb Eb b wb ->
  Wire (Fields2 fa fb) (za, zb)
    (fun p q => Ea (fst p) (fst q) /\ Eb (snd p) (snd q)) (a, b) (wa ++ wb).
Proof.
  intros [Has Had] [Hbs Hbd]. split.
  - intros ser Hm He Hl. rewrite length_app in Hl. unfold Fields2. cbn [fst snd].
    rewrite (Has ser Hm He) by lia. cbn [bind].
    rewrite (Hbs (appended ser wa) Hm He) by (rewrite appended_len; lia).
    cbn [bind]. rewrite appended_app. unfold Error in *.
    rewrite appended_err, He. reflexivity.
  - intros de rest Hm He Hv. rewrite <- app_assoc in Hv. unfold Fields2. cbn [fst snd].
    destruct (Had de _ Hm He Hv) as (a' & Ha & HEa). rewrite Ha. cbn [bind].
    destruct (Hbd (unread de (wb ++ rest)) rest Hm He eq_refl) as (b' & Hb & HEb).
    rewrite Hb. cbn [bind]. rewrite unread_unread.
    exists (a', b'). unfold Error in *. rewrite unread_err, He.
    split; [reflexivity|]. split; assumption.
Qed.

Section MapRoundTrip.
Context {K : Type} `{Countable K} {V : Type}.
Variable order : gmap K V -> list (K * V).
Variable zeroK : K.
Variable zeroV : V.
Variable fK : codec K.
Variable fV : codec V.
Variable EV : V -> V -> Prop.
Hypothesis order_perm : forall g, order g ≡ₚ map_to_list g.

Lemma Map_write_ser (l : list (K * V)) (ws : list (list byte)) (ctx : Ctx) :
  Forall2 (entry_wire fK zeroK fV zeroV EV) l ws ->
  mode ctx = Ser -> err ctx = None ->
  len (bytes ctx) + Z.of_nat (length (concat ws)) < 2 ^ 63 ->
  Map_write fK fV l ctx = Ret (appended ctx (concat ws), None).
Proof.
  intros HF. revert ctx.
  induction HF as [|[k v] w l ws (wk & wv & -> & [Hk _] & [Hv _]) _ IH];
    intros ctx Hm He Hl.
  - cbn. rewrite appended_nil. reflexivity.
  - cbn [Map_write concat fst snd] in *. rewrite !length_app in Hl.
    rewrite (Hk ctx Hm He) by lia. cbn [bind].
    rewrite (Hv (appended ctx wk) Hm He) by (rewrite appended_len; lia). cbn [bind].
    rewrite IH by (rewrite ?appended_len; assumption || lia).
    rewrite !appended_app, <- app_assoc. reflexivity.
Qed.

Lemma Map_read_de (l : list (K * V)) (ws : list (list byte)) (ctx : Ctx)
    (rest : list byte) (g : gmap K V) :
  Forall2 (entry_wire fK zeroK fV zeroV EV) l ws ->
  mode ctx = De -> err ctx = None ->
  vis (bytes ctx) = concat ws ++ rest ->
  exists l',
    Map_read zeroK zeroV fK fV (length l) ctx g =
      Ret (unread ctx rest, insert_all l' g, None) /\
    Forall2 (entry_related EV) l' l.
Proof.
  intros HF. revert ctx g.
  induction HF as [|[k v] w l ws (wk & wv & -> & [_ Hk] & [_ Hv]) _ IH];
    intros ctx g Hm He Hvis.
  - exists []. cbn in *. rewrite unread_same by exact Hvis. split; constructor.
  - cbn [concat fst snd] in *. rewrite <- !app_assoc in Hvis.
    destruct (Hk ctx _ Hm He Hvis) as (k' & Hk' & ->).
    destruct (Hv (unread ctx (wv ++ concat ws ++ rest)) _ Hm He eq_refl)
      as (v' & Hv' & HE).
    rewrite unread_unread in Hv'.
    destruct (IH (unread ctx (concat ws ++ rest)) (<[k := v']> g) Hm He eq_refl)
      as (l' & Hl' & HR).
    rewrite unread_unread in Hl'.
    exists ((k, v') :: l'). cbn [length Map_read insert_all].
    rewrite Hk'. cbn [bind]. rewrite Hv'. cbn [bind]. rewrite Hl'.
    split; [reflexivity|]. constructor; [split; [reflexivity|exact HE]|exact HR].
Qed.

Lemma insert_all_related (l' l : list (K * V)) (g' g : gmap K V) :
  Forall2 (entry_related EV) l' l ->
  (forall k, option_Forall2 EV (g' !! k) (g !! k)) ->
  forall k, option_Forall2 EV (insert_all l' g' !! k) (insert_all l g !! k).
Proof.
  intros HF. revert g' g.
  induction HF as [|[k1 v1] [k2 v2] l' l [Hk Hv] _ IH]; intros g' g Hg k.
  - apply Hg.
  - cbn [insert_all fst snd] in *. subst k2. apply IH. intros j.
    destruct (decide (k1 = j)) as [->|Hne].
    + rewrite !lookup_insert_eq. constructor. exact Hv.
    + rewrite !lookup_insert_ne by exact Hne. apply Hg.
Qed.

Lemma insert_all_list_to_map (l : list (K * V)) (g : gmap K V) :
  NoDup (l.*1) -> insert_all l g = list_to_map l ∪ g.
Proof.
  revert g. induction l as [|[k v] l IH]; intros g Hnd.
  - cbn. rewrite (left_id_L ∅ (∪)). reflexivity.
  - cbn [insert_all list_to_map foldr fst snd fmap list_fmap] in *.
    apply NoDup_cons in Hnd as [Hk Hnd].
    rewrite IH by exact Hnd.
    rewrite <- insert_union_r by (apply not_elem_of_list_to_map_1; exact Hk).
    rewrite insert_union_l. reflexivity.
Qed.

Lemma insert_all_order (g : gmap K V) : insert_all (order g) ∅ = g.
Proof.
  assert (Hnd : NoDup ((order g).*1)).
  { rewrite (order_perm g). apply NoDup_fst_map_to_list. }
  rewrite insert_all_list_to_map by exact Hnd.
  rewrite (right_id_L ∅ (∪)).
  rewrite (list_to_map_proper (order g) (map_to_list g) Hnd (order_perm g)).
  apply list_to_map_to_list.
Qed.

Lemma entry_wires_exist (PK : K -> Prop) (PV : V -> Prop) (l : list (K * V)) :
  RoundTrips fK zeroK PK eq -> RoundTrips fV zeroV PV EV ->
  Forall (fun kv => PK (fst kv) /\ PV (snd kv)) l ->
  exists ws, Forall2 (entry_wire fK zeroK fV zeroV EV) l ws.
Proof.
  intros HK HV HP. induction HP as [|[k v] l [Hk Hv] _ [ws IH]].
  - exists []. constructor.
  - destruct (HK k Hk) as [wk Hwk]. destruct (HV v Hv) as [wv Hwv].
    exists ((wk ++ wv) :: ws). constructor; [|exact IH].
    exists wk, wv. repeat split; first [apply Hwk | apply Hwv].
Qed.

Lemma Map_wire (m : option (gmap K V)) (ws : list (list byte)) :
  Z.of_nat (size (entries m)) < 2 ^ 63 ->
  Forall2 (entry_wire fK zeroK fV zeroV EV) (map_range order m) ws ->
  Wire (Map order zeroK zeroV fK fV) None (same_entries EV) m
    (le_bytes 8 (map_len m) ++ concat ws).
Proof.
  intros Hsz HF.
  assert (Hlen : Z.of_nat (length (map_range order m)) = map_len m).
  { destruct m as [g|]; [|reflexivity]. cbn [map_range map_len].
    rewrite (order_perm g), length_map_to_list. reflexivity. }
  assert (Hml : 0 <= map_len m < 2 ^ 63).
  { destruct m as [g|]; cbn [map_len entries] in *; [lia|].
    split; [lia|reflexivity]. }
  split.
  - intros ser Hm He Hl. rewrite length_app, length_le_bytes in Hl.
    rewrite Map_ser_prefix by (assumption || lia).
    rewrite (Map_write_ser _ ws) by
      (rewrite ?appended_len, ?length_le_bytes; assumption || lia).
    cbn [bind]. rewrite appended_app. reflexivity.
  - intros de rest Hm He Hv. rewrite <- app_assoc in Hv.
    unfold Map.
    rewrite (integer_len_de de _ (map_len m) (concat ws ++ rest) Hm He Hv Hml).
    cbn [bind]. rewrite mode_de by exact Hm.
    destruct (Map_read_de _ ws (unread de (concat ws ++ rest)) rest ∅ HF Hm He eq_refl)
      as (l' & Hl' & HR).
    rewrite unread_unread in Hl'.
    rewrite <- Hlen, Nat2Z.id, Hl'. cbn [bind].
    eexists. split; [reflexivity|].
    intros k. cbn [entries].
    pose proof (insert_all_related l' _ ∅ ∅ HR) as Hrel.
    destruct m as [g|]; cbn [map_range entries] in *.
    + replace (g !! k) with (insert_all (order g) ∅ !! k)
        by (rewrite insert_all_order; reflexivity).
      apply Hrel.
      intros j. rewrite lookup_empty. constructor.
    + inversion HR; subst l'. cbn. rewrite lookup_empty. constructor.
Qed.

End MapRoundTrip.

Lemma SupportedKey_round_trips (K : Type) (f : codec K) (zero : K) (P : K -> Prop) :
  SupportedKey K f zero P -> RoundTrips f zero P eq.
Proof.
  intros [t|]; intros v Hv.
  - eexists. apply Number_wire. exact Hv.
  - eexists. apply String_wire. exact Hv.
Qed.

(** C1.  Every supported value [v] has an encoding: the codec appends it
    to a serializer, and the same codec, run on a deserializer over that
    encoding (whatever follows it) with a zero-valued destination, consumes
    exactly the encoding and rebuilds [v]: numbers and strings equal,
    slices equal position by position, maps with the same entries
    whatever the order in which they were written. *)
Theorem supported_values_round_trip (T : Type) (f : codec T) (zero : T) (P : T -> Prop)
    (E : T -> T -> Prop) :
  Supported T f zero P E -> RoundTrips f zero P E.
Proof.
  induction 1 as [t| | |T f zero P E _ IH
                 |K EqK CK V order fK zeroK PK fV zeroV PV EV Hord HK _ IHV
                 |A B fa za Pa Ea fb zb Pb Eb _ IHa _ IHb]; intros v Hv.
  - eexists. apply Number_wire. exact Hv.
  - eexists. apply String_wire. exact Hv.
  - eexists. apply Bytes_wire. apply Hv.
  - destruct Hv as [Hl HP].
    destruct (wires_exist f zero P E (vis v) IH HP) as [ws Hws].
    eexists. apply Slice_wire; eassumption.
  - destruct Hv as [Hsz HP].
    assert (HF : Forall (fun kv => PK (fst kv) /\ PV (snd kv)) (map_range order v)).
    { destruct v as [g|]; cbn [map_range entries] in *; [|constructor].
      rewrite (Hord g). apply map_Forall_to_list in HP.
      eapply Forall_impl; [exact HP|]. intros [k x]. cbn. tauto. }
    destruct (entry_wires_exist zeroK zeroV fK fV EV PK PV _
                (SupportedKey_round_trips _ _ _ _ HK) IHV HF) as [ws Hws].
    eexists. apply Map_wire; eassumption.
  - destruct v as [a b]. destruct Hv as [Ha Hb]. cbn [fst snd] in *.
    destruct (IHa a Ha) as [wa Hwa]. destruct (IHb b Hb) as [wb Hwb].
    eexists. apply Fields2_wire; eassumption.
Qed.

Lemma supported_values_round_trip_witness :
  RoundTrips (Slice [] String) nil_slice (slice_ok string_ok) (same_elements eq) /\
  exists zero P E,
    RoundTrips (Fields5 map_to_list) zero P E /\
    P (le_bytes 5 0x73656D614A,
       (25, (0x3FFB333333333333,
             (Slice_ [le_bytes 3 0x313233] [], Some {[ le_bytes 1 0x74 := 1 ]})))).
Proof.
  split.
  - apply supported_values_round_trip. apply SupSlice, SupString.
  - do 3 eexists. split.
    + apply supported_values_round_trip. unfold Fields5.
      apply SupFields2; [apply SupString|].
      apply SupFields2; [apply SupNumber|].
      apply SupFields2; [apply SupNumber|].
      apply SupFields2; [apply SupSlice, SupString|].
      apply SupMap; [reflexivity | apply KeyString | apply SupNumber].
    + cbn [fst snd]. split; [vm_compute; reflexivity|].
      split; [vm_compute; split; congruence|].
      split; [vm_compute; split; congruence|].
      split.
      * split; [vm_compute; reflexivity|].
        cbn [vis]. constructor; [vm_compute; reflexivity|constructor].
      * split; cbn [entries].
        -- rewrite map_size_singleton. vm_compute. reflexivity.
        -- apply map_Forall_singleton.
           split; [vm_compute; reflexivity|vm_compute; split; congruence].
Defined.

Example map_round_trip :
  let m : option (gmap Z Z) := Some (<[1 := 10]> (<[2 := 20]> ∅)) in
  let f := Map map_to_list 0 0 (Number (NInt TUint8)) (Number (NInt TInt16)) in
  (let* (ser, _, _) := f NewSerializer m in
   let* (de, m', e) := f (NewDeserializer (CtxBytes ser)) None in
   Ret (vis (CtxBytes ser), vis (CtxBytes de), map_to_list (entries m'), e)) =
  Ret (map byte_of_Z [2; 0; 0; 0; 0; 0; 0; 0; 2; 20; 0; 1; 10; 0], [],
       map_to_list (entries m), None).
Proof. vm_compute. reflexivity. Qed.

(** * Further properties of the code *)

(** ** [Raw] on a serializer *)

(** The window of a serializer, with its stale contents spelled out:
    zeros after a reallocation, otherwise the bytes that the backing array
    held behind the length. *)
Lemma Raw_ser_window (ctx : Ctx) (n : Z) :
  mode ctx = Ser -> err ctx = None ->
  0 <= n -> len (bytes ctx) + n < 2 ^ 63 ->
  let stale := if cap (bytes ctx) <? len (bytes ctx) + n
               then replicate (Z.to_nat n) x00
               else take (Z.to_nat n) (spare (bytes ctx)) in
  length stale = Z.to_nat n /\
  Raw ctx n = Ret (appended ctx stale,
                   Some (Window (length (vis (bytes ctx))) stale), None).
Proof.
  intros Hm He Hn Hl. unfold Raw. rewrite He, (mode_ser _ Hm).
  destruct ctx as [m [v sp] e]. cbn [bytes mode err] in *.
  unfold len, cap, backing in *. cbn [vis spare] in *.
  rewrite int_add_small by lia.
  rewrite length_app, Nat2Z.id.
  set (k := Z.to_nat n).
  assert (Hk1 : Z.to_nat (n + Z.of_nat (length v) - Z.of_nat (length v)) = k) by lia.
  assert (Hk2 : Z.to_nat (n + Z.of_nat (length v) - 0) = (length v + k)%nat) by lia.
  assert (Hk3 : Z.to_nat (n + Z.of_nat (length v)) = (length v + k)%nat) by lia.
  assert (Hk : k = Z.to_nat n) by reflexivity. clearbody k.
  unfold appended, with_bytes. cbn [bytes vis spare mode err].
  replace (Z.of_nat (length v) + n) with (n + Z.of_nat (length v)) by lia.
  destruct (Z.ltb_spec (Z.of_nat (length v + length sp)) (n + Z.of_nat (length v)))
    as [Hgrow|Hfit]; cbn zeta.
  - split; [apply length_replicate|].
    rewrite make_ok by lia. cbn [bind]. unfold copy. cbn [vis spare].
    rewrite length_replicate, Nat2Z.id, Nat.min_id, firstn_all.
    rewrite (drop_ge (replicate _ _)) by list_len.
    rewrite app_nil_r, Hk1.
    rewrite !reslice_ok by (unfold cap, backing; cbn [vis spare]; list_len).
    cbn [bind]. unfold backing. cbn [vis spare].
    rewrite Nat2Z.id, drop_app_length, Hk1, Hk2, Hk3.
    change (Z.to_nat 0) with 0%nat. rewrite drop_0.
    rewrite !take_ge by list_len.
    rewrite !drop_ge by list_len.
    reflexivity.
  - split; [rewrite length_take; lia|].
    cbn [bind].
    rewrite !reslice_ok by (unfold cap, backing; cbn [vis spare]; list_len).
    cbn [bind]. unfold backing. cbn [vis spare].
    rewrite Nat2Z.id, drop_app_length, Hk1, Hk2, Hk3.
    change (Z.to_nat 0) with 0%nat. rewrite drop_0.
    rewrite take_app_add, drop_app_add.
    rewrite length_take. replace (k `min` length sp)%nat with k by lia.
    reflexivity.
Qed.

(** What [Raw] computes on an unpoisoned serializer, once its allocation,
    if it needs one, is made. *)
Lemma Raw_ser_outcome (ctx : Ctx) (n : Z) :
  mode ctx = Ser -> Error ctx = None ->
  0 <= n -> len (bytes ctx) + n < 2 ^ 63 ->
  exists ctx' w,
    Raw ctx n = Ret (ctx', Some w, None) /\
    mode ctx' = Ser /\ Error ctx' = None /\
    vis (bytes ctx') = vis (bytes ctx) ++ w_data w /\
    Z.of_nat (length (w_data w)) = n /\
    Z.of_nat (w_off w) = len (bytes ctx) /\
    cap (bytes ctx') = Z.max (cap (bytes ctx)) (len (bytes ctx) + n) /\
    (len (bytes ctx) + n <= cap (bytes ctx) ->
     backing (bytes ctx') = backing (bytes ctx)).
Proof.
  intros Hm He Hn Hl. unfold Error in *.
  destruct (Raw_ser_window ctx n Hm He Hn Hl) as [Hst HR].
  remember (if cap (bytes ctx) <? len (bytes ctx) + n
            then replicate (Z.to_nat n) x00
            else take (Z.to_nat n) (spare (bytes ctx))) as stale eqn:Est.
  exists (appended ctx stale), (Window (length (vis (bytes ctx))) stale).
  split; [exact HR|]. split; [exact Hm|]. split; [exact He|].
  cbn [w_data w_off]. split; [reflexivity|]. split; [lia|]. split; [reflexivity|].
  split.
  - unfold appended, with_bytes, cap, len, backing in *. cbn [bytes vis spare].
    rewrite !length_app, length_drop, Hst. lia.
  - intros Hfit.
    destruct (Z.ltb_spec (cap (bytes ctx)) (len (bytes ctx) + n)) as [Hbad|_]; [lia|].
    subst stale.
    unfold appended, with_bytes, cap, len, backing in *. cbn [bytes vis spare].
    rewrite length_take. rewrite length_app in Hfit.
    replace (Z.to_nat n `min` length (spare (bytes ctx)))%nat with (Z.to_nat n) by lia.
    rewrite <- app_assoc, take_drop. reflexivity.
Qed.

(** X1.  On an unpoisoned serializer [Raw n] with [n >= 0] never returns
    an error.  When the write fits the capacity it always succeeds, without
    allocating: the backing array is the old one.  Whenever it returns (on
    the other path [make] may panic), it has kept the bytes written so
    far, made the buffer exactly [n] bytes longer and handed out those [n]
    bytes, and the capacity is the larger of the old one and an exact
    fit. *)
Theorem Raw_serializer_appends (ctx : Ctx) (n : Z) :
  mode ctx = Ser -> Error ctx = None ->
  0 <= n -> len (bytes ctx) + n < 2 ^ 63 ->
  (len (bytes ctx) + n <= cap (bytes ctx) ->
   exists ctx' w,
     Raw ctx n = Ret (ctx', Some w, None) /\
     backing (bytes ctx') = backing (bytes ctx)) /\
  (forall ctx' bs e,
      Raw ctx n = Ret (ctx', bs, e) ->
      e = None /\ mode ctx' = Ser /\ Error ctx' = None /\
      exists w,
        bs = Some w /\
        vis (bytes ctx') = vis (bytes ctx) ++ w_data w /\
        Z.of_nat (length (w_data w)) = n /\
        Z.of_nat (w_off w) = len (bytes ctx) /\
        cap (bytes ctx') = Z.max (cap (bytes ctx)) (len (bytes ctx) + n)).
Proof.
  intros Hm He Hn Hl.
  destruct (Raw_ser_outcome ctx n Hm He Hn Hl)
    as (c1 & w1 & HR & Hm1 & He1 & Hv & Hlen & Hoff & Hcap & Hback).
  split.
  - intros Hfit. exists c1, w1. split; [exact HR|]. apply Hback. exact Hfit.
  - intros ctx' bs e Hret. rewrite HR in Hret. injection Hret as <- <- <-.
    split; [reflexivity|]. split; [exact Hm1|]. split; [exact He1|].
    exists w1. split; [reflexivity|]. split; [exact Hv|]. split; [exact Hlen|].
    split; [exact Hoff|exact Hcap].
Qed.

Lemma Raw_serializer_appends_witness :
  let ctx := Ctx_ Ser (Slice_ (le_bytes 2 0x0201) (le_bytes 3 0x050403)) None in
  let ctx' := Ctx_ Ser (Slice_ (le_bytes 4 0x04030201) (le_bytes 1 0x05)) None in
  Raw ctx 2 = Ret (ctx', Some (Window 2 (le_bytes 2 0x0403)), None) /\
  backing (bytes ctx') = backing (bytes ctx) /\
  cap (bytes ctx') = 5.
Proof.
  intros ctx ctx'.
  assert (Hrun : Raw ctx 2 = Ret (ctx', Some (Window 2 (le_bytes 2 0x0403)), None))
    by (vm_compute; reflexivity).
  destruct (Raw_serializer_appends ctx 2 eq_refl eq_refl ltac:(lia)
              ltac:(vm_compute; reflexivity)) as [Hfits Hret].
  destruct (Hfits ltac:(vm_compute; discriminate)) as (c1 & w1 & HR & Hback).
  rewrite Hrun in HR. injection HR as <- <-.
  destruct (Hret _ _ _ Hrun) as (_ & _ & _ & w & _ & _ & _ & _ & Hcap).
  split; [exact Hrun|]. split; [exact Hback|exact Hcap].
Defined.

(** X2.  [Raw] does not check the sign of its argument: on an unpoisoned
    context of either mode a negative count ends in a slice-bounds panic,
    never in an error. *)
Theorem Raw_negative_count (ctx : Ctx) (n : Z) :
  Error ctx = None ->
  - 2 ^ 63 <= n < 0 -> len (bytes ctx) < 2 ^ 63 ->
  Raw ctx n = Panic PanicSliceBounds.
Proof.
  intros He Hn Hl. unfold Error in He.
  destruct (mode ctx) eqn:Hm.
  - unfold Raw. rewrite He, (mode_ser _ Hm).
    assert (Hadd : int_add n (len (bytes ctx)) = n + len (bytes ctx)).
    { unfold int_add. apply int_wrap_small. unfold int_in_range, len in *.
      cbn -[Z.pow]. lia. }
    rewrite Hadd.
    destruct (Z.ltb_spec (cap (bytes ctx)) (n + len (bytes ctx))) as [Hbad|_].
    + unfold cap, len, backing in *. rewrite length_app in Hbad. lia.
    + cbn [bind]. unfold reslice at 1.
      destruct (Z.leb_spec (len (bytes ctx)) (n + len (bytes ctx))); [lia|].
      rewrite andb_false_r. reflexivity.
  - apply Raw_de_negative; [exact Hm | exact He | lia].
Qed.

Lemma Raw_negative_count_witness :
  Raw NewSerializer (-3) = Panic PanicSliceBounds /\
  Raw (NewDeserializer (Slice_ (le_bytes 4 0) [])) (-3) = Panic PanicSliceBounds.
Proof.
  split; apply Raw_negative_count; first [reflexivity | vm_compute; split; congruence].
Defined.

(** ** Integers and numbers on the wire *)

Lemma int_wrap_mod (T : intty) (z : Z) :
  int_wrap T (z mod 2 ^ (8 * int_sizeof T)) = int_wrap T z.
Proof.
  pose proof (int_sizeof_range T). unfold int_wrap.
  destruct (int_signed T).
  - rewrite Zplus_mod_idemp_l. reflexivity.
  - apply Z.mod_mod. apply Z.pow_nonzero; lia.
Qed.

Lemma int_wrap_in_range (T : intty) (z : Z) : int_in_range T (int_wrap T z).
Proof.
  unfold int_wrap, int_in_range.
  destruct T; cbn -[Z.pow];
    match goal with
    | |- context [?a mod ?m] => pose proof (Z.mod_pos_bound a m ltac:(lia))
    end; lia.
Qed.

Lemma of_bits_in_range (T : numty) (z : Z) : in_range T (of_bits T z).
Proof.
  destruct T as [t| |]; cbn [of_bits num_wrap in_range].
  - apply int_wrap_in_range.
  - apply Z.mod_pos_bound. lia.
  - apply Z.mod_pos_bound. lia.
Qed.

Lemma to_bits_of_bits (T : numty) (x : Z) :
  0 <= x < 2 ^ (8 * sizeof T) -> to_bits T (of_bits T x) = x.
Proof.
  intros Hx. unfold to_bits, of_bits.
  destruct T as [t| |]; cbn [num_wrap sizeof] in *.
  - unfold int_wrap. destruct (int_signed t).
    + rewrite <- Zminus_mod_idemp_l, Z.mod_mod by (destruct t; cbn; lia).
      rewrite Zminus_mod_idemp_l.
      replace (x + 2 ^ (8 * int_sizeof t - 1) - 2 ^ (8 * int_sizeof t - 1)) with x by lia.
      apply Z.mod_small. exact Hx.
    + rewrite Z.mod_mod by (destruct t; cbn; lia). apply Z.mod_small. exact Hx.
  - rewrite Z.mod_mod by lia. apply Z.mod_small. exact Hx.
  - rewrite Z.mod_mod by lia. apply Z.mod_small. exact Hx.
Qed.

(** X3.  [integer] at any of the eleven integer types, signed ones included:
    the value is written as [sizeof(T)] little-endian bytes of its two's
    complement pattern, and reading those bytes gives the value back,
    whatever the destination held, consuming nothing else. *)
Theorem integer_round_trip (T : intty) (v : Z) (ser de : Ctx)
    (rest : list byte) (v0 : Z) :
  int_in_range T v ->
  mode ser = Ser -> Error ser = None -> len (bytes ser) + int_sizeof T < 2 ^ 63 ->
  mode de = De -> Error de = None ->
  let wire := le_bytes (Z.to_nat (int_sizeof T)) v in
  integer T ser v = Ret (appended ser wire, v, None) /\
  (vis (bytes de) = wire ++ rest ->
   integer T de v0 = Ret (unread de rest, v, None)).
Proof.
  intros Hr Hms Hes Hl Hmd Hed wire. pose proof (int_sizeof_range T) as Hs.
  split; [apply integer_ser; assumption|].
  intros Hv.
  rewrite (integer_de_wrap T de v0 wire rest Hmd Hed Hv)
    by (unfold wire; rewrite length_le_bytes; lia).
  unfold wire. rewrite le_value_le_bytes, Z2Nat.id by lia.
  rewrite int_wrap_mod, int_wrap_small by exact Hr. reflexivity.
Qed.

Lemma integer_round_trip_witness :
  let wire := le_bytes 2 (-2) in
  integer TInt16 NewSerializer (-2) = Ret (appended NewSerializer wire, -2, None) /\
  integer TInt16 (NewDeserializer (Slice_ (wire ++ le_bytes 1 7) [])) 5 =
    Ret (NewDeserializer (Slice_ (le_bytes 1 7) []), -2, None).
Proof.
  intros wire.
  destruct (integer_round_trip TInt16 (-2) NewSerializer
              (NewDeserializer (Slice_ (wire ++ le_bytes 1 7) [])) (le_bytes 1 7) 5)
    as [Hs Hd]; try reflexivity.
  - vm_compute. split; congruence.
  - split; [exact Hs|]. apply Hd. reflexivity.
Defined.

(** X4.  Any [sizeof(T)] bytes decode, and to a value whose encoding is those
    very bytes: for numbers the wire format is one-to-one in both
    directions. *)
Theorem Number_decodes_any_bytes (T : numty) (de ser : Ctx) (v0 : Z)
    (bs rest : list byte) :
  mode de = De -> Error de = None ->
  vis (bytes de) = bs ++ rest -> Z.of_nat (length bs) = sizeof T ->
  exists v,
    Number T de v0 = Ret (unread de rest, v, None) /\
    in_range T v /\
    (mode ser = Ser -> Error ser = None -> len (bytes ser) + sizeof T < 2 ^ 63 ->
     Number T ser v = Ret (appended ser bs, v, None)).
Proof.
  intros Hm He Hv Hl. exists (of_bits T (le_value bs)).
  split; [apply Number_de; assumption|].
  split; [apply of_bits_in_range|].
  intros Hms Hes Hroom.
  rewrite Number_ser by (try assumption; apply of_bits_in_range).
  assert (Hb : 0 <= le_value bs < 2 ^ (8 * sizeof T))
    by (rewrite <- Hl; apply le_value_range).
  rewrite to_bits_of_bits by exact Hb.
  rewrite <- Hl, Nat2Z.id, le_bytes_le_value. reflexivity.
Qed.

Lemma Number_decodes_any_bytes_witness :
  let bs := le_bytes 2 0xFF80 in
  Number (NInt TInt16) (NewDeserializer (Slice_ bs [])) 0 =
    Ret (NewDeserializer nil_slice, -128, None) /\
  Number (NInt TInt16) NewSerializer (-128) = Ret (appended NewSerializer bs, -128, None).
Proof.
  intros bs.
  destruct (Number_decodes_any_bytes (NInt TInt16) (NewDeserializer (Slice_ bs []))
              NewSerializer 0 bs [] eq_refl eq_refl eq_refl eq_refl)
    as (v & Hd & _ & Hs).
  assert (Hv : v = -128).
  { assert (Hc : Number (NInt TInt16) (NewDeserializer (Slice_ bs [])) 0 =
                 Ret (NewDeserializer nil_slice, -128, None)) by (vm_compute; reflexivity).
    rewrite Hc in Hd. congruence. }
  subst v. split; [exact Hd|].
  apply Hs; first [reflexivity | vm_compute; reflexivity].
Defined.

Lemma Number_de_short (T : numty) (ctx : Ctx) (v : Z) :
  mode ctx = De -> err ctx = None -> len (bytes ctx) < sizeof T ->
  exists v',
    Number T ctx v =
      Ret (with_err ctx (Some errUnexpectedEnd), v', Some errUnexpectedEnd) /\
    (in_range T v -> v' = v).
Proof.
  intros Hm He Hl.
  destruct (Number_dispatch T) as (U & HT & HU & Hs & ->).
  unfold integer_as, unsafeTransmutePtr. rewrite HT. cbn [bind].
  rewrite integer_de_short by (try assumption; lia). cbn [bind].
  eexists. split; [reflexivity|].
  intros Hr. apply transmute_there_and_back; assumption.
Qed.

(** X5.  [Number] cannot panic on a deserializer, whatever the input.  It
    fails exactly when the context is poisoned or fewer than [sizeof(T)]
    bytes are left; a failure consumes nothing, not even the bytes that
    were there, leaves the destination alone, and the error it returns is
    the one the context then stores. *)
Theorem Number_decode_failures (T : numty) (ctx : Ctx) (v : Z) :
  mode ctx = De ->
  exists ctx' v' e,
    Number T ctx v = Ret (ctx', v', e) /\
    (e = None <-> Error ctx = None /\ sizeof T <= len (bytes ctx)) /\
    (e <> None ->
     bytes ctx' = bytes ctx /\ Error ctx' = e /\ (in_range T v -> v' = v)) /\
    (Error ctx = None -> len (bytes ctx) < sizeof T -> e = Some errUnexpectedEnd).
Proof.
  intros Hm. unfold Error.
  destruct (err ctx) as [e0|] eqn:He.
  - destruct (Number_poisoned ctx e0 He T v) as (v' & HN & Hv).
    exists ctx, v', (Some e0). split; [exact HN|]. split; [|split].
    + split; [discriminate|]. intros [Hbad _]. discriminate.
    + intros _. split; [reflexivity|]. split; [exact He|exact Hv].
    + discriminate.
  - destruct (Z.ltb_spec (len (bytes ctx)) (sizeof T)) as [Hshort|Hlong].
    + destruct (Number_de_short T ctx v Hm He Hshort) as (v' & HN & Hv).
      exists (with_err ctx (Some errUnexpectedEnd)), v', (Some errUnexpectedEnd).
      split; [exact HN|]. split; [|split].
      * split; [discriminate|]. intros [_ Hbad]. lia.
      * intros _. split; [reflexivity|]. split; [reflexivity|exact Hv].
      * reflexivity.
    + assert (Hs : 1 <= sizeof T <= 8) by (destruct T as [[]| |]; cbn; lia).
      pose proof (take_drop (Z.to_nat (sizeof T)) (vis (bytes ctx))) as Hsplit.
      symmetry in Hsplit.
      rewrite (Number_de T ctx v _ _ Hm He Hsplit)
        by (unfold len in Hlong; rewrite length_take; lia).
      do 3 eexists. split; [reflexivity|]. split; [|split].
      * split; [intros _; split; [reflexivity|lia]|reflexivity].
      * intros Hbad. contradiction.
      * intros _ Hbad. lia.
Qed.

Lemma Number_decode_failures_witness :
  exists ctx' v' e,
    Number (NInt TUint32) (NewDeserializer (Slice_ (le_bytes 3 0x030201) [])) 9 =
      Ret (ctx', v', e) /\
    e = Some errUnexpectedEnd /\
    bytes ctx' = Slice_ (le_bytes 3 0x030201) [] /\ v' = 9.
Proof.
  destruct (Number_decode_failures (NInt TUint32)
              (NewDeserializer (Slice_ (le_bytes 3 0x030201) [])) 9 eq_refl)
    as (ctx' & v' & e & HN & _ & Hfail & Hshort).
  exists ctx', v', e. split; [exact HN|].
  assert (He : e = Some errUnexpectedEnd).
  { apply Hshort; [reflexivity|vm_compute; reflexivity]. }
  split; [exact He|].
  destruct Hfail as (Hb & _ & Hv); [rewrite He; discriminate|].
  split; [exact Hb|]. apply Hv. vm_compute. split; congruence.
Defined.

(** ** Decoding strings and byte slices from arbitrary input *)

(** X6.  Every way a [String] decode can end.  Fewer than 8 bytes: the
    unexpected-end error, nothing consumed.  A length prefix that reads as
    a negative [int]: a slice-bounds panic.  A length beyond the bytes
    left: the unexpected-end error, with the 8 prefix bytes consumed.
    Otherwise the destination becomes exactly the next [n] bytes.  In both
    error cases the destination is untouched and the context poisoned. *)
Theorem String_decode_cases (ctx : Ctx) (s0 : list byte) :
  mode ctx = De -> Error ctx = None ->
  (len (bytes ctx) < 8 ->
   String ctx s0 =
     Ret (with_err ctx (Some errUnexpectedEnd), s0, Some errUnexpectedEnd)) /\
  (forall bs rest,
      vis (bytes ctx) = bs ++ rest -> length bs = 8%nat ->
      let n := int_wrap TInt (le_value bs) in
      (n < 0 -> String ctx s0 = Panic PanicSliceBounds) /\
      (Z.of_nat (length rest) < n ->
       String ctx s0 =
         Ret (with_err (unread ctx rest) (Some errUnexpectedEnd), s0,
              Some errUnexpectedEnd)) /\
      (0 <= n <= Z.of_nat (length rest) ->
       String ctx s0 =
         Ret (unread ctx (drop (Z.to_nat n) rest), take (Z.to_nat n) rest, None))).
Proof.
  intros Hm He. unfold Error in He. split.
  - intros Hshort. unfold String.
    rewrite integer_de_short by (assumption || exact Hshort). reflexivity.
  - intros bs rest Hv Hl n.
    assert (Hint : integer TInt ctx (Z.of_nat (length s0)) = Ret (unread ctx rest, n, None)).
    { apply integer_de_wrap; try assumption. rewrite Hl. reflexivity. }
    unfold String. rewrite Hint. cbn [bind]. split; [|split].
    + intros Hneg. rewrite Raw_de_negative by (assumption || reflexivity). reflexivity.
    + intros Hbig. rewrite Raw_de_short by (assumption || reflexivity). reflexivity.
    + intros Hfit.
      pose proof (Raw_de (unread ctx rest) (take (Z.to_nat n) rest)
                    (drop (Z.to_nat n) rest) Hm He) as HR.
      rewrite take_drop in HR. specialize (HR eq_refl).
      rewrite length_take in HR.
      replace (Z.of_nat (Z.to_nat n `min` length rest)) with n in HR by lia.
      rewrite HR. cbn [bind wdata w_data]. rewrite mode_de by exact Hm. reflexivity.
Qed.

Lemma String_decode_cases_witness :
  String (NewDeserializer (Slice_ (le_bytes 8 5 ++ le_bytes 2 0x6968) [])) (le_bytes 1 0x78) =
    Ret (Ctx_ De (Slice_ (le_bytes 2 0x6968) []) (Some errUnexpectedEnd),
         le_bytes 1 0x78, Some errUnexpectedEnd) /\
  String (NewDeserializer (Slice_ (le_bytes 8 (-1) ++ le_bytes 2 0x6968) [])) [] =
    Panic PanicSliceBounds.
Proof.
  split.
  - destruct (String_decode_cases
                (NewDeserializer (Slice_ (le_bytes 8 5 ++ le_bytes 2 0x6968) []))
                (le_bytes 1 0x78) eq_refl eq_refl) as [_ Hcases].
    destruct (Hcases (le_bytes 8 5) (le_bytes 2 0x6968) eq_refl eq_refl) as (_ & Hbig & _).
    rewrite Hbig by (vm_compute; reflexivity). reflexivity.
  - destruct (String_decode_cases
                (NewDeserializer (Slice_ (le_bytes 8 (-1) ++ le_bytes 2 0x6968) []))
                [] eq_refl eq_refl) as [_ Hcases].
    destruct (Hcases (le_bytes 8 (-1)) (le_bytes 2 0x6968) eq_refl eq_refl) as (Hneg & _).
    apply Hneg. vm_compute. reflexivity.
Defined.

(** X7.  A [Bytes] decode that does not succeed never touches the destination:
    short input gives the unexpected-end error, a negative length prefix a
    slice-bounds panic, before any allocation or copy. *)
Theorem Bytes_decode_failures (ctx : Ctx) (dst : slice byte) :
  mode ctx = De -> Error ctx = None ->
  (len (bytes ctx) < 8 ->
   Bytes ctx dst =
     Ret (with_err ctx (Some errUnexpectedEnd), dst, Some errUnexpectedEnd)) /\
  (forall bs rest,
      vis (bytes ctx) = bs ++ rest -> length bs = 8%nat ->
      let n := int_wrap TInt (le_value bs) in
      (n < 0 -> Bytes ctx dst = Panic PanicSliceBounds) /\
      (Z.of_nat (length rest) < n ->
       Bytes ctx dst =
         Ret (with_err (unread ctx rest) (Some errUnexpectedEnd), dst,
              Some errUnexpectedEnd))).
Proof.
  intros Hm He. unfold Error in He. split.
  - intros Hshort. unfold Bytes.
    rewrite integer_de_short by (assumption || exact Hshort). reflexivity.
  - intros bs rest Hv Hl n.
    assert (Hint : integer TInt ctx (len dst) = Ret (unread ctx rest, n, None)).
    { apply integer_de_wrap; try assumption. rewrite Hl. reflexivity. }
    unfold Bytes. rewrite Hint. cbn [bind]. split.
    + intros Hneg. rewrite Raw_de_negative by (assumption || reflexivity). reflexivity.
    + intros Hbig. rewrite Raw_de_short by (assumption || reflexivity). reflexivity.
Qed.

Lemma Bytes_decode_failures_witness :
  let dst := Slice_ (le_bytes 1 1) (le_bytes 1 2) in
  Bytes (NewDeserializer (Slice_ (le_bytes 8 3 ++ le_bytes 2 0x0807) [])) dst =
    Ret (Ctx_ De (Slice_ (le_bytes 2 0x0807) []) (Some errUnexpectedEnd), dst,
         Some errUnexpectedEnd).
Proof.
  intros dst.
  destruct (Bytes_decode_failures
              (NewDeserializer (Slice_ (le_bytes 8 3 ++ le_bytes 2 0x0807) []))
              dst eq_refl eq_refl) as [_ Hcases].
  destruct (Hcases (le_bytes 8 3) (le_bytes 2 0x0807) eq_refl eq_refl) as (_ & Hbig).
  rewrite Hbig by (vm_compute; reflexivity). reflexivity.
Defined.

(** ** What every call leaves alone *)

Lemma advances_refl (c : Ctx) : advances c c.
Proof.
  split; [reflexivity|]. split; [reflexivity|].
  destruct (mode c); [exists []; symmetry; apply app_nil_r | exists []; reflexivity].
Qed.

Lemma advances_trans (a b c : Ctx) : advances a b -> advances b c -> advances a c.
Proof.
  intros (Hm1 & Hp1 & Hb1) (Hm2 & Hp2 & Hb2). split; [congruence|]. split.
  - intros e He. rewrite (Hp1 e He) in *. apply (Hp2 e He).
  - rewrite Hm1 in Hb2. destruct (mode a).
    + destruct Hb1 as [w1 H1]. destruct Hb2 as [w2 H2].
      exists (w1 ++ w2). rewrite H2, H1, app_assoc. reflexivity.
    + destruct Hb1 as [w1 H1]. destruct Hb2 as [w2 H2].
      exists (w1 ++ w2). rewrite H1, H2, app_assoc. reflexivity.
Qed.

Lemma advances_poisoned (c : Ctx) (e : Err) (c' : Ctx) :
  err c = Some e -> advances c c' -> c' = c.
Proof. intros He (_ & Hp & _). apply (Hp e He). Qed.

(** A context that differs only in its stored error, set on an unpoisoned
    context. *)
Lemma advances_with_err (c : Ctx) (e : error) :
  err c = None -> advances c (with_err c e).
Proof.
  intros He. split; [reflexivity|]. split; [congruence|].
  destruct (mode c) eqn:Hm; cbn [with_err bytes].
  - exists []. symmetry. apply app_nil_r.
  - exists []. reflexivity.
Qed.

Lemma window_split {A} (buf w b : slice A) (t : Z) :
  reslice buf (len buf) t = Ret w -> reslice buf 0 t = Ret b ->
  vis b = vis buf ++ vis w /\ Z.of_nat (length (vis w)) = t - len buf.
Proof.
  unfold reslice.
  destruct ((0 <=? len buf) && (len buf <=? t) && (t <=? cap buf)) eqn:Hc;
    [|discriminate].
  apply andb_true_iff in Hc as [Hc Hc3]. apply andb_true_iff in Hc as [Hc1 Hc2].
  apply Z.leb_le in Hc1, Hc2, Hc3.
  replace ((0 <=? 0) && (0 <=? t) && (t <=? cap buf)) with true
    by (symmetry; rewrite !andb_true_iff; repeat split; apply Z.leb_le; lia).
  intros [= <-] [= <-]. cbn [vis]. unfold len, cap, backing in *.
  rewrite length_app in Hc3.
  rewrite Nat2Z.id, drop_app_length, Z.sub_0_r.
  change (Z.to_nat 0) with 0%nat. rewrite drop_0.
  rewrite take_app_ge by lia. split.
  - do 2 f_equal. lia.
  - rewrite length_take. lia.
Qed.

(** Everything [Raw] can return. *)
Lemma Raw_inv (ctx c' : Ctx) (n : Z) (w : option window) (e : error) :
  Raw ctx n = Ret (c', w, e) ->
  advances ctx c' /\ err c' = e /\
  (e = None -> err ctx = None) /\
  (e = None -> mode ctx = Ser ->
   exists wd, w = Some (Window (length (vis (bytes ctx))) wd) /\
              vis (bytes c') = vis (bytes ctx) ++ wd /\
              Z.of_nat (length wd) = int_add n (len (bytes ctx)) - len (bytes ctx)).
Proof.
  unfold Raw. destruct (err ctx) as [e0|] eqn:He.
  - intros [= <- <- <-]. split; [apply advances_refl|]. split; [exact He|].
    split; discriminate.
  - destruct (mode ctx) eqn:Hm.
    + rewrite (mode_ser _ Hm).
      set (l := len (bytes ctx)). set (t := int_add n l).
      assert (Hbuf : forall buf, vis buf = vis (bytes ctx) ->
                 (let* w0 := reslice buf l t in
                  let* b := reslice buf 0 t in
                  Ret (with_bytes ctx b, Some (Window (Z.to_nat l) (vis w0)), @None Err)) =
                 Ret (c', w, e) ->
                 advances ctx c' /\ err c' = e /\ e = None /\
                 exists wd, w = Some (Window (length (vis (bytes ctx))) wd) /\
                            vis (bytes c') = vis (bytes ctx) ++ wd /\
                            Z.of_nat (length wd) = t - l).
      { intros buf Hv Hret.
        assert (Hlb : len buf = l) by (unfold len, l; rewrite Hv; reflexivity).
        rewrite <- Hlb in Hret.
        destruct (reslice buf (len buf) t) as [w0|p] eqn:Hw0; cbn [bind] in Hret;
          [|discriminate].
        destruct (reslice buf 0 t) as [b|p] eqn:Hb; cbn [bind] in Hret;
          [|discriminate].
        destruct (window_split buf w0 b t Hw0 Hb) as [Hvis Hlen].
        injection Hret as <- <- <-. rewrite Hv in Hvis.
        split; [|split; [exact He|split; [reflexivity|]]].
        - split; [reflexivity|]. split; [congruence|]. rewrite Hm.
          exists (vis w0). exact Hvis.
        - exists (vis w0). rewrite Hlb. unfold l, len.
          rewrite Nat2Z.id. repeat split; [exact Hvis | rewrite Hlen, Hlb; reflexivity]. }
      intros Hret.
      assert (Hall : advances ctx c' /\ err c' = e /\ e = None /\
                 exists wd, w = Some (Window (length (vis (bytes ctx))) wd) /\
                            vis (bytes c') = vis (bytes ctx) ++ wd /\
                            Z.of_nat (length wd) = t - l).
      { destruct (cap (bytes ctx) <? t).
        - unfold make in Hret.
          destruct ((0 <=? l) && (l <=? t)); cbn [bind] in Hret; [|discriminate].
          eapply Hbuf; [|exact Hret].
          rewrite copy_exact by (cbn [vis]; unfold l, len; list_len).
          reflexivity.
        - cbn [bind] in Hret. eapply Hbuf; [|exact Hret]. reflexivity. }
      destruct Hall as (Ha & He' & _ & Hw).
      split; [exact Ha|]. split; [exact He'|]. split; [reflexivity|].
      intros _ _. exact Hw.
    + rewrite (mode_de _ Hm).
      destruct (Z.ltb_spec (len (bytes ctx)) n) as [Hshort|Hfit].
      * unfold Abort. rewrite He. cbn [bind]. intros [= <- <- <-].
        split; [apply advances_with_err; exact He|]. split; [reflexivity|].
        split; discriminate.
      * destruct (Z.ltb_spec n 0) as [Hneg|Hpos].
        { unfold reslice. destruct (Z.leb_spec 0 n); [lia|]. discriminate. }
        rewrite reslice_prefix, reslice_from_ok
          by (unfold cap, len, backing in *; list_len).
        cbn [bind]. intros [= <- <- <-].
        split; [|split; [exact He|split; [reflexivity|congruence]]].
        split; [reflexivity|]. split; [congruence|]. rewrite Hm.
        exists (take (Z.to_nat n) (vis (bytes ctx))). cbn [with_bytes bytes vis].
        symmetry. apply take_drop.
Qed.

Lemma IsSerializer_mode (c : Ctx) : IsSerializer c = true <-> mode c = Ser.
Proof. unfold IsSerializer. destruct (mode c); cbn; split; congruence. Qed.

Lemma poke_inv (c c2 : Ctx) (off : nat) (d pre wd : list byte) (i : nat) (x : byte) :
  poke c (Some (Window off d)) i x = Ret c2 ->
  vis (bytes c) = pre ++ wd -> length pre = off ->
  exists wd', vis (bytes c2) = pre ++ wd' /\ length wd' = length wd /\
              mode c2 = mode c /\ err c2 = err c.
Proof.
  unfold poke. cbn [w_data w_off].
  destruct (i <? length d)%nat; [|discriminate].
  intros [= <-] Hv Hp. exists (<[i := x]> wd).
  cbn [with_bytes bytes vis mode err]. rewrite Hv.
  rewrite insert_app_r_alt by lia.
  replace (off + i - length pre)%nat with i by lia.
  rewrite length_insert. repeat split.
Qed.

Lemma integer_write_inv (todo : nat) (c c2 : Ctx) (off : nat) (d pre wd : list byte)
    (v : Z) (i : nat) :
  integer_write c (Some (Window off d)) v i todo = Ret c2 ->
  vis (bytes c) = pre ++ wd -> length pre = off ->
  exists wd', vis (bytes c2) = pre ++ wd' /\ length wd' = length wd /\
              mode c2 = mode c /\ err c2 = err c.
Proof.
  revert c wd i. induction todo as [|todo IH]; intros c wd i; cbn [integer_write].
  - intros [= <-] Hv Hp. exists wd. repeat split. exact Hv.
  - destruct (poke c _ i _) as [c1|p] eqn:Hpk; cbn [bind]; [|discriminate].
    intros Hw Hv Hp.
    destruct (poke_inv _ _ _ _ _ _ _ _ Hpk Hv Hp) as (wd1 & Hv1 & Hl1 & Hm1 & He1).
    destruct (IH _ _ _ Hw Hv1 Hp) as (wd2 & Hv2 & Hl2 & Hm2 & He2).
    exists wd2. repeat split; congruence.
Qed.

Lemma copy_window_inv (c : Ctx) (pre wd src : list byte) :
  vis (bytes c) = pre ++ wd ->
  let c2 := copy_window c (Some (Window (length pre) wd)) src in
  (exists wd', vis (bytes c2) = pre ++ wd') /\ mode c2 = mode c /\ err c2 = err c.
Proof.
  intros Hv. cbn [copy_window w_off w_data with_bytes bytes vis mode err].
  rewrite Hv. split; [|split; reflexivity].
  rewrite take_app_length. eexists. reflexivity.
Qed.

(** A serializer that was unpoisoned, [c1] after a successful [Raw], and
    [c2] the context after the window was written. *)
Lemma advances_written (ctx c1 c2 : Ctx) (wd : list byte) :
  mode ctx = Ser -> err ctx = None ->
  vis (bytes c1) = vis (bytes ctx) ++ wd ->
  (exists wd', vis (bytes c2) = vis (bytes ctx) ++ wd') ->
  mode c2 = mode ctx ->
  advances ctx c2.
Proof.
  intros Hm He Hv1 [wd' Hv2] Hm2. split; [exact Hm2|]. split; [congruence|].
  rewrite Hm. exists wd'. exact Hv2.
Qed.

Lemma integer_inv (T : intty) (ctx c' : Ctx) (v v' : Z) (e : error) :
  integer T ctx v = Ret (c', v', e) ->
  advances ctx c' /\ err c' = e /\
  (e = None -> err ctx = None) /\
  (e <> None \/ mode ctx = Ser -> v' = v).
Proof.
  unfold integer.
  destruct (Raw ctx (int_sizeof T)) as [[[c1 bs] e1]|p] eqn:HR; cbn [bind];
    [|discriminate].
  destruct (Raw_inv _ _ _ _ _ HR) as (Ha & He1 & Hun & Hwin).
  destruct e1 as [e1|].
  - intros [= <- <- <-].
    split; [exact Ha|]. split; [exact He1|]. split; [discriminate|reflexivity].
  - destruct (mode ctx) eqn:Hm.
    + assert (Hm1 : mode c1 = Ser) by (destruct Ha as [Hm1 _]; congruence).
      rewrite (mode_ser _ Hm1).
      destruct (Hwin eq_refl eq_refl) as (wd & -> & Hv & _). cbn [wdata w_data].
      destruct (integer_write c1 _ v 0 (length wd)) as [c2|p] eqn:Hw; cbn [bind];
        [|discriminate].
      intros [= <- <- <-].
      destruct (integer_write_inv _ _ _ _ _ _ _ _ _ Hw Hv eq_refl)
        as (wd' & Hv2 & _ & Hm2 & He2).
      split; [|split; [congruence|split; [intros _; apply Hun; reflexivity|reflexivity]]].
      eapply advances_written; [exact Hm | apply Hun; reflexivity | exact Hv
                               | exists wd'; exact Hv2 | congruence].
    + assert (Hm1 : mode c1 = De) by (destruct Ha as [Hm1 _]; congruence).
      rewrite (mode_de _ Hm1). intros [= <- <- <-].
      split; [exact Ha|]. split; [exact He1|]. split; [exact Hun|].
      intros [Hbad|Hbad]; [contradiction|discriminate].
Qed.

Lemma Number_inv (T : numty) (ctx c' : Ctx) (v v' : Z) (e : error) :
  Number T ctx v = Ret (c', v', e) -> advances ctx c' /\ err c' = e.
Proof.
  destruct (Number_dispatch T) as (U & HT & HU & Hs & ->).
  unfold integer_as, unsafeTransmutePtr. rewrite HT. cbn [bind].
  destruct (integer U ctx _) as [[[c1 u'] e1]|p] eqn:Hi; cbn [bind]; [|discriminate].
  intros [= <- <- <-]. destruct (integer_inv _ _ _ _ _ _ Hi) as (Ha & He & _).
  split; assumption.
Qed.

(** The shared shape of [String], [Bytes] and the encode branch of
    [Binary]: a length, a window, and on a serializer a copy into it. *)
Lemma payload_inv (ctx c1 c2 : Ctx) (n0 n : Z) (bs : option window) (e : error)
    (src : list byte) :
  integer TInt ctx n0 = Ret (c1, n, None) ->
  Raw c1 n = Ret (c2, bs, e) ->
  advances ctx c2 /\ err c2 = e /\
  (e = None -> mode c2 = Ser ->
   let c3 := copy_window c2 bs src in advances ctx c3 /\ err c3 = None).
Proof.
  intros Hi HR.
  destruct (integer_inv _ _ _ _ _ _ Hi) as (Ha1 & He1 & Hun1 & _).
  destruct (Raw_inv _ _ _ _ _ HR) as (Ha2 & He2 & Hun2 & Hwin).
  split; [eapply advances_trans; eassumption|]. split; [exact He2|].
  intros -> Hm2 c3.
  assert (Hm1 : mode c1 = Ser) by (destruct Ha2 as [Hm _]; congruence).
  destruct (Hwin eq_refl Hm1) as (wd & -> & Hv & _).
  destruct (copy_window_inv c2 (vis (bytes c1)) wd src Hv) as ([wd' Hv3] & Hm3 & He3).
  fold c3 in Hv3, Hm3, He3. split; [|congruence].
  eapply advances_trans; [exact Ha1|].
  eapply advances_written; [exact Hm1 | exact He1 | exact Hv | exists wd'; exact Hv3
                           | congruence].
Qed.

Lemma String_inv (ctx c' : Ctx) (s s' : list byte) (e : error) :
  String ctx s = Ret (c', s', e) -> advances ctx c' /\ err c' = e.
Proof.
  unfold String.
  destruct (integer TInt ctx _) as [[[c1 n] e1]|p] eqn:Hi; cbn [bind]; [|discriminate].
  destruct e1 as [e1|].
  - intros [= <- <- <-]. destruct (integer_inv _ _ _ _ _ _ Hi) as (Ha & He & _).
    split; assumption.
  - destruct (Raw c1 n) as [[[c2 bs] e2]|p] eqn:HR; cbn [bind]; [|discriminate].
    destruct (payload_inv _ _ _ _ _ _ _ s Hi HR) as (Ha & He & Hcp).
    destruct e2 as [e2|]; [intros [= <- <- <-]; split; assumption|].
    destruct (IsSerializer c2) eqn:Hs; intros [= <- <- <-].
    + apply Hcp; [reflexivity|apply IsSerializer_mode; exact Hs].
    + split; assumption.
Qed.

Lemma Bytes_inv (ctx c' : Ctx) (b b' : slice byte) (e : error) :
  Bytes ctx b = Ret (c', b', e) -> advances ctx c' /\ err c' = e.
Proof.
  unfold Bytes.
  destruct (integer TInt ctx _) as [[[c1 n] e1]|p] eqn:Hi; cbn [bind]; [|discriminate].
  destruct e1 as [e1|].
  - intros [= <- <- <-]. destruct (integer_inv _ _ _ _ _ _ Hi) as (Ha & He & _).
    split; assumption.
  - destruct (Raw c1 n) as [[[c2 bs] e2]|p] eqn:HR; cbn [bind]; [|discriminate].
    destruct (payload_inv _ _ _ _ _ _ _ (vis b) Hi HR) as (Ha & He & Hcp).
    destruct e2 as [e2|]; [intros [= <- <- <-]; split; assumption|].
    destruct (IsSerializer c2) eqn:Hs.
    + intros [= <- <- <-].
      apply Hcp; [reflexivity|apply IsSerializer_mode; exact Hs].
    + destruct (if Bytes_allocates b _ then _ else _) as [d1|p]; cbn [bind];
        [|discriminate].
      destruct (reslice d1 0 _) as [hd|p]; cbn [bind]; [|discriminate].
      intros [= <- <- <-]. split; assumption.
Qed.

Lemma Abort_inv (c c' : Ctx) (e e' : error) :
  Abort c e = Ret (c', e') -> advances c c' /\ err c' = e' /\ e' <> None.
Proof.
  unfold Abort. destruct e as [x|]; [|discriminate].
  destruct (err c) as [y|] eqn:He; intros [= <- <-].
  - split; [apply advances_refl|]. split; [reflexivity|]. rewrite He. discriminate.
  - split; [apply advances_with_err; exact He|]. split; [reflexivity|discriminate].
Qed.

Lemma Binary_inv {T} `{BinaryMarshalerUnmarshaler T} (ctx c' : Ctx) (v v' : T)
    (e : error) :
  Binary ctx v = Ret (c', v', e) ->
  advances ctx c' /\ (mode ctx = Ser -> err c' = e).
Proof.
  unfold Binary. destruct (IsSerializer ctx) eqn:Hs.
  - destruct (MarshalBinary v) as [data [x|]].
    + destruct (Abort ctx (Some x)) as [[c1 e1]|p] eqn:HA; cbn [bind]; [|discriminate].
      intros [= <- <- <-]. destruct (Abort_inv _ _ _ _ HA) as (Ha & He & _).
      split; [exact Ha|intros _; exact He].
    + destruct (integer TInt ctx _) as [[[c1 n] e1]|p] eqn:Hi; cbn [bind];
        [|discriminate].
      destruct (Raw c1 n) as [[[c2 bs] e2]|p] eqn:HR; cbn [bind]; [|discriminate].
      destruct (integer_inv _ _ _ _ _ _ Hi) as (Ha1 & He1 & _).
      destruct (Raw_inv _ _ _ _ _ HR) as (Ha2 & He2 & Hun2 & _).
      destruct e2 as [e2|].
      * intros [= <- <- <-].
        split; [eapply advances_trans; eassumption|intros _; exact He2].
      * assert (e1 = None) as -> by (rewrite <- He1; apply Hun2; reflexivity).
        destruct (payload_inv _ _ _ _ _ _ _ data Hi HR) as (_ & _ & Hcp).
        intros [= <- <- <-].
        assert (Hm2 : mode c2 = Ser).
        { destruct Ha1 as [Hm1 _], Ha2 as [Hm2 _].
          apply IsSerializer_mode in Hs. congruence. }
        destruct (Hcp eq_refl Hm2) as [Ha He]. split; [exact Ha|intros _; exact He].
  - destruct (integer TInt ctx 0) as [[[c1 n] e1]|p] eqn:Hi; cbn [bind];
      [|discriminate].
    destruct (Raw c1 n) as [[[c2 bs] e2]|p] eqn:HR; cbn [bind]; [|discriminate].
    destruct (integer_inv _ _ _ _ _ _ Hi) as (Ha1 & _).
    destruct (Raw_inv _ _ _ _ _ HR) as (Ha2 & _).
    assert (Hm : mode ctx = Ser -> False).
    { intros Hm. apply IsSerializer_mode in Hm. congruence. }
    destruct e2 as [e2|].
    + intros [= <- <- <-]. split; [eapply advances_trans; eassumption|].
      intros Hx. destruct (Hm Hx).
    + destruct (UnmarshalBinary v (wdata bs)) as [v2 e3]. intros [= <- <- <-].
      split; [eapply advances_trans; eassumption|]. intros Hx. destruct (Hm Hx).
Qed.

Lemma advances_mode (c c' : Ctx) : advances c c' -> mode c' = mode c.
Proof. intros [Hm _]. exact Hm. Qed.

Section SliceInv.
Context {T : Type}.
Variable zero : T.
Variable f : codec T.
Hypothesis f_advances : codec_advances f.

Lemma Slice_loop_advances (todo i : nat) (ctx c' : Ctx) (s s' : slice T) (e : error) :
  Slice_loop f todo i ctx s = Ret (c', s', e) -> advances ctx c'.
Proof.
  revert i ctx s. induction todo as [|todo IH]; intros i ctx s; cbn [Slice_loop].
  - intros [= <- <- <-]. apply advances_refl.
  - destruct (vis s !! i) as [x|]; [|discriminate].
    destruct (f ctx x) as [[[c1 x'] e1]|p] eqn:Hf; cbn [bind]; [|discriminate].
    pose proof (f_advances _ _ _ _ _ Hf) as Ha.
    destruct e1 as [e1|].
    + intros [= <- <- <-]. exact Ha.
    + intros HL. eapply advances_trans; [exact Ha|]. eapply IH. exact HL.
Qed.

Lemma Slice_loop_reports (m : SerDe) (todo i : nat) (ctx c' : Ctx) (s s' : slice T)
    (e : error) :
  codec_reports m f -> mode ctx = m -> err ctx = None ->
  Slice_loop f todo i ctx s = Ret (c', s', e) -> err c' = e.
Proof.
  intros Hrep. revert i ctx s. induction todo as [|todo IH]; intros i ctx s Hm He;
    cbn [Slice_loop].
  - intros [= <- <- <-]. exact He.
  - destruct (vis s !! i) as [x|]; [|discriminate].
    destruct (f ctx x) as [[[c1 x'] e1]|p] eqn:Hf; cbn [bind]; [|discriminate].
    pose proof (Hrep _ _ _ _ _ Hm Hf) as He1. unfold Error in He1.
    pose proof (advances_mode _ _ (f_advances _ _ _ _ _ Hf)) as Hm1.
    destruct e1 as [e1|].
    + intros [= <- <- <-]. exact He1.
    + intros HL. refine (IH _ c1 _ _ He1 HL). congruence.
Qed.

Lemma Slice_inv (ctx c' : Ctx) (s s' : slice T) (e : error) :
  Slice zero f ctx s = Ret (c', s', e) ->
  advances ctx c' /\ (codec_reports (mode ctx) f -> err c' = e).
Proof.
  unfold Slice.
  destruct (integer TInt ctx _) as [[[c1 n] e1]|p] eqn:Hi; cbn [bind]; [|discriminate].
  destruct (integer_inv _ _ _ _ _ _ Hi) as (Ha1 & He1 & _).
  destruct e1 as [e1|].
  - intros [= <- <- <-]. split; [exact Ha1|intros _; exact He1].
  - destruct (if Slice_allocates s n then _ else _) as [s1|p]; cbn [bind];
      [|discriminate].
    intros HL. split.
    + eapply advances_trans; [exact Ha1|]. eapply Slice_loop_advances. exact HL.
    + intros Hrep. eapply Slice_loop_reports; [exact Hrep| |exact He1|exact HL].
      apply advances_mode. exact Ha1.
Qed.

End SliceInv.

Section MapInv.
Context {K : Type} `{Countable K} {V : Type}.
Variable order : gmap K V -> list (K * V).
Variable zeroK : K.
Variable zeroV : V.
Variable fK : codec K.
Variable fV : codec V.
Hypothesis fK_advances : codec_advances fK.
Hypothesis fV_advances : codec_advances fV.

Lemma Map_write_inv (m : SerDe) (l : list (K * V)) (ctx c' : Ctx) (e : error) :
  Map_write fK fV l ctx = Ret (c', e) ->
  advances ctx c' /\
  (codec_reports m fK -> codec_reports m fV -> mode ctx = m -> err ctx = None ->
   err c' = e).
Proof.
  revert ctx. induction l as [|[k v] l IH]; intros ctx; cbn [Map_write].
  - intros [= <- <-]. split; [apply advances_refl|]. intros _ _ _ He. exact He.
  - destruct (fK ctx k) as [[[c1 k'] e1]|p] eqn:Hk; cbn [bind]; [|discriminate].
    pose proof (fK_advances _ _ _ _ _ Hk) as Ha1.
    destruct e1 as [e1|].
    { intros [= <- <-]. split; [exact Ha1|]. intros HrK _ Hm _.
      exact (HrK _ _ _ _ _ Hm Hk). }
    destruct (fV c1 v) as [[[c2 v'] e2]|p] eqn:Hv; cbn [bind]; [|discriminate].
    pose proof (fV_advances _ _ _ _ _ Hv) as Ha2.
    pose proof (advances_mode _ _ Ha1) as Hm1.
    pose proof (advances_mode _ _ Ha2) as Hm2.
    destruct e2 as [e2|].
    { intros [= <- <-]. split; [eapply advances_trans; eassumption|].
      intros _ HrV Hm _. refine (HrV _ _ _ _ _ _ Hv). congruence. }
    intros HW. destruct (IH _ HW) as [Ha3 Hr3].
    split; [eapply advances_trans; [exact Ha1|eapply advances_trans; eassumption]|].
    intros HrK HrV Hm _. apply Hr3; [exact HrK|exact HrV|congruence|].
    refine (HrV _ _ _ _ _ _ Hv). congruence.
Qed.

Lemma Map_read_inv (m : SerDe) (todo : nat) (ctx c' : Ctx) (g g' : gmap K V)
    (e : error) :
  Map_read zeroK zeroV fK fV todo ctx g = Ret (c', g', e) ->
  advances ctx c' /\
  (codec_reports m fK -> codec_reports m fV -> mode ctx = m -> err ctx = None ->
   err c' = e).
Proof.
  revert ctx g. induction todo as [|todo IH]; intros ctx g; cbn [Map_read].
  - intros [= <- <- <-]. split; [apply advances_refl|]. intros _ _ _ He. exact He.
  - destruct (fK ctx zeroK) as [[[c1 k'] e1]|p] eqn:Hk; cbn [bind]; [|discriminate].
    pose proof (fK_advances _ _ _ _ _ Hk) as Ha1.
    destruct e1 as [e1|].
    { intros [= <- <- <-]. split; [exact Ha1|]. intros HrK _ Hm _.
      exact (HrK _ _ _ _ _ Hm Hk). }
    destruct (fV c1 zeroV) as [[[c2 v'] e2]|p] eqn:Hv; cbn [bind]; [|discriminate].
    pose proof (fV_advances _ _ _ _ _ Hv) as Ha2.
    pose proof (advances_mode _ _ Ha1) as Hm1.
    pose proof (advances_mode _ _ Ha2) as Hm2.
    destruct e2 as [e2|].
    { intros [= <- <- <-]. split; [eapply advances_trans; eassumption|].
      intros _ HrV Hm _. refine (HrV _ _ _ _ _ _ Hv). congruence. }
    intros HW. destruct (IH _ _ HW) as [Ha3 Hr3].
    split; [eapply advances_trans; [exact Ha1|eapply advances_trans; eassumption]|].
    intros HrK HrV Hm _. apply Hr3; [exact HrK|exact HrV|congruence|].
    refine (HrV _ _ _ _ _ _ Hv). congruence.
Qed.

Lemma Map_inv (ctx c' : Ctx) (m m' : option (gmap K V)) (e : error) :
  Map order zeroK zeroV fK fV ctx m = Ret (c', m', e) ->
  advances ctx c' /\
  (codec_reports (mode ctx) fK -> codec_reports (mode ctx) fV -> err c' = e).
Proof.
  unfold Map.
  destruct (integer TInt ctx _) as [[[c1 n] e1]|p] eqn:Hi; cbn [bind]; [|discriminate].
  destruct (integer_inv _ _ _ _ _ _ Hi) as (Ha1 & He1 & _).
  pose proof (advances_mode _ _ Ha1) as Hm1.
  destruct e1 as [e1|].
  - intros [= <- <- <-]. split; [exact Ha1|intros _ _; exact He1].
  - destruct (IsSerializer c1).
    + destruct (Map_write fK fV _ c1) as [[c2 e2]|p] eqn:HW; cbn [bind];
        [|discriminate].
      intros [= <- <- <-]. destruct (Map_write_inv (mode ctx) _ _ _ _ HW) as [Ha2 Hr2].
      split; [eapply advances_trans; eassumption|].
      intros HrK HrV. apply Hr2; assumption.
    + destruct (Map_read _ _ _ _ _ c1 _) as [[[c2 g2] e2]|p] eqn:HR; cbn [bind];
        [|discriminate].
      intros [= <- <- <-].
      destruct (Map_read_inv (mode ctx) _ _ _ _ _ _ HR) as [Ha2 Hr2].
      split; [eapply advances_trans; eassumption|].
      intros HrK HrV. apply Hr2; assumption.
Qed.

End MapInv.

Lemma Fields2_inv {A B} (fa : codec A) (fb : codec B) (ctx c' : Ctx)
    (p p' : A * B) (e : error) :
  codec_advances fa -> codec_advances fb ->
  Fields2 fa fb ctx p = Ret (c', p', e) -> advances ctx c' /\ err c' = e.
Proof.
  intros Hfa Hfb. unfold Fields2.
  destruct (fa ctx (fst p)) as [[[c1 a] e1]|x] eqn:Ha; cbn [bind]; [|discriminate].
  destruct (fb c1 (snd p)) as [[[c2 b] e2]|x] eqn:Hb; cbn [bind]; [|discriminate].
  intros [= <- <- <-]. split; [|reflexivity].
  eapply advances_trans; [eapply Hfa|eapply Hfb]; eassumption.
Qed.

Lemma Library_advances (b : bool) (T : Type) (f : codec T) :
  Library b T f -> codec_advances f.
Proof.
  induction 1 as [t| | |T zero f _ IH|K EqK CK V order zeroK zeroV fK fV _ IHK _ IHV
                 |A B fa fb _ IHa _ IHb|T I _];
    intros c v c' v' e Hf.
  - apply (Number_inv _ _ _ _ _ _ Hf).
  - apply (String_inv _ _ _ _ _ Hf).
  - apply (Bytes_inv _ _ _ _ _ Hf).
  - apply (Slice_inv zero f IH _ _ _ _ _ Hf).
  - apply (Map_inv order zeroK zeroV fK fV IHK IHV _ _ _ _ _ Hf).
  - apply (Fields2_inv fa fb _ _ _ _ _ IHa IHb Hf).
  - apply (Binary_inv _ _ _ _ _ Hf).
Qed.

Lemma Library_reports (b : bool) (m : SerDe) (T : Type) (f : codec T) :
  Library b T f -> b = false \/ m = Ser -> codec_reports m f.
Proof.
  intros HL Hb.
  induction HL as [t| | |T zero f HL IH|K EqK CK V order zeroK zeroV fK fV HK IHK HV IHV
                  |A B fa fb Ha IHa Hb' IHb|T I Ht];
    intros c v c' v' e Hm Hf; unfold Error.
  - apply (Number_inv _ _ _ _ _ _ Hf).
  - apply (String_inv _ _ _ _ _ Hf).
  - apply (Bytes_inv _ _ _ _ _ Hf).
  - apply (Slice_inv zero f (Library_advances _ _ _ HL) _ _ _ _ _ Hf).
    rewrite Hm. exact IH.
  - apply (Map_inv order zeroK zeroV fK fV (Library_advances _ _ _ HK)
             (Library_advances _ _ _ HV) _ _ _ _ _ Hf); rewrite Hm; assumption.
  - apply (Fields2_inv fa fb _ _ _ _ _ (Library_advances _ _ _ Ha)
             (Library_advances _ _ _ Hb') Hf).
  - apply (Binary_inv _ _ _ _ _ Hf). destruct Hb as [Hb|Hb]; congruence.
Qed.

(** X8.  A codec of the package, whatever it is called on and however it
    ends, keeps the mode of the context; leaves a poisoned context as it
    is; on a serializer only appends to the bytes written so far; on a
    deserializer only drops bytes from the front of the unread input. *)
Theorem library_calls_advance (b : bool) (T : Type) (f : codec T) (c c' : Ctx)
    (v v' : T) (e : error) :
  Library b T f -> f c v = Ret (c', v', e) ->
  mode c' = mode c /\
  (Error c <> None -> c' = c) /\
  (mode c = Ser -> exists w, vis (bytes c') = vis (bytes c) ++ w) /\
  (mode c = De -> exists w, vis (bytes c) = w ++ vis (bytes c')).
Proof.
  intros HL Hf. destruct (Library_advances b T f HL _ _ _ _ _ Hf) as (Hm & Hp & Hb).
  split; [exact Hm|]. split; [|split].
  - unfold Error. destruct (err c) as [x|] eqn:He; [|congruence].
    intros _. apply (Hp x). reflexivity.
  - intros Hs. rewrite Hs in Hb. exact Hb.
  - intros Hd. rewrite Hd in Hb. exact Hb.
Qed.

Lemma library_calls_advance_witness :
  let f := Slice 0 (Number (NInt TUint8)) in
  let c := NewDeserializer (Slice_ (le_bytes 8 2 ++ le_bytes 3 0x050907) []) in
  let c' := Ctx_ De (Slice_ (le_bytes 1 0x05) []) None in
  Library false (slice Z) f /\
  f c nil_slice = Ret (c', Slice_ [7; 9] [], None) /\
  exists w, vis (bytes c) = w ++ vis (bytes c').
Proof.
  intros f c c'.
  assert (HL : Library false (slice Z) f) by (apply LibSlice, LibNumber).
  assert (Hrun : f c nil_slice = Ret (c', Slice_ [7; 9] [], None))
    by (vm_compute; reflexivity).
  split; [exact HL|]. split; [exact Hrun|].
  destruct (library_calls_advance false (slice Z) f c c' nil_slice _ None HL Hrun)
    as (_ & _ & _ & Hde).
  apply Hde. reflexivity.
Defined.

(** X9.  The error that a codec of the package returns is the error that
    [ctx.Error()] gives afterwards, [nil] included: for every codec built
    without [Binary] in both modes, and for [Binary] too on a serializer. *)
Theorem library_errors_reported (b : bool) (T : Type) (f : codec T) (c c' : Ctx)
    (v v' : T) (e : error) :
  Library b T f -> b = false \/ mode c = Ser ->
  f c v = Ret (c', v', e) -> Error c' = e.
Proof.
  intros HL Hb Hf. exact (Library_reports b (mode c) T f HL Hb c v c' v' e eq_refl Hf).
Qed.

Lemma library_errors_reported_witness :
  let f := Fields5 (fun _ => []) in
  let c := NewDeserializer
             (Slice_ (le_bytes 8 2 ++ le_bytes 2 0x6968 ++ le_bytes 8 30 ++
                      le_bytes 3 0x050907) []) in
  let c' := Ctx_ De (Slice_ (le_bytes 3 0x050907) []) (Some errUnexpectedEnd) in
  f c ([], (0, (0, (nil_slice, None)))) =
    Ret (c', (le_bytes 2 0x6968, (30, (0, (nil_slice, None)))),
         Some errUnexpectedEnd) /\
  Error c' = Some errUnexpectedEnd.
Proof.
  intros f c c'.
  assert (HL : Library false _ f).
  { unfold f, Fields5.
    apply LibFields2; [apply LibString|].
    apply LibFields2; [apply LibNumber|].
    apply LibFields2; [apply LibNumber|].
    apply LibFields2; [apply LibSlice, LibString|].
    apply LibMap; [apply LibString|apply LibNumber]. }
  assert (Hrun : f c ([], (0, (0, (nil_slice, None)))) =
                 Ret (c', (le_bytes 2 0x6968, (30, (0, (nil_slice, None)))),
                      Some errUnexpectedEnd))
    by (vm_compute; reflexivity).
  split; [exact Hrun|].
  exact (library_errors_reported false _ f c c' _ _ _ HL (or_introl eq_refl) Hrun).
Defined.

(** ** Decoding a map into a destination that holds entries *)

Lemma insert_all_app {K} `{Countable K} {V} (a b : list (K * V)) (g : gmap K V) :
  insert_all (a ++ b) g = insert_all b (insert_all a g).
Proof.
  revert g. induction a as [|[k v] a IH]; intros g; [reflexivity|].
  cbn [app insert_all]. apply IH.
Qed.

Lemma insert_all_lookup_other {K} `{Countable K} {V} (l : list (K * V)) (g : gmap K V)
    (k : K) :
  k ∉ l.*1 -> insert_all l g !! k = g !! k.
Proof.
  revert g. induction l as [|[k1 v1] l IH]; intros g Hk; [reflexivity|].
  cbn [insert_all fmap list_fmap fst] in *.
  apply not_elem_of_cons in Hk as [Hne Hk].
  rewrite IH by exact Hk. apply lookup_insert_ne. congruence.
Qed.

Lemma entry_related_keys {K V} (EV : V -> V -> Prop) (l' l : list (K * V)) :
  Forall2 (entry_related EV) l' l -> l'.*1 = l.*1.
Proof.
  induction 1 as [|a b l' l [Hk _] _ IH]; [reflexivity|].
  cbn [fmap list_fmap]. rewrite Hk. f_equal. exact IH.
Qed.

(** X10.  A [Map] decode inserts the decoded entries one by one, in wire
    order, into the destination: into the map it already holds, or into a
    fresh one when the destination is nil.  The result is never nil; keys
    that are not on the wire keep their values; a key on the wire ends
    with the value of its last occurrence. *)
Theorem Map_decode_merges {K} `{Countable K} {V} (order : gmap K V -> list (K * V))
    (zeroK : K) (zeroV : V) (fK : codec K) (fV : codec V) (EV : V -> V -> Prop)
    (l : list (K * V)) (ws : list (list byte)) (de : Ctx) (rest : list byte)
    (m0 : option (gmap K V)) :
  Forall2 (entry_wire fK zeroK fV zeroV EV) l ws ->
  mode de = De -> Error de = None ->
  Z.of_nat (length l) < 2 ^ 63 ->
  vis (bytes de) = le_bytes 8 (Z.of_nat (length l)) ++ concat ws ++ rest ->
  exists l',
    Forall2 (entry_related EV) l' l /\
    Map order zeroK zeroV fK fV de m0 =
      Ret (unread de rest, Some (insert_all l' (entries m0)), None) /\
    (forall k, k ∉ l.*1 -> insert_all l' (entries m0) !! k = entries m0 !! k) /\
    (forall k v before after,
        l' = before ++ (k, v) :: after -> k ∉ after.*1 ->
        insert_all l' (entries m0) !! k = Some v).
Proof.
  intros HF Hm He Hl Hv. unfold Error in He.
  destruct (Map_read_de zeroK zeroV fK fV EV l ws (unread de (concat ws ++ rest))
              rest (entries m0) HF Hm He eq_refl) as (l' & Hread & Hrel).
  rewrite unread_unread in Hread.
  exists l'. split; [exact Hrel|]. split; [|split].
  - unfold Map.
    rewrite (integer_len_de de _ (Z.of_nat (length l)) (concat ws ++ rest) Hm He Hv)
      by lia.
    cbn [bind]. rewrite mode_de by exact Hm.
    rewrite Nat2Z.id.
    change (match m0 with Some g => g | None => ∅ end) with (entries m0).
    rewrite Hread. reflexivity.
  - intros k Hk. apply insert_all_lookup_other.
    rewrite (entry_related_keys EV l' l Hrel). exact Hk.
  - intros k v before after -> Hk.
    rewrite insert_all_app. cbn [insert_all].
    rewrite insert_all_lookup_other by exact Hk. apply lookup_insert_eq.
Qed.

Lemma Map_decode_merges_witness :
  let f := Map map_to_list 0 0 (Number (NInt TUint8)) (Number (NInt TUint8)) in
  let de := NewDeserializer (Slice_ (le_bytes 8 2 ++ le_bytes 4 0x0B010A01) []) in
  exists g,
    f de (Some {[ 2 := 20 ]}) = Ret (unread de [], Some g, None) /\
    g !! 1 = Some 11 /\ g !! 2 = Some 20.
Proof.
  intros f de.
  assert (Hw : forall v, 0 <= v < 256 ->
                 Wire (Number (NInt TUint8)) 0 eq v
                   (le_bytes (Z.to_nat (sizeof (NInt TUint8))) (to_bits (NInt TUint8) v))).
  { intros v Hv. apply Number_wire. exact Hv. }
  assert (HF : Forall2 (entry_wire (Number (NInt TUint8)) 0 (Number (NInt TUint8)) 0 eq)
                 [(1, 10); (1, 11)]
                 [le_bytes 1 1 ++ le_bytes 1 10; le_bytes 1 1 ++ le_bytes 1 11]).
  { constructor; [|constructor; [|constructor]].
    - exists (le_bytes 1 1), (le_bytes 1 10).
      split; [reflexivity|]. split; [apply (Hw 1)|apply (Hw 10)]; lia.
    - exists (le_bytes 1 1), (le_bytes 1 11).
      split; [reflexivity|]. split; [apply (Hw 1)|apply (Hw 11)]; lia. }
  destruct (Map_decode_merges map_to_list 0 0 (Number (NInt TUint8))
              (Number (NInt TUint8)) eq _ _ de [] (Some {[ 2 := 20 ]}) HF
              eq_refl eq_refl ltac:(reflexivity) eq_refl)
    as (l' & Hrel & Hrun & Hother & Hlast).
  exists (insert_all l' {[ 2 := 20 ]}). split; [exact Hrun|]. split.
  - apply Forall2_cons_inv_r in Hrel as ([k1 v1] & l1 & [Hk1 Hv1] & Hrel & ->).
    apply Forall2_cons_inv_r in Hrel as ([k2 v2] & l2 & [Hk2 Hv2] & Hrel & ->).
    apply Forall2_nil_inv_r in Hrel as ->.
    cbn [fst snd] in *. subst.
    apply (Hlast 1 11 [(1, 10)] []); [reflexivity|]. apply not_elem_of_nil.
  - rewrite Hother; [reflexivity|].
    cbn [fmap list_fmap fst]. intros Hin.
    apply elem_of_cons in Hin as [Hin|Hin]; [discriminate|].
    apply elem_of_cons in Hin as [Hin|Hin]; [discriminate|].
    apply elem_of_nil in Hin. exact Hin.
Defined.

(** ** External values through [Binary] *)

(** X11.  [Binary] writes the payload that [MarshalBinary] returned behind
    its 8-byte length and leaves the value alone; on such bytes the decode
    consumes exactly the length and the payload, hands [UnmarshalBinary]
    exactly that payload, and returns what [UnmarshalBinary] returns. *)
Theorem Binary_round_trip {T} `{BinaryMarshalerUnmarshaler T} (v v0 : T)
    (data rest : list byte) (ser de : Ctx) :
  MarshalBinary v = (data, None) ->
  mode ser = Ser -> Error ser = None ->
  len (bytes ser) + 8 + Z.of_nat (length data) < 2 ^ 63 ->
  mode de = De -> Error de = None ->
  vis (bytes de) = le_bytes 8 (Z.of_nat (length data)) ++ data ++ rest ->
  Binary ser v =
    Ret (appended ser (le_bytes 8 (Z.of_nat (length data)) ++ data), v, None) /\
  Binary de v0 =
    Ret (unread de rest, fst (UnmarshalBinary v0 data), snd (UnmarshalBinary v0 data)).
Proof.
  intros HM Hms Hes Hl Hmd Hed Hv. unfold Error in *. split.
  - apply Binary_ser; assumption.
  - assert (Hd : Z.of_nat (length data) < 2 ^ 63) by (unfold len in Hl; lia).
    destruct (payload_de de 0 data rest Hmd Hed Hd Hv) as [Hint HR].
    unfold Binary. rewrite mode_de by exact Hmd. rewrite Hint. cbn [bind].
    rewrite HR. cbn [bind wdata w_data].
    destruct (UnmarshalBinary v0 data) as [v' e]. reflexivity.
Qed.

Lemma Binary_round_trip_witness :
  let de := NewDeserializer (Slice_ (le_bytes 8 1 ++ le_bytes 2 0x0907) []) in
  Binary (H := tally) NewSerializer 7 =
    Ret (appended NewSerializer (le_bytes 8 1 ++ le_bytes 1 7), 7, None) /\
  Binary (H := tally) de 100 = Ret (unread de (le_bytes 1 9), 107, None).
Proof.
  intros de.
  exact (Binary_round_trip (H := tally) 7 100 (le_bytes 1 7) (le_bytes 1 9)
           NewSerializer de eq_refl eq_refl eq_refl eq_refl eq_refl eq_refl eq_refl).
Defined.

(** X12.  A [Binary] decode on input that ends early never calls
    [UnmarshalBinary]: with fewer than 8 bytes, or fewer payload bytes than
    the length announces, it poisons the context with the unexpected-end
    error and returns the value as it was; a negative length is a
    slice-bounds panic. *)
Theorem Binary_decode_failures {T} `{BinaryMarshalerUnmarshaler T} (ctx : Ctx)
    (v : T) :
  mode ctx = De -> Error ctx = None ->
  (len (bytes ctx) < 8 ->
   Binary ctx v =
     Ret (with_err ctx (Some errUnexpectedEnd), v, Some errUnexpectedEnd)) /\
  (forall bs rest,
      vis (bytes ctx) = bs ++ rest -> length bs = 8%nat ->
      let n := int_wrap TInt (le_value bs) in
      (n < 0 -> Binary ctx v = Panic PanicSliceBounds) /\
      (Z.of_nat (length rest) < n ->
       Binary ctx v =
         Ret (with_err (unread ctx rest) (Some errUnexpectedEnd), v,
              Some errUnexpectedEnd))).
Proof.
  intros Hm He. unfold Error in He. split.
  - intros Hshort. unfold Binary. rewrite mode_de by exact Hm.
    rewrite integer_de_short by (assumption || exact Hshort). cbn [bind].
    rewrite (Raw_poisoned _ _ errUnexpectedEnd) by reflexivity. reflexivity.
  - intros bs rest Hv Hl n.
    assert (Hint : integer TInt ctx 0 = Ret (unread ctx rest, n, None)).
    { apply integer_de_wrap; try assumption. rewrite Hl. reflexivity. }
    unfold Binary. rewrite mode_de by exact Hm. rewrite Hint. cbn [bind]. split.
    + intros Hneg. rewrite Raw_de_negative by (assumption || reflexivity). reflexivity.
    + intros Hbig. rewrite Raw_de_short by (assumption || reflexivity). reflexivity.
Qed.

Lemma Binary_decode_failures_witness :
  Binary (H := tally) (NewDeserializer (Slice_ (le_bytes 8 3 ++ le_bytes 2 0x0807) []))
    100 =
    Ret (Ctx_ De (Slice_ (le_bytes 2 0x0807) []) (Some errUnexpectedEnd), 100,
         Some errUnexpectedEnd).
Proof.
  destruct (Binary_decode_failures (H := tally)
              (NewDeserializer (Slice_ (le_bytes 8 3 ++ le_bytes 2 0x0807) []))
              100 eq_refl eq_refl) as [_ Hcases].
  destruct (Hcases (le_bytes 8 3) (le_bytes 2 0x0807) eq_refl eq_refl) as (_ & Hbig).
  rewrite Hbig by (vm_compute; reflexivity). reflexivity.
Defined.

(** ** A [Slice] decode that fails partway *)

Lemma each_in_order_app {T} (f : codec T) (xs ys xs' : list T) (ctx ctx1 : Ctx) :
  each_in_order f xs ctx = Ret (ctx1, xs', None) ->
  each_in_order f (xs ++ ys) ctx =
    (let* (ctx2, ys', e) := each_in_order f ys ctx1 in Ret (ctx2, xs' ++ ys', e)).
Proof.
  revert xs' ctx. induction xs as [|x xs IH]; intros xs' ctx.
  - cbn. intros [= <- <-].
    destruct (each_in_order f ys ctx) as [[[c2 ys'] e]|p]; reflexivity.
  - cbn [app each_in_order].
    destruct (f ctx x) as [[[c1 x'] e1]|p]; cbn [bind]; [|discriminate].
    destruct e1 as [e1|]; [discriminate|].
    destruct (each_in_order f xs c1) as [[[c2 zs] e2]|p] eqn:Hxs; cbn [bind];
      [|discriminate].
    intros [= <- <- ->]. rewrite (IH zs c1 Hxs).
    destruct (each_in_order f ys c2) as [[[c3 ys'] e3]|p]; reflexivity.
Qed.

(** The element loop over zero values, after [vs] were decoded and the
    next element failed. *)
Lemma each_in_order_fails_after {T} (zero : T) (f : codec T) (E : T -> T -> Prop)
    (vs : list T) (ws : list (list byte)) (ctx bad : Ctx) (rest : list byte)
    (n : nat) (x' : T) (e : Err) :
  Forall2 (Wire f zero E) vs ws ->
  mode ctx = De -> err ctx = None ->
  vis (bytes ctx) = concat ws ++ rest ->
  f (unread ctx rest) zero = Ret (bad, x', Some e) ->
  (length vs < n)%nat ->
  exists vs',
    Forall2 E vs' vs /\
    each_in_order f (replicate n zero) ctx =
      Ret (bad, vs' ++ x' :: replicate (n - length vs - 1) zero, Some e).
Proof.
  intros HF Hm He Hv Hbad Hn.
  destruct (each_in_order_de f zero E vs ws ctx rest HF Hm He Hv) as (vs' & Hvs & HE).
  exists vs'. split; [exact HE|].
  replace n with (length vs + S (n - length vs - 1))%nat at 1 by lia.
  rewrite replicate_add. cbn [replicate].
  rewrite (each_in_order_app f _ _ vs' _ _ Hvs).
  cbn [each_in_order]. rewrite Hbad. reflexivity.
Qed.

(** X13.  A [Slice] decode into a destination of zero values (an empty one
    included) whose element codec fails at some position.  [Slice] returns
    that error at once, with the context as the element codec left it; the
    elements decoded before are in place and every later position is still
    the zero value.  When the destination is long enough for the count this
    is what the call returns; when it is shorter, [Slice] first allocates
    [count] elements, and this is what every such call that returns has
    done. *)
Theorem Slice_decode_stops_at_first_error {T} (zero : T) (f : codec T)
    (E : T -> T -> Prop) (vs : list T) (ws : list (list byte)) (de bad : Ctx)
    (rest : list byte) (count : Z) (x' : T) (e : Err) (s : slice T) :
  Forall2 (Wire f zero E) vs ws ->
  mode de = De -> Error de = None ->
  Z.of_nat (length vs) < count < 2 ^ 63 ->
  vis (bytes de) = le_bytes 8 count ++ concat ws ++ rest ->
  f (unread de rest) zero = Ret (bad, x', Some e) ->
  vis s = replicate (length (vis s)) zero ->
  exists vs',
    Forall2 E vs' vs /\
    (count <= len s ->
     Slice zero f de s =
       Ret (bad,
            Slice_ (vs' ++ x' :: replicate (length (vis s) - length vs - 1) zero)
                   (spare s),
            Some e)) /\
    (len s < count ->
     forall c' s' e',
       Slice zero f de s = Ret (c', s', e') ->
       c' = bad /\ e' = Some e /\
       s' = Slice_ (vs' ++ x' :: replicate (Z.to_nat count - length vs - 1) zero) []).
Proof.
  intros HF Hm He Hc Hv Hbad Hzero. unfold Error in He.
  assert (Hint : integer TInt de (len s) =
                 Ret (unread de (concat ws ++ rest), count, None)).
  { apply integer_len_de; try assumption. lia. }
  destruct (each_in_order_fails_after zero f E vs ws (unread de (concat ws ++ rest))
              bad rest (Z.to_nat count) x' e HF Hm He eq_refl Hbad ltac:(lia))
    as (vs' & HE & Hloop).
  exists vs'. split; [exact HE|].
  pose proof (Slice_after_count zero f de _ s count Hint) as HS.
  unfold Slice_allocates in HS. split.
  - intros Hfits. rewrite (proj2 (Z.ltb_ge _ _) Hfits) in HS. rewrite HS.
    unfold len in Hfits.
    rewrite Hzero, take_replicate, drop_replicate, length_replicate.
    replace (Z.to_nat count `min` length (vis s))%nat with (Z.to_nat count) by lia.
    rewrite Hloop. cbn [bind]. rewrite <- app_assoc. cbn [app].
    rewrite <- replicate_add.
    replace (Z.to_nat count - length vs - 1 + (length (vis s) - Z.to_nat count))%nat
      with (length (vis s) - length vs - 1)%nat by lia.
    reflexivity.
  - intros Hshort c' s' e' Hret.
    rewrite (proj2 (Z.ltb_lt _ _) Hshort) in HS. rewrite HS in Hret.
    unfold len in Hshort.
    rewrite Hzero, length_replicate, <- replicate_add in Hret.
    replace (length (vis s) + (Z.to_nat count - length (vis s)))%nat
      with (Z.to_nat count) in Hret by lia.
    rewrite Hloop in Hret. cbn [bind] in Hret. injection Hret as <- <- <-.
    repeat split.
Qed.

Lemma Slice_decode_stops_at_first_error_witness :
  let de := NewDeserializer (Slice_ (le_bytes 8 3 ++ le_bytes 1 7) []) in
  let bad := with_err (unread de []) (Some errUnexpectedEnd) in
  Slice 0 (Number (NInt TUint8)) de (Slice_ [0; 0; 0; 0] []) =
    Ret (bad, Slice_ [7; 0; 0; 0] [], Some errUnexpectedEnd) /\
  Slice 0 (Number (NInt TUint8)) de nil_slice =
    Ret (bad, Slice_ [7; 0; 0] [], Some errUnexpectedEnd).
Proof.
  intros de bad.
  assert (HF : Forall2 (Wire (Number (NInt TUint8)) 0 eq) [7] [le_bytes 1 7]).
  { constructor; [|constructor]. apply (Number_wire (NInt TUint8) 7). cbn. lia. }
  split.
  - destruct (Slice_decode_stops_at_first_error 0 (Number (NInt TUint8)) eq [7]
                [le_bytes 1 7] de bad [] 3 0 errUnexpectedEnd (Slice_ [0; 0; 0; 0] [])
                HF eq_refl eq_refl ltac:(split; reflexivity) eq_refl
                ltac:(vm_compute; reflexivity) eq_refl)
      as (vs' & Hrel & Hlong & _).
    apply Forall2_cons_inv_r in Hrel as (x & l1 & Hx & Hrel & ->).
    apply Forall2_nil_inv_r in Hrel as ->. subst x.
    apply Hlong. vm_compute. discriminate.
  - assert (Hrun : Slice 0 (Number (NInt TUint8)) de nil_slice =
                   Ret (bad, Slice_ [7; 0; 0] [], Some errUnexpectedEnd))
      by (vm_compute; reflexivity).
    destruct (Slice_decode_stops_at_first_error 0 (Number (NInt TUint8)) eq [7]
                [le_bytes 1 7] de bad [] 3 0 errUnexpectedEnd nil_slice
                HF eq_refl eq_refl ltac:(split; reflexivity) eq_refl
                ltac:(vm_compute; reflexivity) eq_refl)
      as (vs' & Hrel & _ & Hshort).
    destruct (Hshort ltac:(vm_compute; reflexivity) _ _ _ Hrun) as (_ & _ & Hs).
    exact Hrun.
Defined.

(** ** From a fresh serializer to a deserializer over its bytes *)




(** The three constructors at work on one value: the same bytes come out,
    and the old contents of the caller's buffer are not among them. *)
Example encode_with_each_constructor :
  let f := Slice [] String in
  let v := Slice_ [le_bytes 2 0x6968] [] in
  let stale := Slice_ (le_bytes 3 0xFFFFFF) (le_bytes 1 0xFF) in
  let wire := le_bytes 8 1 ++ le_bytes 8 2 ++ le_bytes 2 0x6968 in
  let out (made : outcome Ctx) :=
    let* ser := made in
    let* (ser', _, e) := f ser v in
    let* (de', v', e') := f (NewDeserializer (CtxBytes ser')) nil_slice in
    Ret (vis (CtxBytes ser'), e, v', vis (CtxBytes de'), e') in
  out (Ret NewSerializer) = Ret (wire, None, v, [], None) /\
  out (NewSerializerWithCapacity 16) = Ret (wire, None, v, [], None) /\
  out (NewSerializerWithBacking stale) = Ret (wire, None, v, [], None).
Proof. vm_compute. repeat split. Qed.

(** ** Counts that read as negative *)

(** X15.  [Slice] and [Map] take a count that reads as a negative [int] for
    an empty sequence: where [String], [Bytes] and [Binary] panic, they
    consume the 8 bytes, run no element codec and report success.  [Slice]
    leaves its destination as it was; [Map] leaves its entries as they
    were and makes a nil destination an empty map. *)
Theorem negative_count_reads_as_empty {T} (zero : T) (f : codec T) (s : slice T)
    {K} `{Countable K} {V} (order : gmap K V -> list (K * V)) (zeroK : K) (zeroV : V)
    (fK : codec K) (fV : codec V) (m : option (gmap K V))
    (ctx : Ctx) (prefix rest : list byte) :
  mode ctx = De -> Error ctx = None ->
  vis (bytes ctx) = prefix ++ rest -> length prefix = 8%nat ->
  int_wrap TInt (le_value prefix) < 0 ->
  Slice zero f ctx s = Ret (unread ctx rest, s, None) /\
  Map order zeroK zeroV fK fV ctx m = Ret (unread ctx rest, Some (entries m), None).
Proof.
  intros Hm He Hv Hp Hneg. unfold Error in He.
  assert (Hint : forall v0, integer TInt ctx v0 =
                   Ret (unread ctx rest, int_wrap TInt (le_value prefix), None)).
  { intros v0. apply integer_de_wrap; [exact Hm|exact He|exact Hv|].
    rewrite Hp. reflexivity. }
  assert (Hnone : Z.to_nat (int_wrap TInt (le_value prefix)) = 0%nat) by lia.
  split.
  - unfold Slice. rewrite Hint. cbn [bind]. unfold Slice_allocates.
    destruct (Z.ltb_spec (len s) (int_wrap TInt (le_value prefix))) as [Hlt|_];
      [unfold len in Hlt; lia|].
    cbn [bind]. rewrite Hnone. reflexivity.
  - unfold Map. rewrite Hint. cbn [bind]. rewrite mode_de by exact Hm.
    rewrite Hnone. reflexivity.
Qed.

Lemma negative_count_reads_as_empty_witness :
  let ctx := NewDeserializer (Slice_ (le_bytes 8 (-1) ++ le_bytes 1 7) []) in
  let m : option (gmap Z Z) := None in
  Slice 0 (Number (NInt TUint8)) ctx (Slice_ [5] []) =
    Ret (unread ctx (le_bytes 1 7), Slice_ [5] [], None) /\
  Map map_to_list 0 0 (Number (NInt TUint8)) (Number (NInt TUint8)) ctx m =
    Ret (unread ctx (le_bytes 1 7), Some ∅, None).
Proof.
  intros ctx m.
  apply (negative_count_reads_as_empty 0 (Number (NInt TUint8)) (Slice_ [5] [])
           map_to_list 0 0 (Number (NInt TUint8)) (Number (NInt TUint8)) m ctx
           (le_bytes 8 (-1)) (le_bytes 1 7)); try reflexivity.
Defined.

(** ** A [Map] decode that fails partway *)

Lemma Map_read_de_more {K} `{Countable K} {V} (zeroK : K) (zeroV : V) (fK : codec K)
    (fV : codec V) (EV : V -> V -> Prop) (l : list (K * V)) (ws : list (list byte))
    (ctx : Ctx) (rest : list byte) (g : gmap K V) (more : nat) :
  Forall2 (entry_wire fK zeroK fV zeroV EV) l ws ->
  mode ctx = De -> err ctx = None ->
  vis (bytes ctx) = concat ws ++ rest ->
  exists l',
    Forall2 (entry_related EV) l' l /\
    Map_read zeroK zeroV fK fV (length l + more) ctx g =
      Map_read zeroK zeroV fK fV more (unread ctx rest) (insert_all l' g).
Proof.
  intros HF. revert ctx g.
  induction HF as [|[k v] w l ws (wk & wv & -> & [_ Hk] & [_ Hv]) _ IH];
    intros ctx g Hm He Hvis.
  - exists []. cbn in *. rewrite unread_same by exact Hvis. split; constructor.
  - cbn [concat fst snd] in *. rewrite <- !app_assoc in Hvis.
    destruct (Hk ctx _ Hm He Hvis) as (k' & Hk' & ->).
    destruct (Hv (unread ctx (wv ++ concat ws ++ rest)) _ Hm He eq_refl)
      as (v' & Hv' & HE).
    rewrite unread_unread in Hv'.
    destruct (IH (unread ctx (concat ws ++ rest)) (<[k := v']> g) Hm He eq_refl)
      as (l' & HR & Hl').
    rewrite unread_unread in Hl'.
    exists ((k, v') :: l'). split; [constructor; [split; [reflexivity|exact HE]|exact HR]|].
    cbn [length Nat.add Map_read insert_all].
    rewrite Hk'. cbn [bind]. rewrite Hv'. cbn [bind]. exact Hl'.
Qed.

(** X16.  A [Map] decode whose input goes wrong after some complete
    entries: those entries are in the destination, the error of the key
    codec or of the value codec is returned at once with the context as
    that codec left it, and a key whose value could not be decoded is not
    inserted. *)
Theorem Map_decode_stops_at_first_error {K} `{Countable K} {V}
    (order : gmap K V -> list (K * V)) (zeroK : K) (zeroV : V) (fK : codec K)
    (fV : codec V) (EV : V -> V -> Prop) (l : list (K * V)) (ws : list (list byte))
    (de : Ctx) (rest : list byte) (count : Z) (m0 : option (gmap K V)) :
  Forall2 (entry_wire fK zeroK fV zeroV EV) l ws ->
  mode de = De -> Error de = None ->
  Z.of_nat (length l) < count < 2 ^ 63 ->
  vis (bytes de) = le_bytes 8 count ++ concat ws ++ rest ->
  exists l',
    Forall2 (entry_related EV) l' l /\
    let partial := Some (insert_all l' (entries m0)) in
    (forall bad k e,
        fK (unread de rest) zeroK = Ret (bad, k, Some e) ->
        Map order zeroK zeroV fK fV de m0 = Ret (bad, partial, Some e)) /\
    (forall c1 k bad v e,
        fK (unread de rest) zeroK = Ret (c1, k, None) ->
        fV c1 zeroV = Ret (bad, v, Some e) ->
        Map order zeroK zeroV fK fV de m0 = Ret (bad, partial, Some e)).
Proof.
  intros HF Hm He Hc Hv. unfold Error in He.
  destruct (Map_read_de_more zeroK zeroV fK fV EV l ws
              (unread de (concat ws ++ rest)) rest (entries m0)
              (S (Z.to_nat count - length l - 1)) HF Hm He eq_refl)
    as (l' & Hrel & Hread).
  rewrite unread_unread in Hread.
  replace (length l + S (Z.to_nat count - length l - 1))%nat with (Z.to_nat count)
    in Hread by lia.
  assert (Hmap : Map order zeroK zeroV fK fV de m0 =
                 (let* (ctx2, g', e) :=
                    Map_read zeroK zeroV fK fV (S (Z.to_nat count - length l - 1))
                      (unread de rest) (insert_all l' (entries m0)) in
                  Ret (ctx2, Some g', e))).
  { unfold Map.
    rewrite (integer_len_de de _ count (concat ws ++ rest) Hm He Hv) by lia.
    cbn [bind]. rewrite mode_de by exact Hm.
    change (match m0 with Some g => g | None => ∅ end) with (entries m0).
    rewrite Hread. reflexivity. }
  exists l'. split; [exact Hrel|]. intros partial. split.
  - intros bad k e Hk. rewrite Hmap. cbn [Map_read]. rewrite Hk. reflexivity.
  - intros c1 k bad v e Hk Hval. rewrite Hmap. cbn [Map_read].
    rewrite Hk. cbn [bind]. rewrite Hval. reflexivity.
Qed.

Lemma Map_decode_stops_at_first_error_witness :
  let f := Map map_to_list 0 0 (Number (NInt TUint8)) (Number (NInt TUint8)) in
  let de := NewDeserializer (Slice_ (le_bytes 8 2 ++ le_bytes 3 0x030A01) []) in
  exists g,
    f de None = Ret (with_err (unread de []) (Some errUnexpectedEnd), Some g,
                     Some errUnexpectedEnd) /\
    g !! 1 = Some 10 /\ g !! 3 = None.
Proof.
  intros f de.
  assert (Hw : forall v, 0 <= v < 256 ->
                 Wire (Number (NInt TUint8)) 0 eq v
                   (le_bytes (Z.to_nat (sizeof (NInt TUint8))) (to_bits (NInt TUint8) v))).
  { intros v Hv. apply Number_wire. exact Hv. }
  assert (HF : Forall2 (entry_wire (Number (NInt TUint8)) 0 (Number (NInt TUint8)) 0 eq)
                 [(1, 10)] [le_bytes 1 1 ++ le_bytes 1 10]).
  { constructor; [|constructor].
    exists (le_bytes 1 1), (le_bytes 1 10).
    split; [reflexivity|]. split; [apply (Hw 1)|apply (Hw 10)]; lia. }
  destruct (Map_decode_stops_at_first_error map_to_list 0 0 (Number (NInt TUint8))
              (Number (NInt TUint8)) eq _ _ de (le_bytes 1 3) 2 None HF
              eq_refl eq_refl ltac:(split; reflexivity) eq_refl)
    as (l' & Hrel & _ & Hvalue).
  apply Forall2_cons_inv_r in Hrel as ([k1 v1] & l1 & [Hk1 Hv1] & Hrel & ->).
  apply Forall2_nil_inv_r in Hrel as ->. cbn [fst snd] in *. subst.
  exists (insert_all [(1, 10)] ∅). split; [|split; reflexivity].
  apply (Hvalue (unread de []) 3 _ 0 errUnexpectedEnd); vm_compute; reflexivity.
Defined.
